(** * log4go: level-filtered dispatch, structured fields and the JSON/text encoder

    A shallow embedding of [log4go.go] (levels, records, the dispatch
    functions), of the field model ([Field], its constructors, [Any],
    [AddTo]) and of the encoder ([EncodeJson], [EncodeString],
    [safeAddString] and the typed [Add...] methods).

    Conventions.
    - A Go [string] is a sequence of bytes: record fields are [string]s,
      the encoder's [buf []byte] is a [list ascii], and [bytes_of] /
      [string_of_list_ascii] convert between the two.
    - Go integers are [Z]; a conversion such as [int8(x)] is written out
      as its wrap-around ([wrap_signed], [wrap_unsigned]).  [int] is the
      64-bit [int] of the usual targets.
    - A run-time panic (index out of range, failed type assertion) is
      [None]. *)

From Stdlib Require Import ZArith Strings.String Strings.Ascii.
From Stdlib Require Import Numbers.DecimalString Numbers.DecimalZ Numbers.DecimalPos.
From stdpp Require Import gmap strings list.

Open Scope Z_scope.

(** ** Bytes, integers and decimal rendering *)

Definition bytes_of (s : string) : list ascii := list_ascii_of_string s.

Definition byte_val (b : ascii) : Z := Z.of_N (N_of_ascii b).

Definition byte_of_val (z : Z) : ascii := ascii_of_N (Z.to_N z).

Definition wrap_unsigned (w : Z) (z : Z) : Z := z mod 2 ^ w.

Definition wrap_signed (w : Z) (z : Z) : Z :=
  (z + 2 ^ (w - 1)) mod 2 ^ w - 2 ^ (w - 1).

(** [strconv.AppendInt(buf, v, 10)] and [strconv.AppendUint(buf, v, 10)]
    append the decimal numeral of [v]. *)
Definition FormatInt (v : Z) : list ascii :=
  bytes_of (NilZero.string_of_int (Z.to_int v)).

Definition FormatUint (v : Z) : list ascii :=
  bytes_of (NilZero.string_of_int (Z.to_int v)).

Definition FormatBool (b : bool) : list ascii :=
  bytes_of (if b then "true" else "false").

(** ** Levels ([log4go.go]) *)

Module Level.

Definition FINEST : Z := 0.
Definition FINE : Z := 1.
Definition DEBUG : Z := 2.
Definition TRACE : Z := 3.
Definition INFO : Z := 4.
Definition WARNING : Z := 5.
Definition ERROR : Z := 6.
Definition CRITICAL : Z := 7.

Definition levelStrings : list string :=
  ["FNST"; "FINE"; "DEBG"; "TRAC"; "INFO"; "WARN"; "EROR"; "CRIT"].

(** [func (l Level) String() string].  The guard compares with
    [len(levelStrings)] using [>]; the indexing that follows panics when
    the index is not below the length. *)
Definition String (l : Z) : option string :=
  if (l <? 0) || (Z.of_nat (length levelStrings) <? l) then Some "UNKNOWN"
  else levelStrings !! Z.to_nat l.

End Level.

(** ** Dynamic values

    The values an [interface{}] can hold, as far as the package
    distinguishes them: [Any] switches on the dynamic type, [AddTo]
    asserts [bool], [float32] and [float64].  Integer payloads are the
    numeric value; a float is kept as its IEEE bit pattern and is only
    ever handed to the formatting functions of the Go library, which are
    parameters of the encoder below. *)

Inductive any : Type :=
| ANil
| ABool (b : bool)
| AInt (v : Z)
| AInt8 (v : Z)
| AInt16 (v : Z)
| AInt32 (v : Z)
| AInt64 (v : Z)
| AUint (v : Z)
| AUint8 (v : Z)
| AUint16 (v : Z)
| AUint32 (v : Z)
| AUint64 (v : Z)
| AFloat32 (bits : Z)
| AFloat64 (bits : Z)
| AString (s : string)
| AOther (type_name : string) (repr : string).

(** The payload of a dynamic value lies in the range of its Go type. *)
Definition any_wf (a : any) : Prop :=
  match a with
  | AInt v | AInt64 v => - 2 ^ 63 <= v < 2 ^ 63
  | AInt8 v => - 2 ^ 7 <= v < 2 ^ 7
  | AInt16 v => - 2 ^ 15 <= v < 2 ^ 15
  | AInt32 v => - 2 ^ 31 <= v < 2 ^ 31
  | AUint v | AUint64 v => 0 <= v < 2 ^ 64
  | AUint8 v => 0 <= v < 2 ^ 8
  | AUint16 v => 0 <= v < 2 ^ 16
  | AUint32 v => 0 <= v < 2 ^ 32
  | AFloat32 bits => 0 <= bits < 2 ^ 32
  | AFloat64 bits => 0 <= bits < 2 ^ 64
  | ANil | ABool _ | AString _ | AOther _ _ => True
  end.

(** ** Fields (the field model with all integer widths) *)

Inductive FieldType : Type :=
| UnknownType
| BoolType
| IntType
| Int32Type
| Uint32Type
| Int64Type
| Uint64Type
| Int8Type
| Uint8Type
| Float64Type
| Float32Type
| StringType
| InterfaceType.

Global Instance FieldType_eq_dec : EqDecision FieldType.
Proof. solve_decision. Defined.

(** [type Field struct { Key; Type; Integer int64; String; Interface }]. *)
Record Field : Type := mkField {
  f_Key : string;
  f_Type : FieldType;
  f_Integer : Z;
  f_String : string;
  f_Interface : any
}.

(** The constructors of the package; a slot that a Go composite literal
    leaves out holds its zero value. *)
Module field.

Definition Bool (key : string) (value : bool) : Field :=
  mkField key BoolType 0 "" (ABool value).

Definition Uint32 (key : string) (value : Z) : Field :=
  mkField key Uint32Type (wrap_signed 64 value) "" ANil.

Definition Int32 (key : string) (value : Z) : Field :=
  mkField key Int32Type (wrap_signed 64 value) "" ANil.

Definition Uint8 (key : string) (value : Z) : Field :=
  mkField key Uint8Type (wrap_signed 64 value) "" ANil.

Definition Int8 (key : string) (value : Z) : Field :=
  mkField key Int8Type (wrap_signed 64 value) "" ANil.

Definition Uint64 (key : string) (value : Z) : Field :=
  mkField key Uint64Type (wrap_signed 64 value) "" ANil.

Definition Int64 (key : string) (value : Z) : Field :=
  mkField key Int64Type value "" ANil.

Definition Int (key : string) (value : Z) : Field :=
  mkField key IntType (wrap_signed 64 value) "" ANil.

Definition Float32 (key : string) (bits : Z) : Field :=
  mkField key Float32Type 0 "" (AFloat32 bits).

Definition Float64 (key : string) (bits : Z) : Field :=
  mkField key Float64Type 0 "" (AFloat64 bits).

Definition String (key : string) (value : string) : Field :=
  mkField key StringType 0 value ANil.

(** [Err]: the error is absent ([None]) or carries its message. *)
Definition Err (err : option string) : Field :=
  let value := match err with Some msg => msg | None => "nil" end in
  mkField "error" StringType 0 value ANil.

(** [Any]: a type switch with one case per listed integer type, one for
    [string], and a default. *)
Definition Any (key : string) (value : any) : Field :=
  match value with
  | AInt v => mkField key IntType (wrap_signed 64 v) "" ANil
  | AUint8 v => mkField key IntType (wrap_signed 64 v) "" ANil
  | AInt8 v => mkField key IntType (wrap_signed 64 v) "" ANil
  | AUint32 v => mkField key IntType (wrap_signed 64 v) "" ANil
  | AInt32 v => mkField key IntType (wrap_signed 64 v) "" ANil
  | AUint64 v => mkField key IntType (wrap_signed 64 v) "" ANil
  | AInt64 v => mkField key IntType (wrap_signed 64 v) "" ANil
  | AString s => mkField key StringType 0 s ANil
  | _ => mkField key InterfaceType 0 "" value
  end.

End field.

(** ** The Go library's [unicode/utf8] decoder

    [safeAddString] calls [utf8.DecodeRuneInString]; this is the library
    function, table and all: [first] classifies the leading byte,
    [acceptRanges] bounds the second byte, and every failure is reported
    as [(RuneError, 1)]. *)

Module utf8.

Definition RuneError : Z := 0xFFFD.
Definition RuneSelf : Z := 0x80.

Definition maskx : Z := 0x3F.
Definition mask2 : Z := 0x1F.
Definition mask3 : Z := 0x0F.
Definition mask4 : Z := 0x07.

Definition locb : Z := 0x80.
Definition hicb : Z := 0xBF.

Definition xx : Z := 0xF1.
Definition as_ : Z := 0xF0.
Definition s1 : Z := 0x02.
Definition s2 : Z := 0x13.
Definition s3 : Z := 0x03.
Definition s4 : Z := 0x23.
Definition s5 : Z := 0x34.
Definition s6 : Z := 0x04.
Definition s7 : Z := 0x44.

(** [var first = [256]uint8{...}], row by row. *)
Definition first : list Z :=
  replicate 128 as_ ++                                  (* 0x00-0x7F *)
  replicate 64 xx ++                                    (* 0x80-0xBF *)
  [xx; xx] ++ replicate 14 s1 ++                        (* 0xC0-0xCF *)
  replicate 16 s1 ++                                    (* 0xD0-0xDF *)
  [s2] ++ replicate 12 s3 ++ [s4; s3; s3] ++            (* 0xE0-0xEF *)
  [s5; s6; s6; s6; s7] ++ replicate 11 xx.              (* 0xF0-0xFF *)

(** [var acceptRanges = [16]acceptRange{...}]; the entries that are not
    listed are zero. *)
Definition acceptRanges : list (Z * Z) :=
  [(locb, hicb); (0xA0, hicb); (locb, 0x9F); (0x90, hicb); (locb, 0x8F)]
  ++ replicate 11 (0, 0).

(** [s[i]] for an index the preceding length test has put in range. *)
Definition at_ (s : list ascii) (i : nat) : Z :=
  match s !! i with Some b => byte_val b | None => 0 end.

Definition DecodeRuneInString (s : list ascii) : Z * Z :=
  let n := Z.of_nat (length s) in
  if n <? 1 then (RuneError, 0) else
  let s0 := at_ s 0 in
  let x := default xx (first !! Z.to_nat s0) in
  if as_ <=? x then
    let mask := Z.shiftr (wrap_signed 32 (Z.shiftl x 31)) 31 in
    (Z.lor (Z.land s0 (Z.lnot mask)) (Z.land RuneError mask), 1)
  else
  let sz := Z.land x 7 in
  let accept := default (0, 0) (acceptRanges !! Z.to_nat (Z.shiftr x 4)) in
  if n <? sz then (RuneError, 1) else
  let b1 := at_ s 1 in
  if (b1 <? fst accept) || (snd accept <? b1) then (RuneError, 1) else
  if sz <=? 2 then
    (Z.lor (Z.shiftl (Z.land s0 mask2) 6) (Z.land b1 maskx), 2)
  else
  let b2 := at_ s 2 in
  if (b2 <? locb) || (hicb <? b2) then (RuneError, 1) else
  if sz <=? 3 then
    (Z.lor (Z.lor (Z.shiftl (Z.land s0 mask3) 12) (Z.shiftl (Z.land b1 maskx) 6))
           (Z.land b2 maskx), 3)
  else
  let b3 := at_ s 3 in
  if (b3 <? locb) || (hicb <? b3) then (RuneError, 1) else
  (Z.lor (Z.lor (Z.lor (Z.shiftl (Z.land s0 mask4) 18) (Z.shiftl (Z.land b1 maskx) 12))
                (Z.shiftl (Z.land b2 maskx) 6))
         (Z.land b3 maskx), 4).

End utf8.

(** ** The encoder *)

Definition Hex : string := "0123456789ABCDEF".

(** [Hex[i]]; the two call sites index with a nibble. *)
Definition Hex_at (i : Z) : ascii :=
  default "0"%char (bytes_of Hex !! Z.to_nat i).

(** [type jsonEncoder struct { buf []byte; left bool }]. *)
Record jsonEncoder : Type := mkEnc {
  buf : list ascii;
  left : bool
}.

(** [newJsonEncoder]: an empty buffer (of capacity 100), [left] at its
    zero value. *)
Definition newJsonEncoder : jsonEncoder := mkEnc [] false.

(** [putJsonEncoder] empties the buffer before the encoder goes back to
    the pool. *)
Definition putJsonEncoder (enc : jsonEncoder) : jsonEncoder :=
  mkEnc [] (left enc).

Definition appendByte (b : ascii) (enc : jsonEncoder) : jsonEncoder :=
  mkEnc (buf enc ++ [b]) (left enc).

Definition appendBytes (bs : list ascii) (enc : jsonEncoder) : jsonEncoder :=
  mkEnc (buf enc ++ bs) (left enc).

Definition appendString (str : string) (enc : jsonEncoder) : jsonEncoder :=
  appendBytes (bytes_of str) enc.

Definition backslash : ascii := "092"%char.
Definition dquote : ascii := "034"%char.
Definition newline : ascii := "010"%char.
Definition creturn : ascii := "013"%char.
Definition tab : ascii := "009"%char.

(** [tryAddRuneSelf]: [false] for a byte that is not ASCII; otherwise the
    byte, or its escape, goes to the buffer. *)
Definition tryAddRuneSelf (b : ascii) (enc : jsonEncoder) : bool * jsonEncoder :=
  let v := byte_val b in
  if utf8.RuneSelf <=? v then (false, enc)
  else if (0x20 <=? v) && negb (v =? byte_val backslash) && negb (v =? byte_val dquote)
  then (true, appendByte b enc)
  else if (v =? byte_val backslash) || (v =? byte_val dquote)
  then (true, appendByte b (appendByte backslash enc))
  else if v =? byte_val newline
  then (true, appendByte "n"%char (appendByte backslash enc))
  else if v =? byte_val creturn
  then (true, appendByte "r"%char (appendByte backslash enc))
  else if v =? byte_val tab
  then (true, appendByte "t"%char (appendByte backslash enc))
  else (true,
        appendByte (Hex_at (Z.land v 0xF))
          (appendByte (Hex_at (Z.shiftr v 4))
             (appendBytes [backslash; "u"%char; "0"%char; "0"%char] enc))).

Definition tryAddRuneError (r size : Z) (enc : jsonEncoder) : bool * jsonEncoder :=
  if (r =? utf8.RuneError) && (size =? 1)
  then (true, appendBytes [backslash; "u"%char; "f"%char; "f"%char; "f"%char; "d"%char] enc)
  else (false, enc).

(** The loop of [safeAddString], [i] running over the bytes of [s].  Every
    iteration advances [i] by at least one, so [length s] iterations are
    enough; [fuel] counts them. *)
Fixpoint safeAddString_loop (fuel : nat) (s : list ascii) (i : nat)
    (enc : jsonEncoder) : jsonEncoder :=
  match fuel with
  | O => enc
  | S fuel' =>
    match s !! i with
    | None => enc
    | Some b =>
      let '(self, enc1) := tryAddRuneSelf b enc in
      if self then safeAddString_loop fuel' s (i + 1) enc1
      else
        let '(r, size) := utf8.DecodeRuneInString (drop i s) in
        let '(bad, enc2) := tryAddRuneError r size enc1 in
        if bad then safeAddString_loop fuel' s (i + 1) enc2
        else safeAddString_loop fuel' s (i + Z.to_nat size)
               (appendBytes (take (Z.to_nat size) (drop i s)) enc2)
    end
  end.

Definition safeAddString (s : string) (enc : jsonEncoder) : jsonEncoder :=
  safeAddString_loop (length (bytes_of s)) (bytes_of s) 0 enc.

(** ** Records ([log4go.go]) *)

(** What [EncodeJson] reads off a [time.Time]. *)
Record Time : Type := mkTime {
  Year : Z;
  Month : Z;
  Day : Z;
  Hour : Z;
  Minute : Z;
  Second : Z;
  Nanosecond : Z
}.

(** [type LogRecord struct { Level; Created; Source; Message; Json; Fields }]. *)
Record LogRecord : Type := mkRecord {
  rec_Level : Z;
  rec_Created : Time;
  rec_Source : string;
  rec_Message : string;
  rec_Json : bool;
  rec_Fields : list Field
}.

(** ** [fmt.Sprintf], as far as the encoder uses it

    [%0wd] with an integer argument: the decimal numeral, zero-padded to
    width [w], the sign first. *)
Definition pad0 (w : nat) (v : Z) : list ascii :=
  let digits := FormatInt (Z.abs v) in
  let sign := if v <? 0 then ["-"%char] else [] in
  sign ++ replicate (w - length sign - length digits) "0"%char ++ digits.

(** The layout ["%04d-%02d-%02d %02d:%02d:%02d.%05d"] between quotes. *)
Definition formatCreated (t : Time) : list ascii :=
  [dquote] ++ pad0 4 (Year t) ++ bytes_of "-" ++ pad0 2 (Month t) ++ bytes_of "-"
  ++ pad0 2 (Day t) ++ bytes_of " " ++ pad0 2 (Hour t) ++ bytes_of ":"
  ++ pad0 2 (Minute t) ++ bytes_of ":" ++ pad0 2 (Second t) ++ bytes_of "."
  ++ pad0 5 (Z.quot (Nanosecond t) 10000) ++ [dquote].

Definition int_of_any (a : any) : option Z :=
  match a with
  | AInt v | AInt8 v | AInt16 v | AInt32 v | AInt64 v
  | AUint v | AUint8 v | AUint16 v | AUint32 v | AUint64 v => Some v
  | _ => None
  end.

Section Encoder.

(** Three functions the encoder relies on and this development does not
    define: [strconv.AppendFloat(buf, v, 'f', -1, bitSize)] (the bytes it
    appends, from the bit size and the value), the encoder's
    [AddInterface] method, and the [%v] rendering of [fmt]. *)
Variable FormatFloat : Z -> Z -> list ascii.
Variable AddInterface : string -> any -> jsonEncoder -> option jsonEncoder.
Variable fmtV : any -> list ascii.

(** One verb applied to one argument: [%d] of an integer, [%s] of a
    string, [%t] of a boolean, [%v] of anything.  Every other pairing
    makes [fmt] print a diagnostic; that part is not modelled ([None]). *)
Definition format_verb (verb : ascii) (a : any) : option (list ascii) :=
  if decide (verb = "d"%char) then FormatInt <$> int_of_any a
  else if decide (verb = "s"%char) then
    match a with AString s => Some (bytes_of s) | _ => None end
  else if decide (verb = "t"%char) then
    match a with ABool b => Some (FormatBool b) | _ => None end
  else if decide (verb = "v"%char) then Some (fmtV a)
  else None.

(** [fmt.Sprintf(format, args...)] on the fragment above: plain bytes are
    copied, [%%] is a percent sign, a verb consumes the next argument.
    Missing or left-over arguments and a trailing [%] are outside the
    fragment. *)
Fixpoint Sprintf (format : list ascii) (args : list any) : option (list ascii) :=
  match format with
  | [] => match args with [] => Some [] | _ :: _ => None end
  | c :: rest =>
    if decide (c = "%"%char) then
      match rest with
      | [] => None
      | verb :: rest' =>
        if decide (verb = "%"%char) then ("%"%char ::.) <$> Sprintf rest' args
        else
          match args with
          | [] => None
          | a :: args' =>
            out ← format_verb verb a;
            tail ← Sprintf rest' args';
            Some (out ++ tail)
          end
      end
    else (c ::.) <$> Sprintf rest args
  end.

Definition AppendLeft (enc : jsonEncoder) : jsonEncoder :=
  if left enc then mkEnc (buf enc ++ [dquote]) false
  else appendBytes [","%char; dquote] enc.

(** The common opening of the typed [Add...] methods: [AppendLeft], the
    key through [safeAddString], then a closing quote, a colon and a
    space. *)
Definition addKey (key : string) (enc : jsonEncoder) : jsonEncoder :=
  appendBytes (dquote :: bytes_of ": ") (safeAddString key (AppendLeft enc)).

Definition AddBool (key : string) (value : bool) (enc : jsonEncoder) : jsonEncoder :=
  appendBytes (FormatBool value) (addKey key enc).

Definition AddInt (key : string) (value : Z) (enc : jsonEncoder) : jsonEncoder :=
  appendBytes (FormatInt (wrap_signed 64 value)) (addKey key enc).

Definition AddInt32 (key : string) (value : Z) (enc : jsonEncoder) : jsonEncoder :=
  appendBytes (FormatInt (wrap_signed 64 value)) (addKey key enc).

Definition AddUint32 (key : string) (value : Z) (enc : jsonEncoder) : jsonEncoder :=
  appendBytes (FormatUint (wrap_unsigned 64 value)) (addKey key enc).

Definition AddInt64 (key : string) (value : Z) (enc : jsonEncoder) : jsonEncoder :=
  appendBytes (FormatInt value) (addKey key enc).

Definition AddUint64 (key : string) (value : Z) (enc : jsonEncoder) : jsonEncoder :=
  appendBytes (FormatUint value) (addKey key enc).

Definition AddInt8 (key : string) (value : Z) (enc : jsonEncoder) : jsonEncoder :=
  appendBytes (FormatInt (wrap_signed 64 value)) (addKey key enc).

(** [AddUint8] takes its value as an [int8] and converts it to
    [uint64]. *)
Definition AddUint8 (key : string) (value : Z) (enc : jsonEncoder) : jsonEncoder :=
  appendBytes (FormatUint (wrap_unsigned 64 value)) (addKey key enc).

Definition AddFloat32 (key : string) (bits : Z) (enc : jsonEncoder) : jsonEncoder :=
  appendBytes (FormatFloat 32 bits) (addKey key enc).

Definition AddFloat64 (key : string) (bits : Z) (enc : jsonEncoder) : jsonEncoder :=
  appendBytes (FormatFloat 64 bits) (addKey key enc).

Definition AddString (key value : string) (enc : jsonEncoder) : jsonEncoder :=
  appendByte dquote
    (safeAddString value
       (appendBytes (dquote :: bytes_of ": " ++ [dquote])
          (safeAddString key (AppendLeft enc)))).

(** [func (f Field) AddTo(enc *jsonEncoder)]: a switch on [f.Type] with no
    default; the type assertions on [f.Interface] panic when the dynamic
    type is another one. *)
Definition AddTo (f : Field) (enc : jsonEncoder) : option jsonEncoder :=
  match f_Type f with
  | BoolType =>
    match f_Interface f with ABool b => Some (AddBool (f_Key f) b enc) | _ => None end
  | IntType => Some (AddInt (f_Key f) (wrap_signed 64 (f_Integer f)) enc)
  | Int32Type => Some (AddInt32 (f_Key f) (wrap_signed 32 (f_Integer f)) enc)
  | Uint32Type => Some (AddUint32 (f_Key f) (wrap_unsigned 32 (f_Integer f)) enc)
  | Int64Type => Some (AddInt64 (f_Key f) (f_Integer f) enc)
  | Uint64Type => Some (AddUint64 (f_Key f) (wrap_unsigned 64 (f_Integer f)) enc)
  | Int8Type => Some (AddInt8 (f_Key f) (wrap_signed 8 (f_Integer f)) enc)
  | Uint8Type => Some (AddUint8 (f_Key f) (wrap_signed 8 (f_Integer f)) enc)
  | Float32Type =>
    match f_Interface f with AFloat32 x => Some (AddFloat32 (f_Key f) x enc) | _ => None end
  | Float64Type =>
    match f_Interface f with AFloat64 x => Some (AddFloat64 (f_Key f) x enc) | _ => None end
  | StringType => Some (AddString (f_Key f) (f_String f) enc)
  | InterfaceType => AddInterface (f_Key f) (f_Interface f) enc
  | UnknownType => Some enc
  end.

(** The loop over [record.Fields] in [EncodeJson]. *)
Fixpoint addFields (fs : list Field) (enc : jsonEncoder) : option jsonEncoder :=
  match fs with
  | [] => Some enc
  | f :: fs' =>
    if decide (f_Type f = UnknownType) then addFields fs' enc
    else enc' ← AddTo f enc; addFields fs' enc'
  end.

Definition quoted (s : string) : list ascii := [dquote] ++ bytes_of s ++ [dquote].

Definition EncodeJson (record : LogRecord) (enc : jsonEncoder) : option string :=
  let enc := appendByte "{"%char enc in
  let enc := appendBytes (quoted "time" ++ bytes_of ":") enc in
  let enc := appendBytes (formatCreated (rec_Created record)) enc in
  let enc := appendBytes (bytes_of "," ++ quoted "message" ++ bytes_of ":") enc in
  let enc := appendBytes (quoted (rec_Message record)) enc in
  let enc := appendBytes (bytes_of "," ++ quoted "level" ++ bytes_of ":") enc in
  lvl ← Level.String (rec_Level record);
  let enc := appendBytes (quoted lvl) enc in
  let enc := appendBytes (bytes_of "," ++ quoted "file" ++ bytes_of ":") enc in
  let enc := appendBytes (quoted (rec_Source record)) enc in
  enc ← addFields (rec_Fields record) enc;
  let enc := appendByte "}"%char enc in
  let enc := appendByte newline enc in
  Some (string_of_list_ascii (buf enc)).

(** The loop over [record.Fields] in [EncodeString]: the placeholders go
    to the buffer, the values to [args]. *)
Fixpoint placeholders (fs : list Field) (enc : jsonEncoder) (args : list any)
    : jsonEncoder * list any :=
  match fs with
  | [] => (enc, args)
  | f :: fs' =>
    if decide (f_Type f = UnknownType) then placeholders fs' enc args
    else
      let enc := appendBytes (bytes_of (f_Key f) ++ bytes_of ":") enc in
      let '(enc, args) :=
        match f_Type f with
        | Int32Type | Uint32Type | Int8Type | Uint8Type
        | Int64Type | Uint64Type | IntType =>
          (appendString "%d" enc, args ++ [AInt64 (f_Integer f)])
        | StringType => (appendString "%s" enc, args ++ [AString (f_String f)])
        | BoolType => (appendString "%t" enc, args ++ [f_Interface f])
        | _ => (appendString "%v" enc, args ++ [f_Interface f])
        end in
      placeholders fs' (appendByte " "%char enc) args
  end.

Definition EncodeString (record : LogRecord) (enc : jsonEncoder) : option string :=
  if (Z.of_nat (length (rec_Fields record)) <=? 0) then Some (rec_Message record)
  else
    let enc := appendString (rec_Message record) enc in
    let enc := appendByte " "%char enc in
    let '(enc, args) := placeholders (rec_Fields record) enc [] in
    string_of_list_ascii <$> Sprintf (buf enc) args.

(** [EncodeString] as [json_encoder.go] has it, the earlier form of the
    same method: no space after the message, no guard for the unknown
    kind, and [%d] for the int32 kind only. *)
Fixpoint placeholders_v1 (fs : list Field) (enc : jsonEncoder) (args : list any)
    : jsonEncoder * list any :=
  match fs with
  | [] => (enc, args)
  | f :: fs' =>
    let enc := appendBytes (bytes_of (f_Key f) ++ bytes_of ":") enc in
    let '(enc, args) :=
      match f_Type f with
      | Int32Type => (appendString "%d" enc, args ++ [AInt64 (f_Integer f)])
      | StringType => (appendString "%s" enc, args ++ [AString (f_String f)])
      | _ => (appendString "%v" enc, args ++ [f_Interface f])
      end in
    placeholders_v1 fs' (appendByte " "%char enc) args
  end.

Definition EncodeString_v1 (record : LogRecord) (enc : jsonEncoder) : option string :=
  if (Z.of_nat (length (rec_Fields record)) <=? 0) then Some (rec_Message record)
  else
    let enc := appendString (rec_Message record) enc in
    let '(enc, args) := placeholders_v1 (rec_Fields record) enc [] in
    string_of_list_ascii <$> Sprintf (buf enc) args.

End Encoder.

(** ** The logger and its dispatch ([log4go.go])

    A [LogWriter] is an object behind an interface; here it is its
    identity.  [type Filter struct { Level; LogWriter }] and
    [type Logger map[string]*Filter]. *)

Record Filter : Type := mkFilter {
  filt_Level : Z;
  filt_LogWriter : nat
}.

Abbreviation Logger := (gmap string Filter).

Definition AddFilter (name : string) (lvl : Z) (writer : nat) (log : Logger) : Logger :=
  <[name := mkFilter lvl writer]> log.

(** What a dispatch call does to the outside, in the order it does it. *)
Inductive Effect : Type :=
| ESprintf (format : string) (args : list any)
| ECaller
| EClosure
| ENow
| ELogWrite (name : string) (writer : nat) (rec : nat).

(** The state a call runs in: the clock ([ticks] counts the readings of
    [time.Now]), the number of [range] loops started so far, and the
    heap of allocated records, a pointer being an index into it. *)
Record World : Type := mkWorld {
  w_ticks : nat;
  w_ranges : nat;
  w_heap : list LogRecord
}.

(** A computation returns a value, a new state and the effects it had. *)
Definition M (A : Type) : Type := World -> A * World * list Effect.

Definition ret {A : Type} (a : A) : M A := fun w => (a, w, []).

Definition bind {A B : Type} (m : M A) (k : A -> M B) : M B :=
  fun w =>
    let '(a, w1, t1) := m w in
    let '(b, w2, t2) := k a w1 in
    (b, w2, t1 ++ t2).

Notation "'let*' x ':=' m 'in' k" := (bind m (fun x => k))
  (at level 10, x name, m at level 100, k at level 200).

Definition emit (e : Effect) : M unit := fun w => (tt, w, [e]).

Definition effects {A : Type} (m : M A) (w : World) : list Effect := (m w).2.

Definition final {A : Type} (m : M A) (w : World) : World := (m w).1.2.

(** The source text of a record: [fmt.Sprintf("%s:%d", fileName, lineno)]
    when [runtime.Caller] reports a call site, the empty string when it
    does not. *)
Definition source_text (callsite : option (string * Z)) : string :=
  match callsite with
  | Some (fileName, lineno) => fileName +:+ ":" +:+ string_of_list_ascii (FormatInt lineno)
  | None => ""
  end.

Section Dispatch.

(** The surroundings of a call: the result of [fmt.Sprintf], the reading
    of the clock at each tick, what [runtime.Caller(2)] reports for the
    call site (file, line, or nothing when it fails), and the order in
    which the [n]-th [range] loop visits the entries of a map. *)
Variable fmt_Sprintf : string -> list any -> string.
Variable clock : nat -> Time.
Variable callsite : option (string * Z).
Variable iteration : nat -> list (string * Filter) -> list (string * Filter).

Definition Sprintf_call (format : string) (args : list any) : M string :=
  let* _ := emit (ESprintf format args) in ret (fmt_Sprintf format args).

Definition Now : M Time :=
  fun w => (clock (w_ticks w), mkWorld (S (w_ticks w)) (w_ranges w) (w_heap w), [ENow]).

(** [&LogRecord{...}]: a fresh record, and the pointer to it. *)
Definition alloc (r : LogRecord) : M nat :=
  fun w => (length (w_heap w), mkWorld (w_ticks w) (w_ranges w) (w_heap w ++ [r]), []).

Definition range (log : Logger) : M (list (string * Filter)) :=
  fun w => (iteration (w_ranges w) (map_to_list log),
            mkWorld (w_ticks w) (S (w_ranges w)) (w_heap w), []).

(** [runtime.Caller(2)] and the rendering of what it found; the rendering
    belongs to the resolution and is not counted as formatting of the
    caller's arguments. *)
Definition callerSource : M string :=
  let* _ := emit ECaller in ret (source_text callsite).

Definition call_closure (closure : unit -> string) : M string :=
  let* _ := emit EClosure in ret (closure tt).

Definition LogWrite (name : string) (filt : Filter) (rec : nat) : M unit :=
  emit (ELogWrite name (filt_LogWriter filt) rec).

(** The first loop of every dispatch function: [skip] stays [true] unless
    some filter admits the level, and the loop stops at the first that
    does. *)
Fixpoint skipCheck (lvl : Z) (fs : list (string * Filter)) : bool :=
  match fs with
  | [] => true
  | (_, filt) :: fs' => if filt_Level filt <=? lvl then false else skipCheck lvl fs'
  end.

(** The last loop of [intLogf], [intLogc] and [Log]: one record for all. *)
Fixpoint fanOut (lvl : Z) (rec : nat) (fs : list (string * Filter)) : M unit :=
  match fs with
  | [] => ret tt
  | (name, filt) :: fs' =>
    if lvl <? filt_Level filt then fanOut lvl rec fs'
    else let* _ := LogWrite name filt rec in fanOut lvl rec fs'
  end.

(** The last loop of [intLogJson]: the record is made inside the loop. *)
Fixpoint fanOutJson (lvl : Z) (now : Time) (src message : string) (filed : list Field)
    (fs : list (string * Filter)) : M unit :=
  match fs with
  | [] => ret tt
  | (name, filt) :: fs' =>
    if lvl <? filt_Level filt then fanOutJson lvl now src message filed fs'
    else
      let* rec := alloc (mkRecord lvl now src message true filed) in
      let* _ := LogWrite name filt rec in
      fanOutJson lvl now src message filed fs'
  end.

Definition intLogf (log : Logger) (lvl : Z) (format : string) (args : list any) : M unit :=
  let* fs := range log in
  if skipCheck lvl fs then ret tt else
  let* src := callerSource in
  let* msg := (if 0 <? Z.of_nat (length args) then Sprintf_call format args
               else ret format) in
  let* now := Now in
  let* rec := alloc (mkRecord lvl now src msg false []) in
  let* fs := range log in
  fanOut lvl rec fs.

Definition intLogJson (log : Logger) (lvl : Z) (message : string) (filed : list Field)
    : M unit :=
  let* fs := range log in
  if skipCheck lvl fs then ret tt else
  let* src := callerSource in
  let* now := Now in
  let* fs := range log in
  fanOutJson lvl now src message filed fs.

Definition intLogc (log : Logger) (lvl : Z) (closure : unit -> string) : M unit :=
  let* fs := range log in
  if skipCheck lvl fs then ret tt else
  let* src := callerSource in
  let* now := Now in
  let* msg := call_closure closure in
  let* rec := alloc (mkRecord lvl now src msg false []) in
  let* fs := range log in
  fanOut lvl rec fs.

Definition Log (log : Logger) (lvl : Z) (source message : string) : M unit :=
  let* fs := range log in
  if skipCheck lvl fs then ret tt else
  let* now := Now in
  let* rec := alloc (mkRecord lvl now source message false []) in
  let* fs := range log in
  fanOut lvl rec fs.

Definition Logf (log : Logger) (lvl : Z) (format : string) (args : list any) : M unit :=
  intLogf log lvl format args.

Definition Logc (log : Logger) (lvl : Z) (closure : unit -> string) : M unit :=
  intLogc log lvl closure.

Definition Finestf (log : Logger) (arg0 : string) (args : list any) : M unit :=
  intLogf log Level.FINEST arg0 args.

Definition Finef (log : Logger) (arg0 : string) (args : list any) : M unit :=
  intLogf log Level.FINE arg0 args.

Definition Debugf (log : Logger) (arg0 : string) (args : list any) : M unit :=
  intLogf log Level.DEBUG arg0 args.

Definition Tracef (log : Logger) (arg0 : string) (args : list any) : M unit :=
  intLogf log Level.TRACE arg0 args.

Definition Infof (log : Logger) (arg0 : string) (args : list any) : M unit :=
  intLogf log Level.INFO arg0 args.

(** [Warnf], [Errorf] and [Criticalf] pass [fmt.Sprintf(arg0, args...)] as
    the format and no arguments: the message is formatted before
    [intLogf] is entered. *)
Definition Warnf (log : Logger) (arg0 : string) (args : list any) : M unit :=
  let* msg := Sprintf_call arg0 args in intLogf log Level.WARNING msg [].

Definition Errorf (log : Logger) (arg0 : string) (args : list any) : M unit :=
  let* msg := Sprintf_call arg0 args in intLogf log Level.ERROR msg [].

Definition Criticalf (log : Logger) (arg0 : string) (args : list any) : M unit :=
  let* msg := Sprintf_call arg0 args in intLogf log Level.CRITICAL msg [].

Definition Debug (log : Logger) (message : string) (fields : list Field) : M unit :=
  intLogJson log Level.DEBUG message fields.

Definition Info (log : Logger) (message : string) (fields : list Field) : M unit :=
  intLogJson log Level.INFO message fields.

Definition Warn (log : Logger) (message : string) (fields : list Field) : M unit :=
  intLogJson log Level.WARNING message fields.

Definition Error (log : Logger) (message : string) (fields : list Field) : M unit :=
  intLogJson log Level.ERROR message fields.

(** The public dispatch entries, as data: one constructor per method of
    [Logger] that logs. *)
Inductive Call : Type :=
| CLog (lvl : Z) (source message : string)
| CLogf (lvl : Z) (format : string) (args : list any)
| CLogc (lvl : Z) (closure : unit -> string)
| CFinestf (arg0 : string) (args : list any)
| CFinef (arg0 : string) (args : list any)
| CDebugf (arg0 : string) (args : list any)
| CTracef (arg0 : string) (args : list any)
| CInfof (arg0 : string) (args : list any)
| CWarnf (arg0 : string) (args : list any)
| CErrorf (arg0 : string) (args : list any)
| CCriticalf (arg0 : string) (args : list any)
| CDebug (message : string) (fields : list Field)
| CInfo (message : string) (fields : list Field)
| CWarn (message : string) (fields : list Field)
| CError (message : string) (fields : list Field).

Definition dispatch (log : Logger) (c : Call) : M unit :=
  match c with
  | CLog lvl source message => Log log lvl source message
  | CLogf lvl format args => Logf log lvl format args
  | CLogc lvl closure => Logc log lvl closure
  | CFinestf arg0 args => Finestf log arg0 args
  | CFinef arg0 args => Finef log arg0 args
  | CDebugf arg0 args => Debugf log arg0 args
  | CTracef arg0 args => Tracef log arg0 args
  | CInfof arg0 args => Infof log arg0 args
  | CWarnf arg0 args => Warnf log arg0 args
  | CErrorf arg0 args => Errorf log arg0 args
  | CCriticalf arg0 args => Criticalf log arg0 args
  | CDebug message fields => Debug log message fields
  | CInfo message fields => Info log message fields
  | CWarn message fields => Warn log message fields
  | CError message fields => Error log message fields
  end.

End Dispatch.

(** The severity a call logs at. *)
Definition severity (c : Call) : Z :=
  match c with
  | CLog lvl _ _ | CLogf lvl _ _ | CLogc lvl _ => lvl
  | CFinestf _ _ => Level.FINEST
  | CFinef _ _ => Level.FINE
  | CDebugf _ _ | CDebug _ _ => Level.DEBUG
  | CTracef _ _ => Level.TRACE
  | CInfof _ _ | CInfo _ _ => Level.INFO
  | CWarnf _ _ | CWarn _ _ => Level.WARNING
  | CErrorf _ _ | CError _ _ => Level.ERROR
  | CCriticalf _ _ => Level.CRITICAL
  end.

(** The three entries that format before they dispatch. *)
Definition formats_eagerly (c : Call) : bool :=
  match c with
  | CWarnf _ _ | CErrorf _ _ | CCriticalf _ _ => true
  | _ => false
  end.

Definition is_write (e : Effect) : bool :=
  match e with ELogWrite _ _ _ => true | _ => false end.

Definition is_format (e : Effect) : bool :=
  match e with ESprintf _ _ => true | _ => false end.

Definition is_closure (e : Effect) : bool :=
  match e with EClosure => true | _ => false end.

Definition is_caller (e : Effect) : bool :=
  match e with ECaller => true | _ => false end.

Definition count (p : Effect -> bool) (t : list Effect) : nat :=
  length (filter (fun e => p e = true) t).

(** ** Statements of the specification, for comparison with the code *)

(** The content of the table [utf8.first], by ranges of the leading
    byte. *)
Definition first_class (v : Z) : Z :=
  if v <? 0x80 then utf8.as_
  else if v <? 0xC2 then utf8.xx
  else if v <? 0xE0 then utf8.s1
  else if v =? 0xE0 then utf8.s2
  else if v <? 0xED then utf8.s3
  else if v =? 0xED then utf8.s4
  else if v <? 0xF0 then utf8.s3
  else if v =? 0xF0 then utf8.s5
  else if v <? 0xF4 then utf8.s6
  else if v =? 0xF4 then utf8.s7
  else utf8.xx.

(** Well-formed UTF-8 byte sequences of more than one byte: the rows of
    the Unicode standard's table of well-formed sequences (no overlong
    forms, no surrogates, nothing above U+10FFFF). *)
Inductive WellFormed : list ascii -> Prop :=
| WF_2 b0 b1 :
    0xC2 <= byte_val b0 <= 0xDF -> 0x80 <= byte_val b1 <= 0xBF -> WellFormed [b0; b1]
| WF_3_E0 b0 b1 b2 :
    byte_val b0 = 0xE0 -> 0xA0 <= byte_val b1 <= 0xBF -> 0x80 <= byte_val b2 <= 0xBF ->
    WellFormed [b0; b1; b2]
| WF_3 b0 b1 b2 :
    0xE1 <= byte_val b0 <= 0xEC \/ 0xEE <= byte_val b0 <= 0xEF ->
    0x80 <= byte_val b1 <= 0xBF -> 0x80 <= byte_val b2 <= 0xBF ->
    WellFormed [b0; b1; b2]
| WF_3_ED b0 b1 b2 :
    byte_val b0 = 0xED -> 0x80 <= byte_val b1 <= 0x9F -> 0x80 <= byte_val b2 <= 0xBF ->
    WellFormed [b0; b1; b2]
| WF_4_F0 b0 b1 b2 b3 :
    byte_val b0 = 0xF0 -> 0x90 <= byte_val b1 <= 0xBF -> 0x80 <= byte_val b2 <= 0xBF ->
    0x80 <= byte_val b3 <= 0xBF -> WellFormed [b0; b1; b2; b3]
| WF_4 b0 b1 b2 b3 :
    0xF1 <= byte_val b0 <= 0xF3 -> 0x80 <= byte_val b1 <= 0xBF -> 0x80 <= byte_val b2 <= 0xBF ->
    0x80 <= byte_val b3 <= 0xBF -> WellFormed [b0; b1; b2; b3]
| WF_4_F4 b0 b1 b2 b3 :
    byte_val b0 = 0xF4 -> 0x80 <= byte_val b1 <= 0x8F -> 0x80 <= byte_val b2 <= 0xBF ->
    0x80 <= byte_val b3 <= 0xBF -> WellFormed [b0; b1; b2; b3].


(** The escaping the specification describes for [safeAddString], as a
    relation between the input bytes and the output bytes.  The two hex
    digits of a control byte come from [hex_digit]; [replacement] is the
    escape of U+FFFD. *)
Definition hex_digit (n : Z) : ascii :=
  byte_of_val (if n <? 10 then 48 + n else 55 + n).

Definition replacement : list ascii :=
  [backslash; "u"%char; "f"%char; "f"%char; "f"%char; "d"%char].

Inductive Escaped : list ascii -> list ascii -> Prop :=
| Esc_nil : Escaped [] []
| Esc_plain b rest out :
    0x20 <= byte_val b < 0x80 -> b <> backslash -> b <> dquote ->
    Escaped rest out -> Escaped (b :: rest) (b :: out)
| Esc_backslash rest out :
    Escaped rest out -> Escaped (backslash :: rest) (backslash :: backslash :: out)
| Esc_quote rest out :
    Escaped rest out -> Escaped (dquote :: rest) (backslash :: dquote :: out)
| Esc_newline rest out :
    Escaped rest out -> Escaped (newline :: rest) (backslash :: "n"%char :: out)
| Esc_return rest out :
    Escaped rest out -> Escaped (creturn :: rest) (backslash :: "r"%char :: out)
| Esc_tab rest out :
    Escaped rest out -> Escaped (tab :: rest) (backslash :: "t"%char :: out)
| Esc_control b rest out :
    byte_val b < 0x20 -> b <> newline -> b <> creturn -> b <> tab ->
    Escaped rest out ->
    Escaped (b :: rest)
      ([backslash; "u"%char; "0"%char; "0"%char;
        hex_digit (byte_val b / 16); hex_digit (byte_val b mod 16)] ++ out)
| Esc_multi w rest out :
    WellFormed w -> Escaped rest out -> Escaped (w ++ rest) (w ++ out)
| Esc_invalid b rest out :
    0x80 <= byte_val b ->
    (forall w t, b :: rest = w ++ t -> ~ WellFormed w) ->
    Escaped rest out -> Escaped (b :: rest) (replacement ++ out).


(** What [safeAddString] writes for a string, read off a run on an empty
    buffer. *)
Definition escape (s : string) : list ascii := buf (safeAddString s newJsonEncoder).

(** ** The encoder's output in closed form *)

(** One key/value pair as the typed [Add...] methods write it on an
    encoder whose [left] flag is unset: a comma, the escaped key between
    quotes, a colon, a space, the value. *)
Definition pair_text (key : string) (value : list ascii) : list ascii :=
  bytes_of "," ++ [dquote] ++ escape key ++ [dquote] ++ bytes_of ": " ++ value.

(** A text value between quotes, escaped. *)
Definition quoted_escaped (s : string) : list ascii := [dquote] ++ escape s ++ [dquote].

(** A field that [AddTo] renders with one of the typed [Add...] methods
    of the sources; the method of the fallback kind is not among them. *)
Definition typed (f : Field) : Prop := f_Type f <> InterfaceType.

(** What the code appends as the value of a typed field, read off
    [AddTo] and the method it calls: the conversion [AddTo] applies to
    the stored integer, then the conversion of the method.  This follows
    the code, not the specification: for the uint8 kind [AddTo] converts
    to [int8] and [AddUint8] converts that to [uint64].  [None] where the
    type assertion of [AddTo] fails. *)
Definition appended_value (FormatFloat : Z -> Z -> list ascii) (f : Field)
    : option (list ascii) :=
  match f_Type f with
  | UnknownType | InterfaceType => None
  | BoolType => match f_Interface f with ABool b => Some (FormatBool b) | _ => None end
  | IntType => Some (FormatInt (wrap_signed 64 (f_Integer f)))
  | Int32Type => Some (FormatInt (wrap_signed 32 (f_Integer f)))
  | Uint32Type => Some (FormatUint (wrap_unsigned 32 (f_Integer f)))
  | Int64Type => Some (FormatInt (f_Integer f))
  | Uint64Type => Some (FormatUint (wrap_unsigned 64 (f_Integer f)))
  | Int8Type => Some (FormatInt (wrap_signed 8 (f_Integer f)))
  | Uint8Type => Some (FormatUint (wrap_unsigned 64 (wrap_signed 8 (f_Integer f))))
  | Float32Type =>
    match f_Interface f with AFloat32 x => Some (FormatFloat 32 x) | _ => None end
  | Float64Type =>
    match f_Interface f with AFloat64 x => Some (FormatFloat 64 x) | _ => None end
  | StringType => Some (quoted_escaped (f_String f))
  end.

Definition appended_pair (FormatFloat : Z -> Z -> list ascii) (f : Field)
    : option (list ascii) :=
  v ← appended_value FormatFloat f; Some (pair_text (f_Key f) v).

(** ** Statements of the specification, continued *)

(** The fields that are rendered: those whose kind is not the unknown
    one. *)
Definition known (fs : list Field) : list Field :=
  filter (fun f => f_Type f <> UnknownType) fs.

(** The JSON line: the four leading keys in their fixed order, the pairs,
    the closing brace and a newline. *)
Definition json_line (record : LogRecord) (lvl : string) (pairs : list (list ascii))
    : list ascii :=
  bytes_of "{" ++ quoted "time" ++ bytes_of ":" ++ formatCreated (rec_Created record)
  ++ bytes_of "," ++ quoted "message" ++ bytes_of ":" ++ quoted (rec_Message record)
  ++ bytes_of "," ++ quoted "level" ++ bytes_of ":" ++ quoted lvl
  ++ bytes_of "," ++ quoted "file" ++ bytes_of ":" ++ quoted (rec_Source record)
  ++ concat pairs ++ bytes_of "}" ++ [newline].

(** Text mode.  The text of a field's value: decimal for the integer
    kinds, the text itself for the text kind, true or false for a
    boolean, the generic rendering for everything else. *)
Definition text_value (fmtV : any -> list ascii) (f : Field) : list ascii :=
  match f_Type f with
  | Int32Type | Uint32Type | Int8Type | Uint8Type | Int64Type | Uint64Type | IntType =>
    FormatInt (f_Integer f)
  | StringType => bytes_of (f_String f)
  | BoolType => match f_Interface f with ABool b => FormatBool b | a => fmtV a end
  | _ => fmtV (f_Interface f)
  end.

(** The text line as the specification gives it: the message alone when
    there are no fields, otherwise the message and, for every field, a
    space and [key:value]. *)
Definition text_line_as_specified (fmtV : any -> list ascii) (record : LogRecord)
    : list ascii :=
  bytes_of (rec_Message record)
  ++ concat (map (fun f => bytes_of " " ++ bytes_of (f_Key f) ++ bytes_of ":"
                           ++ text_value fmtV f)
               (rec_Fields record)).

(** The text line the encoder builds when there are fields: the message,
    a space, and for every field of a known kind [key:value] followed by
    a space. *)
Definition text_line (fmtV : any -> list ascii) (record : LogRecord) : list ascii :=
  bytes_of (rec_Message record) ++ bytes_of " "
  ++ concat (map (fun f => bytes_of (f_Key f) ++ bytes_of ":" ++ text_value fmtV f
                           ++ bytes_of " ")
               (known (rec_Fields record))).

(** The verb [EncodeString] picks for a field, and the argument it passes
    for it. *)
Definition text_verb (f : Field) : ascii :=
  match f_Type f with
  | Int32Type | Uint32Type | Int8Type | Uint8Type | Int64Type | Uint64Type | IntType =>
    "d"%char
  | StringType => "s"%char
  | BoolType => "t"%char
  | _ => "v"%char
  end.

Definition text_arg (f : Field) : any :=
  match f_Type f with
  | Int32Type | Uint32Type | Int8Type | Uint8Type | Int64Type | Uint64Type | IntType =>
    AInt64 (f_Integer f)
  | StringType => AString (f_String f)
  | _ => f_Interface f
  end.

Definition placeholder (f : Field) : list ascii :=
  bytes_of (f_Key f) ++ bytes_of ":" ++ ["%"%char; text_verb f] ++ bytes_of " ".

(** Text mode in the earlier form of the method ([json_encoder.go]):
    decimal for the int32 kind, the text itself for the text kind, the
    generic rendering for every other kind, booleans and the unknown
    kind included. *)
Definition text_value_v1 (fmtV : any -> list ascii) (f : Field) : list ascii :=
  match f_Type f with
  | Int32Type => FormatInt (f_Integer f)
  | StringType => bytes_of (f_String f)
  | _ => fmtV (f_Interface f)
  end.

(** The text line the earlier form builds when there are fields: the
    message and then, with nothing in between, [key:value] followed by a
    space for every field. *)
Definition text_line_v1 (fmtV : any -> list ascii) (record : LogRecord) : list ascii :=
  bytes_of (rec_Message record)
  ++ concat (map (fun f => bytes_of (f_Key f) ++ bytes_of ":" ++ text_value_v1 fmtV f
                           ++ bytes_of " ")
               (rec_Fields record)).

Definition text_verb_v1 (f : Field) : ascii :=
  match f_Type f with
  | Int32Type => "d"%char
  | StringType => "s"%char
  | _ => "v"%char
  end.

Definition text_arg_v1 (f : Field) : any :=
  match f_Type f with
  | Int32Type => AInt64 (f_Integer f)
  | StringType => AString (f_String f)
  | _ => f_Interface f
  end.

Definition placeholder_v1 (f : Field) : list ascii :=
  bytes_of (f_Key f) ++ bytes_of ":" ++ ["%"%char; text_verb_v1 f] ++ bytes_of " ".

(** A boolean field stores a boolean. *)
Definition bool_stored (f : Field) : Prop :=
  f_Type f = BoolType -> exists b, f_Interface f = ABool b.

Definition percent_free (s : string) : Prop := "%"%char ∉ bytes_of s.

(** Dispatch.  A binding admits a level when its threshold is not above
    it. *)
Definition admits (lvl : Z) (b : string * Filter) : Prop := filt_Level b.2 <= lvl.

Global Instance admits_dec (lvl : Z) (b : string * Filter) : Decision (admits lvl b).
Proof. unfold admits. apply _. Defined.

Definition admitted (lvl : Z) (fs : list (string * Filter)) : list (string * Filter) :=
  filter (admits lvl) fs.

(** The Writer invocations among the effects of a call: the binding and
    its writer, and the record each invocation was handed. *)
Definition writes (t : list Effect) : list (string * nat) :=
  omap (fun e => match e with ELogWrite n w _ => Some (n, w) | _ => None end) t.

Definition written (t : list Effect) : list nat :=
  omap (fun e => match e with ELogWrite _ _ rec => Some rec | _ => None end) t.

Definition target (b : string * Filter) : string * nat := (b.1, filt_LogWriter b.2).

Definition write_event (rec : nat) (b : string * Filter) : Effect :=
  ELogWrite b.1 (filt_LogWriter b.2) rec.

(** The calls that mark their record as structured. *)
Definition structured (c : Call) : bool :=
  match c with
  | CDebug _ _ | CInfo _ _ | CWarn _ _ | CError _ _ => true
  | _ => false
  end.

(** The formatting [Warnf], [Errorf] and [Criticalf] do on entry. *)
Definition eager_format (c : Call) : list Effect :=
  match c with
  | CWarnf arg0 args | CErrorf arg0 args | CCriticalf arg0 args => [ESprintf arg0 args]
  | _ => []
  end.

(** The effects of a call that is not skipped, between the skip check
    and the fan-out. *)
Definition prelude (c : Call) : list Effect :=
  match c with
  | CLog _ _ _ => [ENow]
  | CLogf _ format args | CFinestf format args | CFinef format args
  | CDebugf format args | CTracef format args | CInfof format args =>
    [ECaller] ++ (if 0 <? Z.of_nat (length args) then [ESprintf format args] else [])
    ++ [ENow]
  | CLogc _ _ => [ECaller; ENow; EClosure]
  | _ => [ECaller; ENow]
  end.

(** The record a call that is not skipped hands to the writers. *)
Definition record_of (fmt_Sprintf : string -> list any -> string) (clock : nat -> Time)
    (callsite : option (string * Z)) (c : Call) (w : World) : LogRecord :=
  let now := clock (w_ticks w) in
  let src := source_text callsite in
  match c with
  | CLog lvl source message => mkRecord lvl now source message false []
  | CLogf lvl format args =>
    mkRecord lvl now src
      (if 0 <? Z.of_nat (length args) then fmt_Sprintf format args else format) false []
  | CFinestf format args | CFinef format args | CDebugf format args
  | CTracef format args | CInfof format args =>
    mkRecord (severity c) now src
      (if 0 <? Z.of_nat (length args) then fmt_Sprintf format args else format) false []
  | CWarnf arg0 args | CErrorf arg0 args | CCriticalf arg0 args =>
    mkRecord (severity c) now src (fmt_Sprintf arg0 args) false []
  | CLogc lvl closure => mkRecord lvl now src (closure tt) false []
  | CDebug message fields | CInfo message fields | CWarn message fields
  | CError message fields =>
    mkRecord (severity c) now src message true fields
  end.

(** The entries as the first and as the second [range] loop of a call
    started in [w] visit them. *)
Definition first_pass (iteration : nat -> list (string * Filter) -> list (string * Filter))
    (log : Logger) (w : World) : list (string * Filter) :=
  iteration (w_ranges w) (map_to_list log).

Definition second_pass (iteration : nat -> list (string * Filter) -> list (string * Filter))
    (log : Logger) (w : World) : list (string * Filter) :=
  iteration (S (w_ranges w)) (map_to_list log).

(** The classification the specification gives for [Any]: an integer of
    one of the seven listed types becomes an integer field holding the
    value, text a text field holding it, anything else a fallback field
    holding it. *)
Definition Any_as_specified (key : string) (value : any) (f : Field) : Prop :=
  f_Key f = key /\
  match value with
  | AInt v | AInt8 v | AUint8 v | AInt32 v | AUint32 v | AInt64 v | AUint64 v =>
    f_Type f = IntType /\ f_Integer f = v
  | AString s => f_Type f = StringType /\ f_String f = s
  | _ => f_Type f = InterfaceType /\ f_Interface f = value
  end.

(** What an [int64] slot holds after a [uint64] has been converted into
    it. *)
Definition int64_of_uint64 (v : Z) : Z := if v <? 2 ^ 63 then v else v - 2 ^ 64.

(** The property the specification asks of a skipped call, and of the
    records the writers of one call receive. *)
Definition skip_fast (t : list Effect) : Prop :=
  count is_format t = 0%nat /\ count is_closure t = 0%nat /\ count is_caller t = 0%nat.

Definition same_instance (t : list Effect) : Prop :=
  forall p q, p ∈ written t -> q ∈ written t -> p = q.

(** ** A concrete environment, for the examples

    [fmt.Sprintf] through the fragment modelled above, a clock that
    advances by a second per reading, and a [range] order that changes
    from one loop to the next. *)
Definition demo_Sprintf (format : string) (args : list any) : string :=
  match Sprintf (fun _ => []) (bytes_of format) args with
  | Some out => string_of_list_ascii out
  | None => format
  end.

Definition demo_clock (n : nat) : Time := mkTime 2024 3 7 9 5 (Z.of_nat n) 0.

Definition demo_iteration (n : nat) (l : list (string * Filter)) : list (string * Filter) :=
  if Nat.even n then l else reverse l.

Definition demo_world : World := mkWorld 0 0 [].

(** Scenario C: one binding at warning, one at error. *)
Definition demo_log : Logger :=
  AddFilter "file" Level.ERROR 1 (AddFilter "out" Level.WARNING 0 ∅).

(** One binding, at error. *)
Definition quiet_log : Logger := AddFilter "out" Level.ERROR 0 ∅.

(** One binding, at debug, for a writer in JSON mode. *)
Definition json_log : Logger := AddFilter "json" Level.DEBUG 2 ∅.

(** The record of Scenario D, and a record with one integer field. *)
Definition scenario_D_record : LogRecord :=
  mkRecord Level.INFO (demo_clock 0) "main.go:12" "start" true
    [field.Int32 "port" 8080; field.Bool "ok" true].

Definition one_field_record : LogRecord :=
  mkRecord Level.INFO (demo_clock 0) "main.go:12" "m" true [field.Int32 "k" 1].

(** A record with one uint8 field, of value 200. *)
Definition uint8_record : LogRecord :=
  mkRecord Level.INFO (demo_clock 0) "main.go:12" "start" true [field.Uint8 "u" 200].

(** ** Properties of the escaped text, for the theorems on [safeAddString] *)

(** A byte [safeAddString] copies unchanged in its first branch. *)
Definition plain_byte (b : ascii) : Prop :=
  0x20 <= byte_val b < 0x80 /\ b <> backslash /\ b <> dquote.

(** Valid UTF-8: ASCII bytes and well-formed multi-byte sequences. *)
Inductive ValidUTF8 : list ascii -> Prop :=
| Valid_nil : ValidUTF8 []
| Valid_ascii b rest : byte_val b < 0x80 -> ValidUTF8 rest -> ValidUTF8 (b :: rest)
| Valid_multi w rest : WellFormed w -> ValidUTF8 rest -> ValidUTF8 (w ++ rest).

Definition is_hex (b : ascii) : bool :=
  let v := byte_val b in
  ((48 <=? v) && (v <=? 57)) || ((65 <=? v) && (v <=? 70)) || ((97 <=? v) && (v <=? 102)).

(** The characters of a JSON string between its quotes (RFC 8259,
    section 7): any byte from 0x20 on other than the quote and the
    backslash, or a backslash followed by one of the two-character escapes
    or by u and four hex digits. *)
Fixpoint json_string_body (out : list ascii) : bool :=
  match out with
  | [] => true
  | b :: rest =>
    if decide (b = backslash) then
      match rest with
      | [] => false
      | e :: rest' =>
        if bool_decide (e ∈ [dquote; backslash; "/"; "b"; "f"; "n"; "r"; "t"]%char)
        then json_string_body rest'
        else if decide (e = "u"%char) then
          match rest' with
          | h1 :: h2 :: h3 :: h4 :: rest'' =>
            is_hex h1 && is_hex h2 && is_hex h3 && is_hex h4 && json_string_body rest''
          | _ => false
          end
        else false
      end
    else if decide (b = dquote) then false
    else (0x20 <=? byte_val b) && json_string_body rest
  end.

Definition hex_val (b : ascii) : Z :=
  let v := byte_val b in
  if v <=? 57 then v - 48 else if v <=? 70 then v - 55 else v - 87.

(** Reading the escapes back: the inverse of the escaping on the escapes
    [safeAddString] writes for the bytes of valid UTF-8. *)
Fixpoint unescape (out : list ascii) : list ascii :=
  match out with
  | [] => []
  | b :: rest =>
    if decide (b = backslash) then
      match rest with
      | [] => []
      | e :: rest' =>
        if decide (e = "n"%char) then newline :: unescape rest'
        else if decide (e = "r"%char) then creturn :: unescape rest'
        else if decide (e = "t"%char) then tab :: unescape rest'
        else if decide (e = "u"%char) then
          match rest' with
          | _ :: _ :: h1 :: h2 :: rest'' =>
            byte_of_val (16 * hex_val h1 + hex_val h2) :: unescape rest''
          | _ => []
          end
        else e :: unescape rest'
      end
    else b :: unescape rest
  end.

(** What [AddTo] leaves in the buffer for a field. *)
Definition rendered (FormatFloat : Z -> Z -> list ascii)
    (AddInterface : string -> any -> jsonEncoder -> option jsonEncoder)
    (f : Field) (enc : jsonEncoder) : option (list ascii) :=
  buf <$> AddTo FormatFloat AddInterface f enc.

(** A byte that is not a control character. *)
Definition printable (b : ascii) : Prop := 0x20 <= byte_val b.


(** ** Dispatch: the effects of a call that is logged *)

Definition is_now (e : Effect) : bool :=
  match e with ENow => true | _ => false end.

(** How often a call that is logged formats its arguments: the entries
    that go through [intLogf] with the caller's arguments format when
    there is at least one argument; [Warnf], [Errorf] and [Criticalf]
    format on entry and hand [intLogf] no arguments; the others never
    format. *)
Definition format_count (c : Call) : nat :=
  match c with
  | CLogf _ _ args | CFinestf _ args | CFinef _ args | CDebugf _ args | CTracef _ args
  | CInfof _ args => if 0 <? Z.of_nat (length args) then 1 else 0
  | CWarnf _ _ | CErrorf _ _ | CCriticalf _ _ => 1
  | _ => 0
  end.

Definition closure_count (c : Call) : nat :=
  match c with CLogc _ _ => 1 | _ => 0 end.

Definition caller_count (c : Call) : nat :=
  match c with CLog _ _ _ => 0 | _ => 1 end.

(** ** Closing a logger ([log4go.go]) *)

(** The loop of [Close]: the writer of the entry is closed and the entry
    is deleted from the map the loop ranges over.  An entry is deleted
    only once the loop has reached it, so the loop still visits every
    entry of the map; [closed] lists the writers closed so far, each
    with the name it was bound to. *)
Fixpoint closeLoop (fs : list (string * Filter)) (log : Logger)
    (closed : list (string * nat)) : Logger * list (string * nat) :=
  match fs with
  | [] => (log, closed)
  | (name, filt) :: fs' =>
    closeLoop fs' (delete name log) (closed ++ [(name, filt_LogWriter filt)])
  end.

(** [func (log Logger) Close()]: the map after the call, the state, and
    the writers closed, in the order they were closed. *)
Definition Close (iteration : nat -> list (string * Filter) -> list (string * Filter))
    (log : Logger) (w : World) : Logger * World * list (string * nat) :=
  let '(fs, w1, _) := range iteration log w in
  let '(log1, closed) := closeLoop fs log [] in
  (log1, w1, closed).

(** ** The package-level functions ([wrapper.go])

    The functions of the package act on the package variable [Global].
    A run of one of them is given the value of [Global] and the state,
    and ends by returning, by panicking or by leaving the process. *)

(** [strings.Repeat(s, n)]. *)
Fixpoint Repeat (s : string) (n : nat) : string :=
  match n with
  | O => ""
  | S n' => s +:+ Repeat s n'
  end.

(** [s[1:]]: the string without its first byte; on the empty string the
    slice expression panics. *)
Definition slice_from_1 (s : string) : option string :=
  match s with
  | EmptyString => None
  | String _ rest => Some rest
  end.

(** What [panic] is called with: the arguments as they are, a text, or a
    run-time error. *)
Inductive PanicValue : Type :=
| PanicArgs (args : list any)
| PanicText (s : string)
| PanicRuntime.

Inductive Outcome : Type :=
| Returns
| Panics (v : PanicValue)
| Exits (code : Z).

(** What a run does to the outside: the effects of a dispatch, and the
    closing of a writer. *)
Inductive Event : Type :=
| Dispatched (e : Effect)
| Closed (name : string) (writer : nat).

Record Run : Type := mkRun {
  run_outcome : Outcome;
  run_Global : Logger;
  run_world : World;
  run_events : list Event
}.

(** [NewDefaultLogger(lvl)]: one binding, named stdout, at [lvl]; its
    writer is the console writer the call creates, [console] being its
    identity. *)
Definition NewDefaultLogger (console : nat) (lvl : Z) : Logger :=
  {["stdout" := mkFilter lvl console]}.

Module pkg.

Section Package.

Variable fmt_Sprintf : string -> list any -> string.
Variable clock : nat -> Time.
Variable callsite : option (string * Z).
Variable iteration : nat -> list (string * Filter) -> list (string * Filter).

(** [func init()]: [Global = NewDefaultLogger(DEBUG)]. *)
Definition init (console : nat) : Logger := NewDefaultLogger console Level.DEBUG.

(** A dispatch function of [Logger], run on [Global]. *)
Definition on_Global (m : M unit) (w : World) : World * list Event :=
  let '(_, w1, t) := m w in (w1, map Dispatched t).

(** [Global.Close()]. *)
Definition close_Global (G : Logger) (w : World) : Logger * World * list Event :=
  let '(G1, w1, closed) := Close iteration G w in
  (G1, w1, map (fun b : string * nat => Closed b.1 b.2) closed).

(** The call [Global.intLogf(lvl, strings.Repeat(" %v", len(args))[1:],
    args...)] behind the guard [len(args) > 0], shared by [Crash],
    [Exit], [Stderr] and [Stdout]. *)
Definition log_args (lvl : Z) (args : list any) (G : Logger) (w : World)
    : option (World * list Event) :=
  if 0 <? Z.of_nat (length args) then
    match slice_from_1 (Repeat " %v" (length args)) with
    | None => None
    | Some format =>
      Some (on_Global (intLogf fmt_Sprintf clock callsite iteration G lvl format args) w)
    end
  else Some (w, []).

Definition returning (G : Logger) (r : World * list Event) : Run :=
  mkRun Returns G r.1 r.2.

Definition Crash (args : list any) (G : Logger) (w : World) : Run :=
  match log_args Level.CRITICAL args G w with
  | None => mkRun (Panics PanicRuntime) G w []
  | Some (w1, t1) => mkRun (Panics (PanicArgs args)) G w1 t1
  end.

Definition Crashf (format : string) (args : list any) (G : Logger) (w : World) : Run :=
  let '(w1, t1) :=
    on_Global (intLogf fmt_Sprintf clock callsite iteration G Level.CRITICAL format args) w in
  let '(G2, w2, t2) := close_Global G w1 in
  let '(msg, w3, t3) := Sprintf_call fmt_Sprintf format args w2 in
  mkRun (Panics (PanicText msg)) G2 w3 (t1 ++ t2 ++ map Dispatched t3).

Definition Exit (args : list any) (G : Logger) (w : World) : Run :=
  match log_args Level.ERROR args G w with
  | None => mkRun (Panics PanicRuntime) G w []
  | Some (w1, t1) =>
    let '(G2, w2, t2) := close_Global G w1 in
    mkRun (Exits 0) G2 w2 (t1 ++ t2)
  end.

Definition Exitf (format : string) (args : list any) (G : Logger) (w : World) : Run :=
  let '(w1, t1) :=
    on_Global (intLogf fmt_Sprintf clock callsite iteration G Level.ERROR format args) w in
  let '(G2, w2, t2) := close_Global G w1 in
  mkRun (Exits 0) G2 w2 (t1 ++ t2).

Definition Stderr (args : list any) (G : Logger) (w : World) : Run :=
  match log_args Level.ERROR args G w with
  | None => mkRun (Panics PanicRuntime) G w []
  | Some r => returning G r
  end.

Definition Stdout (args : list any) (G : Logger) (w : World) : Run :=
  match log_args Level.INFO args G w with
  | None => mkRun (Panics PanicRuntime) G w []
  | Some r => returning G r
  end.

Definition Log (lvl : Z) (source message : string) (G : Logger) (w : World) : Run :=
  returning G (on_Global (Log clock iteration G lvl source message) w).

Definition Logf (lvl : Z) (format : string) (args : list any) (G : Logger) (w : World)
    : Run :=
  returning G (on_Global (intLogf fmt_Sprintf clock callsite iteration G lvl format args) w).

Definition Logc (lvl : Z) (closure : unit -> string) (G : Logger) (w : World) : Run :=
  returning G (on_Global (intLogc clock callsite iteration G lvl closure) w).

(** [Finestf] to [Criticalf]: every one of them hands its format and its
    arguments to [Global.intLogf] as they are. *)
Definition Finestf (arg0 : string) (args : list any) (G : Logger) (w : World) : Run :=
  returning G
    (on_Global (intLogf fmt_Sprintf clock callsite iteration G Level.FINEST arg0 args) w).

Definition Finef (arg0 : string) (args : list any) (G : Logger) (w : World) : Run :=
  returning G
    (on_Global (intLogf fmt_Sprintf clock callsite iteration G Level.FINE arg0 args) w).

Definition Debugf (arg0 : string) (args : list any) (G : Logger) (w : World) : Run :=
  returning G
    (on_Global (intLogf fmt_Sprintf clock callsite iteration G Level.DEBUG arg0 args) w).

Definition Tracef (arg0 : string) (args : list any) (G : Logger) (w : World) : Run :=
  returning G
    (on_Global (intLogf fmt_Sprintf clock callsite iteration G Level.TRACE arg0 args) w).

Definition Infof (arg0 : string) (args : list any) (G : Logger) (w : World) : Run :=
  returning G
    (on_Global (intLogf fmt_Sprintf clock callsite iteration G Level.INFO arg0 args) w).

Definition Warnf (arg0 : string) (args : list any) (G : Logger) (w : World) : Run :=
  returning G
    (on_Global (intLogf fmt_Sprintf clock callsite iteration G Level.WARNING arg0 args) w).

Definition Errorf (arg0 : string) (args : list any) (G : Logger) (w : World) : Run :=
  returning G
    (on_Global (intLogf fmt_Sprintf clock callsite iteration G Level.ERROR arg0 args) w).

Definition Criticalf (arg0 : string) (args : list any) (G : Logger) (w : World) : Run :=
  returning G
    (on_Global (intLogf fmt_Sprintf clock callsite iteration G Level.CRITICAL arg0 args) w).

Definition Debug (message : string) (fields : list Field) (G : Logger) (w : World)
    : Run :=
  returning G
    (on_Global (intLogJson clock callsite iteration G Level.DEBUG message fields) w).

Definition Info (message : string) (fields : list Field) (G : Logger) (w : World)
    : Run :=
  returning G
    (on_Global (intLogJson clock callsite iteration G Level.INFO message fields) w).

Definition Warn (message : string) (fields : list Field) (G : Logger) (w : World)
    : Run :=
  returning G
    (on_Global (intLogJson clock callsite iteration G Level.WARNING message fields) w).

Definition Error (message : string) (fields : list Field) (G : Logger) (w : World)
    : Run :=
  returning G
    (on_Global (intLogJson clock callsite iteration G Level.ERROR message fields) w).

(** The package-level entry with the name of a method of [Logger]. *)
Definition dispatch (c : Call) (G : Logger) (w : World) : Run :=
  match c with
  | CLog lvl source message => Log lvl source message G w
  | CLogf lvl format args => Logf lvl format args G w
  | CLogc lvl closure => Logc lvl closure G w
  | CFinestf arg0 args => Finestf arg0 args G w
  | CFinef arg0 args => Finef arg0 args G w
  | CDebugf arg0 args => Debugf arg0 args G w
  | CTracef arg0 args => Tracef arg0 args G w
  | CInfof arg0 args => Infof arg0 args G w
  | CWarnf arg0 args => Warnf arg0 args G w
  | CErrorf arg0 args => Errorf arg0 args G w
  | CCriticalf arg0 args => Criticalf arg0 args G w
  | CDebug message fields => Debug message fields G w
  | CInfo message fields => Info message fields G w
  | CWarn message fields => Warn message fields G w
  | CError message fields => Error message fields G w
  end.

End Package.

End pkg.

(** The method of [Logger] a package-level entry calls on [Global]:
    the entry of the same name, except that the package-level [Warnf],
    [Errorf] and [Criticalf] call [intLogf] with the format and the
    arguments as they are, as [Logf] does. *)
Definition method_called (c : Call) : Call :=
  match c with
  | CWarnf arg0 args => CLogf Level.WARNING arg0 args
  | CErrorf arg0 args => CLogf Level.ERROR arg0 args
  | CCriticalf arg0 args => CLogf Level.CRITICAL arg0 args
  | _ => c
  end.

(** The closings among the events of a run. *)
Definition closings (t : list Event) : list (string * nat) :=
  omap (fun e => match e with Closed n w => Some (n, w) | _ => None end) t.

(** The arguments of a call, each rendered by [%v], with single spaces
    between them. *)
Definition spaced (fmtV : any -> list ascii) (args : list any) : list ascii :=
  match args with
  | [] => []
  | a :: rest => fmtV a ++ concat (map (fun x => " "%char :: fmtV x) rest)
  end.

(** ** The pool of records ([log4go.go])

    [LogRecordPool] is a [sync.Pool] of pointers to records.  Here it is
    the list of the pointers it holds.  [Get] may hand out any of them,
    or ignore them and call [New]; which, is left to [pick], the index of
    the pointer handed out. *)

(** [time.Time{}]: the zero time, January 1 of the year 1, 00:00:00. *)
Definition zero_Time : Time := mkTime 1 1 1 0 0 0 0.

(** The record [newLogRecord] allocates, [&LogRecord{}]. *)
Definition zero_LogRecord : LogRecord := mkRecord 0 zero_Time "" "" false [].

Definition newLogRecord : M nat := alloc zero_LogRecord.

(** An assignment to one field of the record a pointer leads to. *)
Definition set_Level (lv : Z) (r : LogRecord) : LogRecord :=
  mkRecord lv (rec_Created r) (rec_Source r) (rec_Message r) (rec_Json r) (rec_Fields r).

Definition set_Created (t : Time) (r : LogRecord) : LogRecord :=
  mkRecord (rec_Level r) t (rec_Source r) (rec_Message r) (rec_Json r) (rec_Fields r).

Definition set_Source (s : string) (r : LogRecord) : LogRecord :=
  mkRecord (rec_Level r) (rec_Created r) s (rec_Message r) (rec_Json r) (rec_Fields r).

Definition set_Message (s : string) (r : LogRecord) : LogRecord :=
  mkRecord (rec_Level r) (rec_Created r) (rec_Source r) s (rec_Json r) (rec_Fields r).

Definition set_Json (b : bool) (r : LogRecord) : LogRecord :=
  mkRecord (rec_Level r) (rec_Created r) (rec_Source r) (rec_Message r) b (rec_Fields r).

Definition set_Fields (fs : list Field) (r : LogRecord) : LogRecord :=
  mkRecord (rec_Level r) (rec_Created r) (rec_Source r) (rec_Message r) (rec_Json r) fs.

Definition assign (rec : nat) (f : LogRecord -> LogRecord) : M unit :=
  fun w => (tt, mkWorld (w_ticks w) (w_ranges w) (alter f rec (w_heap w)), []).

Section Pool.

Variable clock : nat -> Time.
Variable pick : list nat -> option nat.

(** [LogRecordPool.Get()]: the pointer handed out and the pool without
    it, or a record from [New] and the pool as it was. *)
Definition Pool_Get (pool : list nat) : M (nat * list nat) :=
  match pick pool with
  | Some i =>
    match pool !! i with
    | Some rec => ret (rec, delete i pool)
    | None => let* rec := newLogRecord in ret (rec, pool)
    end
  | None => let* rec := newLogRecord in ret (rec, pool)
  end.

Definition GetLogRecord (lv : Z) (score message : string) (json : bool)
    (field : list Field) (pool : list nat) : M (nat * list nat) :=
  let* got := Pool_Get pool in
  let rec := got.1 in
  let* _ := assign rec (set_Level lv) in
  let* now := Now clock in
  let* _ := assign rec (set_Created now) in
  let* _ := assign rec (set_Source score) in
  let* _ := assign rec (set_Message message) in
  let* _ := assign rec (set_Json json) in
  let* _ := assign rec (set_Fields field) in
  ret got.

(** [PutLogRecord]: every field is reset, then the pointer goes to the
    pool. *)
Definition PutLogRecord (rec : nat) (pool : list nat) : M (list nat) :=
  let* _ := assign rec (set_Level Level.FINEST) in
  let* _ := assign rec (set_Created zero_Time) in
  let* _ := assign rec (set_Source "") in
  let* _ := assign rec (set_Message "") in
  let* _ := assign rec (set_Json false) in
  let* _ := assign rec (set_Fields []) in
  ret (pool ++ [rec]).

End Pool.

(** ** Fields as the caller built them

    [Holds f key value]: the field [f] is what a constructor of the
    package returns for the key [key] and a value of its type, and
    [value] is the JSON text of that value: the decimal numeral of an
    integer, true or false, the text of a float as [strconv] gives it,
    an escaped text between quotes. *)
Inductive Holds (FormatFloat : Z -> Z -> list ascii) : Field -> string -> list ascii -> Prop :=
| Holds_Bool key b : Holds FormatFloat (field.Bool key b) key (FormatBool b)
| Holds_Int key v :
    - 2 ^ 63 <= v < 2 ^ 63 -> Holds FormatFloat (field.Int key v) key (FormatInt v)
| Holds_Int8 key v :
    - 2 ^ 7 <= v < 2 ^ 7 -> Holds FormatFloat (field.Int8 key v) key (FormatInt v)
| Holds_Int32 key v :
    - 2 ^ 31 <= v < 2 ^ 31 -> Holds FormatFloat (field.Int32 key v) key (FormatInt v)
| Holds_Int64 key v :
    - 2 ^ 63 <= v < 2 ^ 63 -> Holds FormatFloat (field.Int64 key v) key (FormatInt v)
| Holds_Uint8 key v :
    0 <= v < 2 ^ 8 -> Holds FormatFloat (field.Uint8 key v) key (FormatUint v)
| Holds_Uint32 key v :
    0 <= v < 2 ^ 32 -> Holds FormatFloat (field.Uint32 key v) key (FormatUint v)
| Holds_Uint64 key v :
    0 <= v < 2 ^ 64 -> Holds FormatFloat (field.Uint64 key v) key (FormatUint v)
| Holds_Float32 key bits :
    Holds FormatFloat (field.Float32 key bits) key (FormatFloat 32 bits)
| Holds_Float64 key bits :
    Holds FormatFloat (field.Float64 key bits) key (FormatFloat 64 bits)
| Holds_String key s : Holds FormatFloat (field.String key s) key (quoted_escaped s)
| Holds_Err_nil : Holds FormatFloat (field.Err None) "error" (quoted_escaped "nil")
| Holds_Err msg : Holds FormatFloat (field.Err (Some msg)) "error" (quoted_escaped msg).

(** A state whose heap holds one used record. *)
Definition stale_world : World :=
  mkWorld 5 0 [mkRecord Level.ERROR (demo_clock 1) "old.go:1" "old" true
                 [field.Int32 "port" 8080]].


(** ** Theorems *)

Lemma Level_String_defined (l : Z) :
  0 <= l <= 7 ->
  Level.String l = Level.levelStrings !! Z.to_nat l /\ is_Some (Level.String l).
Proof.
  intros Hl. unfold Level.String.
  assert (Hg : (l <? 0) || (Z.of_nat (length Level.levelStrings) <? l) = false).
  { apply orb_false_iff. split; apply Z.ltb_ge; simpl; lia. }
  rewrite Hg. split; [reflexivity|].
  apply lookup_lt_is_Some. simpl. lia.
Qed.

Lemma Level_String_unknown (l : Z) :
  l < 0 \/ 8 < l -> Level.String l = Some "UNKNOWN".
Proof.
  intros Hl. unfold Level.String.
  assert (Hg : (l <? 0) || (Z.of_nat (length Level.levelStrings) <? l) = true).
  { apply orb_true_iff. simpl. destruct Hl; [left|right]; apply Z.ltb_lt; lia. }
  now rewrite Hg.
Qed.

(** C7 (failing input).  Rank 8 is out of range, yet the guard of
    [Level.String] lets it through and the table is indexed at 8, one
    past its last element: the call panics instead of returning
    "UNKNOWN". *)
Theorem Level_String_rank8_panics : Level.String 8 = None.
Proof. reflexivity. Qed.

(** *** Integer conversions *)

Lemma wrap_signed_64_id (v : Z) : - 2 ^ 63 <= v < 2 ^ 63 -> wrap_signed 64 v = v.
Proof.
  intros Hv. unfold wrap_signed.
  change (2 ^ (64 - 1)) with 9223372036854775808 in *.
  change (2 ^ 64) with 18446744073709551616.
  change (2 ^ 63) with 9223372036854775808 in Hv.
  rewrite Z.mod_small; lia.
Qed.

Lemma wrap_signed_64_uint64 (v : Z) :
  0 <= v < 2 ^ 64 -> wrap_signed 64 v = int64_of_uint64 v.
Proof.
  intros Hv. unfold wrap_signed, int64_of_uint64.
  change (2 ^ (64 - 1)) with 9223372036854775808 in *.
  change (2 ^ 64) with 18446744073709551616 in *.
  change (2 ^ 63) with 9223372036854775808 in *.
  destruct (Z.ltb_spec v 9223372036854775808).
  - rewrite Z.mod_small; lia.
  - replace (v + 9223372036854775808)
      with (v - 9223372036854775808 + 1 * 18446744073709551616) by lia.
    rewrite Z.mod_add by lia. rewrite Z.mod_small; lia.
Qed.

Lemma wrap_unsigned_64_int64_of_uint64 (v : Z) :
  0 <= v < 2 ^ 64 -> wrap_unsigned 64 (int64_of_uint64 v) = v.
Proof.
  intros Hv. unfold wrap_unsigned, int64_of_uint64.
  change (2 ^ 64) with 18446744073709551616 in *.
  change (2 ^ 63) with 9223372036854775808 in *.
  destruct (Z.ltb_spec v 9223372036854775808).
  - rewrite Z.mod_small; lia.
  - replace (v - 18446744073709551616) with (v + (-1) * 18446744073709551616) by lia.
    rewrite Z.mod_add by lia. rewrite Z.mod_small; lia.
Qed.

(** *** The field constructors *)

(** C8 (as amended).  [Any] keeps the key; a value of one of the integer
    types int, int8, uint8, int32, uint32, int64 becomes an [IntType]
    field holding that value; a uint64 becomes an [IntType] field holding
    the value converted to int64, which is the value itself only up to
    2^63 - 1; text becomes a [StringType] field holding the text; every
    other dynamic value (booleans, floats, nil, the integer types that
    are not listed, anything else) becomes an [InterfaceType] field
    holding the value. *)
Theorem Any_classifies (key : string) (value : any) :
  any_wf value ->
  field.Any key value =
  match value with
  | AInt v | AInt8 v | AUint8 v | AInt32 v | AUint32 v | AInt64 v =>
    mkField key IntType v "" ANil
  | AUint64 v => mkField key IntType (int64_of_uint64 v) "" ANil
  | AString s => mkField key StringType 0 s ANil
  | _ => mkField key InterfaceType 0 "" value
  end.
Proof.
  intros Hwf.
  destruct value; simpl in *; try reflexivity;
    try (rewrite wrap_signed_64_id by lia; reflexivity).
  now rewrite wrap_signed_64_uint64.
Qed.

Lemma Any_classifies_witness :
  any_wf (AUint64 (2 ^ 64 - 1)) /\
  field.Any "n" (AUint64 (2 ^ 64 - 1)) = mkField "n" IntType (-1) "" ANil.
Proof.
  assert (Hwf : any_wf (AUint64 (2 ^ 64 - 1))) by (simpl; lia).
  split; [exact Hwf|].
  exact (Any_classifies "n" (AUint64 (2 ^ 64 - 1)) Hwf).
Defined.

(** C8 (counterexample).  The uint64 value 2^64 - 1 is a supported
    unsigned integer, yet the field [Any] builds for it holds -1. *)
Lemma Any_uint64_not_held :
  any_wf (AUint64 (2 ^ 64 - 1)) /\
  ~ Any_as_specified "n" (AUint64 (2 ^ 64 - 1)) (field.Any "n" (AUint64 (2 ^ 64 - 1))).
Proof.
  split; [simpl; lia|].
  intros [_ [_ H]]. vm_compute in H. discriminate.
Qed.

(** The numeral [FormatInt] and [FormatUint] write is the decimal
    numeral of the value: read as a decimal number it is the value. *)
Lemma to_int_proper (v : Z) :
  Z.to_int v <> Decimal.Pos Decimal.Nil /\ Z.to_int v <> Decimal.Neg Decimal.Nil.
Proof.
  destruct v as [|p|p]; simpl; split; try discriminate;
    intros H; injection H as H; now apply (Unsigned.to_uint_nonnil p).
Qed.

Lemma FormatUint_reads_back (v : Z) :
  Z.of_int <$> NilZero.int_of_string (string_of_list_ascii (FormatUint v)) = Some v.
Proof.
  unfold FormatUint, bytes_of. rewrite string_of_list_ascii_of_string.
  destruct (to_int_proper v) as [H1 H2].
  rewrite NilZero.isi by assumption. simpl. now rewrite DecimalZ.of_to.
Qed.

(** C10.  For every uint64 value [v], also above 2^63 - 1, rendering the
    field built by [Uint64] is the call of [AddUint64] with [v] itself:
    after the key it appends exactly the decimal numeral of [v], a
    numeral that reads back as [v].  The conversion to int64 in the
    constructor is undone by the conversion back to uint64 in [AddTo]. *)
Theorem Uint64_renders_original (FormatFloat : Z -> Z -> list ascii)
    (AddInterface : string -> any -> jsonEncoder -> option jsonEncoder)
    (key : string) (v : Z) (enc : jsonEncoder) :
  0 <= v < 2 ^ 64 ->
  AddTo FormatFloat AddInterface (field.Uint64 key v) enc
  = Some (AddUint64 key v enc)
  /\ buf (AddUint64 key v enc) = buf (addKey key enc) ++ FormatUint v
  /\ Z.of_int <$> NilZero.int_of_string (string_of_list_ascii (FormatUint v)) = Some v.
Proof.
  intros Hv. split; [|split; [reflexivity|apply FormatUint_reads_back]].
  unfold AddTo, field.Uint64. simpl.
  rewrite wrap_signed_64_uint64 by exact Hv.
  now rewrite wrap_unsigned_64_int64_of_uint64.
Qed.

Lemma Uint64_renders_original_witness :
  0 <= 2 ^ 64 - 1 < 2 ^ 64 /\
  buf <$> AddTo (fun _ _ => []) (fun _ _ _ => None) (field.Uint64 "n" (2 ^ 64 - 1))
            newJsonEncoder
  = Some (bytes_of "," ++ [dquote] ++ bytes_of "n" ++ [dquote]
          ++ bytes_of ": 18446744073709551615").
Proof.
  assert (Hv : 0 <= 2 ^ 64 - 1 < 2 ^ 64) by lia.
  split; [exact Hv|].
  destruct (Uint64_renders_original (fun _ _ => []) (fun _ _ _ => None)
              "n" (2 ^ 64 - 1) newJsonEncoder Hv) as (H1 & _ & _).
  rewrite H1. vm_compute. reflexivity.
Defined.

(** *** The UTF-8 decoder *)

Lemma byte_val_range (b : ascii) : 0 <= byte_val b < 256.
Proof.
  unfold byte_val. pose proof (N_ascii_bounded b). lia.
Qed.

Lemma byte_val_inj (b c : ascii) : byte_val b = byte_val c -> b = c.
Proof.
  unfold byte_val. intros H. apply N2Z.inj in H.
  rewrite <- (ascii_N_embedding b), <- (ascii_N_embedding c). now rewrite H.
Qed.

Lemma first_lookup (v : Z) :
  0 <= v < 256 -> utf8.first !! Z.to_nat v = Some (first_class v).
Proof.
  intros Hv.
  assert (Hall : forallb (fun n => bool_decide (utf8.first !! n = Some (first_class (Z.of_nat n))))
                   (seq 0 256) = true) by (vm_compute; reflexivity).
  rewrite forallb_forall in Hall.
  assert (Hin : In (Z.to_nat v) (seq 0 256)) by (apply in_seq; lia).
  specialize (Hall _ Hin). apply bool_decide_eq_true in Hall.
  now rewrite Z2Nat.id in Hall by lia.
Qed.

Lemma first_class_cases (v : Z) :
  0x80 <= v < 256 ->
  (first_class v = utf8.xx /\ (v < 0xC2 \/ 0xF5 <= v))
  \/ (first_class v = utf8.s1 /\ 0xC2 <= v <= 0xDF)
  \/ (first_class v = utf8.s2 /\ v = 0xE0)
  \/ (first_class v = utf8.s3 /\ (0xE1 <= v <= 0xEC \/ 0xEE <= v <= 0xEF))
  \/ (first_class v = utf8.s4 /\ v = 0xED)
  \/ (first_class v = utf8.s5 /\ v = 0xF0)
  \/ (first_class v = utf8.s6 /\ 0xF1 <= v <= 0xF3)
  \/ (first_class v = utf8.s7 /\ v = 0xF4).
Proof.
  intros Hv. unfold first_class.
  repeat match goal with
  | |- context [?a <? ?b] => destruct (Z.ltb_spec a b)
  | |- context [?a =? ?b] => destruct (Z.eqb_spec a b)
  end; try lia; intuition lia.
Qed.

Ltac bool_hyps :=
  repeat match goal with
  | H : (_ || _) = false |- _ => apply orb_false_iff in H as [? ?]
  | H : (_ || _) = true |- _ => apply orb_true_iff in H as [H|H]
  | H : (_ <? _) = true |- _ => apply Z.ltb_lt in H
  | H : (_ <? _) = false |- _ => apply Z.ltb_ge in H
  | H : (_ <=? _) = true |- _ => apply Z.leb_le in H
  | H : (_ <=? _) = false |- _ => apply Z.leb_gt in H
  end.

Ltac step H :=
  lazymatch type of H with
  | (if ?c then _ else _) = _ => let E := fresh "E" in destruct c eqn:E; bool_hyps
  end.

Ltac class_norm H x sz lo hi :=
  change (utf8.as_ <=? x) with false in H;
  change (Z.land x 7) with sz in H;
  change (default (0, 0) (utf8.acceptRanges !! Z.to_nat (Z.shiftr x 4))) with (lo, hi) in H;
  cbn [fst snd] in H;
  cbv [utf8.locb utf8.hicb] in H.

Ltac no_prefix :=
  let w := fresh "w" in let t := fresh "t" in
  let Heq := fresh "Heq" in let Hwf := fresh "Hwf" in
  intros w t Heq Hwf; inversion Hwf; subst w; simpl in Heq;
  try discriminate Heq; simplify_eq; simpl length in *; lia.

Ltac decode_leaf H :=
  injection H as <- <-;
  first
    [ left; split; [reflexivity|split; [reflexivity|no_prefix]]
    | right; split; [lia|split; [simpl; lia|simpl; solve [constructor; lia]]] ].

Ltac decode_run H :=
  repeat (step H; simpl length in *; try (exfalso; lia));
  decode_leaf H.

Lemma DecodeRune_cases (b0 : ascii) (rest : list ascii) (r size : Z) :
  0x80 <= byte_val b0 ->
  utf8.DecodeRuneInString (b0 :: rest) = (r, size) ->
  (r = utf8.RuneError /\ size = 1 /\
   forall w t, b0 :: rest = w ++ t -> ~ WellFormed w)
  \/ (2 <= size /\ (Z.to_nat size <= length (b0 :: rest))%nat /\
      WellFormed (take (Z.to_nat size) (b0 :: rest))).
Proof.
  intros H0 Hdec. pose proof (byte_val_range b0) as R0.
  unfold utf8.DecodeRuneInString in Hdec. cbv zeta in Hdec.
  change (utf8.at_ (b0 :: rest) 0) with (byte_val b0) in Hdec.
  rewrite first_lookup in Hdec by exact R0. cbn [default from_option id] in Hdec.
  step Hdec; [simpl length in *; lia|].
  assert (Hshape : rest = [] \/ (exists b1, rest = [b1]) \/ (exists b1 b2, rest = [b1; b2])
                   \/ (exists b1 b2 b3 rest', rest = b1 :: b2 :: b3 :: rest')).
  { destruct rest as [|b1 [|b2 [|b3 rest']]]; eauto 10. }
  destruct (first_class_cases (byte_val b0) ltac:(lia)) as
    [[Hx Hc]|[[Hx Hc]|[[Hx Hc]|[[Hx Hc]|[[Hx Hc]|[[Hx Hc]|[[Hx Hc]|[Hx Hc]]]]]]]];
    rewrite Hx in Hdec; clear Hx.
  - change (utf8.as_ <=? utf8.xx) with true in Hdec. cbv iota in Hdec.
    change (Z.shiftr (wrap_signed 32 (Z.shiftl utf8.xx 31)) 31) with (-1) in Hdec.
    change (Z.lnot (-1)) with 0 in Hdec.
    rewrite Z.land_0_r, Z.land_m1_r, Z.lor_0_l in Hdec.
    decode_leaf Hdec.
  - class_norm Hdec utf8.s1 2 0x80 0xBF.
    destruct Hshape as [->|[[b1 ->]|[(b1 & b2 & ->)|(b1 & b2 & b3 & rest' & ->)]]];
      cbn [utf8.at_ lookup list_lookup] in Hdec; decode_run Hdec.
  - class_norm Hdec utf8.s2 3 0xA0 0xBF.
    destruct Hshape as [->|[[b1 ->]|[(b1 & b2 & ->)|(b1 & b2 & b3 & rest' & ->)]]];
      cbn [utf8.at_ lookup list_lookup] in Hdec; decode_run Hdec.
  - class_norm Hdec utf8.s3 3 0x80 0xBF.
    destruct Hshape as [->|[[b1 ->]|[(b1 & b2 & ->)|(b1 & b2 & b3 & rest' & ->)]]];
      cbn [utf8.at_ lookup list_lookup] in Hdec; decode_run Hdec.
  - class_norm Hdec utf8.s4 3 0x80 0x9F.
    destruct Hshape as [->|[[b1 ->]|[(b1 & b2 & ->)|(b1 & b2 & b3 & rest' & ->)]]];
      cbn [utf8.at_ lookup list_lookup] in Hdec; decode_run Hdec.
  - class_norm Hdec utf8.s5 4 0x90 0xBF.
    destruct Hshape as [->|[[b1 ->]|[(b1 & b2 & ->)|(b1 & b2 & b3 & rest' & ->)]]];
      cbn [utf8.at_ lookup list_lookup] in Hdec; decode_run Hdec.
  - class_norm Hdec utf8.s6 4 0x80 0xBF.
    destruct Hshape as [->|[[b1 ->]|[(b1 & b2 & ->)|(b1 & b2 & b3 & rest' & ->)]]];
      cbn [utf8.at_ lookup list_lookup] in Hdec; decode_run Hdec.
  - class_norm Hdec utf8.s7 4 0x80 0x8F.
    destruct Hshape as [->|[[b1 ->]|[(b1 & b2 & ->)|(b1 & b2 & b3 & rest' & ->)]]];
      cbn [utf8.at_ lookup list_lookup] in Hdec; decode_run Hdec.
Qed.


(** *** Escaping *)

Lemma Hex_at_digit (n : Z) : 0 <= n < 16 -> Hex_at n = hex_digit n.
Proof.
  intros Hn.
  assert (Hall : forallb (fun k => bool_decide (Hex_at (Z.of_nat k) = hex_digit (Z.of_nat k)))
                   (seq 0 16) = true) by (vm_compute; reflexivity).
  rewrite forallb_forall in Hall.
  assert (Hin : In (Z.to_nat n) (seq 0 16)) by (apply in_seq; lia).
  specialize (Hall _ Hin). apply bool_decide_eq_true in Hall.
  now rewrite Z2Nat.id in Hall by lia.
Qed.

Lemma appendBytes_nil (enc : jsonEncoder) : appendBytes [] enc = enc.
Proof. destruct enc. unfold appendBytes. simpl. now rewrite app_nil_r. Qed.

Lemma appendBytes_appendBytes (o1 o2 : list ascii) (enc : jsonEncoder) :
  appendBytes o2 (appendBytes o1 enc) = appendBytes (o1 ++ o2) enc.
Proof. unfold appendBytes. simpl. now rewrite app_assoc. Qed.

Lemma appendByte_appendBytes (b : ascii) (enc : jsonEncoder) :
  appendByte b enc = appendBytes [b] enc.
Proof. reflexivity. Qed.

Lemma tryAddRuneSelf_cases (b : ascii) (enc : jsonEncoder) :
  (0x80 <= byte_val b /\ tryAddRuneSelf b enc = (false, enc))
  \/ (byte_val b < 0x80 /\
      exists o, tryAddRuneSelf b enc = (true, appendBytes o enc) /\
                forall rest out, Escaped rest out -> Escaped (b :: rest) (o ++ out)).
Proof.
  pose proof (byte_val_range b) as Rb.
  unfold tryAddRuneSelf. cbv zeta.
  destruct (Z.leb_spec utf8.RuneSelf (byte_val b)) as [Hs|Hs];
    unfold utf8.RuneSelf in Hs; [left; split; [lia|reflexivity]|].
  right. split; [lia|].
  rewrite !appendByte_appendBytes, !appendBytes_appendBytes.
  destruct (Z.eqb_spec (byte_val b) (byte_val backslash)) as [Hb|Hb].
  { apply byte_val_inj in Hb as ->. rewrite andb_false_r. simpl.
    eexists; split; [reflexivity|]. intros. now apply Esc_backslash. }
  destruct (Z.eqb_spec (byte_val b) (byte_val dquote)) as [Hq|Hq].
  { apply byte_val_inj in Hq as ->. simpl.
    eexists; split; [reflexivity|]. intros. now apply Esc_quote. }
  destruct (Z.leb_spec 0x20 (byte_val b)) as [Hp|Hp].
  { simpl. eexists; split; [reflexivity|]. intros. apply Esc_plain; auto; congruence. }
  simpl.
  destruct (Z.eqb_spec (byte_val b) (byte_val newline)) as [Hn|Hn].
  { apply byte_val_inj in Hn as ->.
    eexists; split; [reflexivity|]. intros. now apply Esc_newline. }
  destruct (Z.eqb_spec (byte_val b) (byte_val creturn)) as [Hr|Hr].
  { apply byte_val_inj in Hr as ->.
    eexists; split; [reflexivity|]. intros. now apply Esc_return. }
  destruct (Z.eqb_spec (byte_val b) (byte_val tab)) as [Ht|Ht].
  { apply byte_val_inj in Ht as ->.
    eexists; split; [reflexivity|]. intros. now apply Esc_tab. }
  eexists; split; [reflexivity|]. intros rest out He.
  rewrite Z.shiftr_div_pow2 by lia.
  change 0xF with (Z.ones 4). rewrite Z.land_ones by lia.
  change (2 ^ 4) with 16.
  rewrite !Hex_at_digit.
  - apply (Esc_control b rest out); auto; congruence.
  - apply Z.mod_pos_bound. lia.
  - split; [apply Z.div_pos; lia|]. apply Z.div_lt_upper_bound; lia.
Qed.

Lemma tryAddRuneError_bad (enc : jsonEncoder) :
  tryAddRuneError utf8.RuneError 1 enc = (true, appendBytes replacement enc).
Proof. reflexivity. Qed.

Lemma tryAddRuneError_good (r size : Z) (enc : jsonEncoder) :
  2 <= size -> tryAddRuneError r size enc = (false, enc).
Proof.
  intros Hs. unfold tryAddRuneError.
  destruct (Z.eqb_spec size 1); [lia|]. now rewrite andb_false_r.
Qed.

Lemma tryAddRuneSelf_frame (b : ascii) (enc : jsonEncoder) :
  tryAddRuneSelf b enc
  = ((tryAddRuneSelf b newJsonEncoder).1,
     appendBytes (buf (tryAddRuneSelf b newJsonEncoder).2) enc).
Proof.
  unfold tryAddRuneSelf. cbv zeta.
  repeat match goal with
  | |- context [if ?c then _ else _] => destruct c
  end; simpl; rewrite ?appendByte_appendBytes, ?appendBytes_appendBytes, ?appendBytes_nil;
    reflexivity.
Qed.

Lemma tryAddRuneSelf_high (b : ascii) (enc : jsonEncoder) :
  0x80 <= byte_val b -> tryAddRuneSelf b enc = (false, enc).
Proof.
  intros Hb. destruct (tryAddRuneSelf_cases b enc) as [[_ H]|[H _]]; [exact H|lia].
Qed.

Lemma tryAddRuneSelf_low (b : ascii) :
  byte_val b < 0x80 ->
  exists o, (forall enc, tryAddRuneSelf b enc = (true, appendBytes o enc))
            /\ forall rest out, Escaped rest out -> Escaped (b :: rest) (o ++ out).
Proof.
  intros Hb.
  destruct (tryAddRuneSelf_cases b newJsonEncoder) as [[H _]|[_ (o & Hrun & Hesc)]]; [lia|].
  exists o. split; [|exact Hesc].
  intros enc. rewrite tryAddRuneSelf_frame, Hrun. reflexivity.
Qed.

Lemma safeAddString_loop_spec (fuel : nat) (s : list ascii) :
  forall i : nat,
    (length s - i <= fuel)%nat ->
    exists out, (forall enc, safeAddString_loop fuel s i enc = appendBytes out enc)
                /\ Escaped (drop i s) out.
Proof.
  induction fuel as [|fuel IH]; intros i Hfuel.
  - exists []. split; [intros enc; now rewrite appendBytes_nil|].
    rewrite drop_ge by lia. constructor.
  - destruct (s !! i) as [b|] eqn:Hb.
    2:{ exists []. split; [intros enc; simpl; rewrite Hb; now rewrite appendBytes_nil|].
        apply lookup_ge_None in Hb. rewrite drop_ge by lia. constructor. }
    pose proof (lookup_lt_Some _ _ _ Hb) as Hlt.
    rewrite (drop_S _ _ _ Hb).
    destruct (Z.le_gt_cases 0x80 (byte_val b)) as [Hhi|Hlo].
    + destruct (utf8.DecodeRuneInString (b :: drop (S i) s)) as [r size] eqn:Hdec.
      destruct (DecodeRune_cases _ _ _ _ Hhi Hdec) as [(-> & -> & Hnone)|(Hsz & Hlen & Hwf)].
      * destruct (IH (i + 1)%nat) as (out & Hrun & Hout); [lia|].
        exists (replacement ++ out). split.
        { intros enc. simpl. rewrite Hb, tryAddRuneSelf_high by exact Hhi.
          rewrite (drop_S _ _ _ Hb), Hdec, tryAddRuneError_bad, Hrun.
          apply appendBytes_appendBytes. }
        rewrite Nat.add_1_r in Hout. now apply Esc_invalid.
      * set (k := Z.to_nat size) in *.
        set (w := take k (b :: drop (S i) s)) in *.
        destruct (IH (i + k)%nat) as (out & Hrun & Hout); [lia|].
        exists (w ++ out). split.
        { intros enc. simpl. rewrite Hb, tryAddRuneSelf_high by exact Hhi.
          rewrite (drop_S _ _ _ Hb), Hdec, tryAddRuneError_good by exact Hsz.
          fold k. fold w. rewrite Hrun. apply appendBytes_appendBytes. }
        rewrite <- (take_drop k (b :: drop (S i) s)). fold w.
        apply Esc_multi; [exact Hwf|].
        rewrite <- (drop_S _ _ _ Hb), drop_drop. exact Hout.
    + destruct (tryAddRuneSelf_low b Hlo) as (o & Hself & Hesc).
      destruct (IH (i + 1)%nat) as (out & Hrun & Hout); [lia|].
      exists (o ++ out). split.
      { intros enc. simpl. rewrite Hb, Hself, Hrun. apply appendBytes_appendBytes. }
      rewrite Nat.add_1_r in Hout. now apply Hesc.
Qed.

(** The escaping relation determines the output: well-formed sequences
    are prefix-free and the cases of [Escaped] exclude one another. *)

Lemma WellFormed_first (w : list ascii) :
  WellFormed w -> exists b0 b1 t, w = b0 :: b1 :: t /\ 0xC2 <= byte_val b0 <= 0xF4.
Proof. intros H. destruct H; do 3 eexists; (split; [reflexivity|lia]). Qed.

Lemma WellFormed_prefix_unique (w w' t t' : list ascii) :
  WellFormed w -> WellFormed w' -> w ++ t = w' ++ t' -> w = w' /\ t = t'.
Proof.
  intros H H' Heq.
  destruct H; destruct H'; simpl in Heq; simplify_eq; try (exfalso; lia); auto.
Qed.

Ltac norm_bytes :=
  change (byte_val backslash) with 92 in *;
  change (byte_val dquote) with 34 in *;
  change (byte_val newline) with 10 in *;
  change (byte_val creturn) with 13 in *;
  change (byte_val tab) with 9 in *.

Ltac multi_head H :=
  match type of H with
  | ?w ++ _ = _ :: _ =>
    match goal with
    | Hw : WellFormed w |- _ =>
      destruct (WellFormed_first w Hw) as (? & ? & ? & -> & ?);
      simpl in H; simplify_eq; norm_bytes; exfalso; lia
    end
  end.

Lemma Escaped_functional (s o1 : list ascii) :
  Escaped s o1 -> forall o2, Escaped s o2 -> o1 = o2.
Proof.
  induction 1 as [|b rest out Hb Hnb Hnq H1 IH|rest out H1 IH|rest out H1 IH
                  |rest out H1 IH|rest out H1 IH|rest out H1 IH
                  |b rest out Hb Hn Hr Ht H1 IH|w rest out Hw H1 IH
                  |b rest out Hb Hnone H1 IH]; intros o2 H2.
  - inversion H2 as [| | | | | | | |w' ? ? Hw' ? Heq|]; subst; try reflexivity.
    destruct (WellFormed_first w' Hw') as (? & ? & ? & -> & ?). discriminate.
  - inversion H2 as [| | | | | | | |w' ? ? Hw' ? Heq|]; subst; norm_bytes;
      try congruence; try (exfalso; lia); try (f_equal; auto; fail).
    multi_head Heq.
  - inversion H2 as [| | | | | | | |w' ? ? Hw' ? Heq|]; subst; norm_bytes;
      try congruence; try (exfalso; lia); try (do 2 f_equal; auto; fail).
    multi_head Heq.
  - inversion H2 as [| | | | | | | |w' ? ? Hw' ? Heq|]; subst; norm_bytes;
      try congruence; try (exfalso; lia); try (do 2 f_equal; auto; fail).
    multi_head Heq.
  - inversion H2 as [| | | | | | | |w' ? ? Hw' ? Heq|]; subst; norm_bytes;
      try congruence; try (exfalso; lia); try (do 2 f_equal; auto; fail).
    multi_head Heq.
  - inversion H2 as [| | | | | | | |w' ? ? Hw' ? Heq|]; subst; norm_bytes;
      try congruence; try (exfalso; lia); try (do 2 f_equal; auto; fail).
    multi_head Heq.
  - inversion H2 as [| | | | | | | |w' ? ? Hw' ? Heq|]; subst; norm_bytes;
      try congruence; try (exfalso; lia); try (do 2 f_equal; auto; fail).
    multi_head Heq.
  - inversion H2 as [| | | | | | | |w' ? ? Hw' ? Heq|]; subst; norm_bytes;
      try congruence; try (exfalso; lia); try (simpl; do 6 f_equal; auto; fail).
    multi_head Heq.
  - destruct (WellFormed_first w Hw) as (b0 & b1 & t & Hshape & Hrange).
    rewrite Hshape in H2. simpl in H2.
    inversion H2 as [| | | | | | | |w' ? ? Hw' ? Heq|? ? ? ? Hnone']; subst; norm_bytes;
      try (exfalso; lia).
    + destruct (WellFormed_prefix_unique w' (b0 :: b1 :: t) _ _ Hw' Hw Heq) as [-> ->].
      f_equal. auto.
    + exfalso. apply (Hnone' (b0 :: b1 :: t) rest); [reflexivity|exact Hw].
  - inversion H2 as [| | | | | | | |w' ? ? Hw' ? Heq|]; subst; norm_bytes;
      try (exfalso; lia); try (f_equal; auto; fail).
    exfalso. apply (Hnone w' rest0); [now rewrite Heq|exact Hw'].
Qed.

Lemma safeAddString_run (s : string) :
  (forall enc, safeAddString s enc = appendBytes (escape s) enc)
  /\ Escaped (bytes_of s) (escape s).
Proof.
  destruct (safeAddString_loop_spec (length (bytes_of s)) (bytes_of s) 0)
    as (out & Hrun & Hesc); [lia|].
  assert (Hout : escape s = out).
  { unfold escape, safeAddString. now rewrite Hrun. }
  rewrite Hout. split; [|exact Hesc].
  intros enc. unfold safeAddString. now rewrite Hrun.
Qed.

(** C4.  For every input string and every encoder, [safeAddString]
    appends to the buffer an output that depends on the string alone
    ([escape]), and that output is the escaping of the input, byte by
    byte: an ASCII byte from 0x20 on other than backslash and quote is
    copied; backslash, quote, newline, carriage return and tab become
    their two-character escapes; any other byte below 0x20 becomes
    backslash-u-0-0 and its two hex digits; a well-formed multi-byte
    UTF-8 sequence is copied; and a byte at which no well-formed
    sequence starts becomes the escape of U+FFFD.  Nothing else is
    written, the [left] flag is untouched, and no other output fits
    that description. *)
Theorem safeAddString_escapes (s : string) (enc : jsonEncoder) :
  safeAddString s enc = mkEnc (buf enc ++ escape s) (left enc)
  /\ Escaped (bytes_of s) (escape s)
  /\ (forall out, Escaped (bytes_of s) out -> out = escape s).
Proof.
  destruct (safeAddString_run s) as [Hrun Hesc].
  split; [now rewrite Hrun|]. split; [exact Hesc|].
  intros out Hout. exact (Escaped_functional _ _ Hout _ Hesc).
Qed.

Lemma safeAddString_escapes_witness :
  Escaped (bytes_of "a") ["a"%char] /\ ["a"%char] = escape "a".
Proof.
  assert (H : Escaped (bytes_of "a") ["a"%char]).
  { apply (Esc_plain "a"%char [] []);
      [change (byte_val "a"%char) with 97; lia|discriminate|discriminate|].
    apply Esc_nil. }
  split; [exact H|].
  exact (proj2 (proj2 (safeAddString_escapes "a" newJsonEncoder)) ["a"%char] H).
Defined.

(** One string through every case: a letter, a quote, a backslash, a
    newline, the control bytes 0x01 and 0x1F, DEL, a two-byte sequence,
    the byte 0xFF, a three-byte sequence cut short, a letter. *)
Example escape_sample :
  escape (string_of_list_ascii
            (["A"%char; dquote; backslash; newline] ++
             map byte_of_val [0x01; 0x1F; 0x7F; 0xC3; 0xA9; 0xFF; 0xE4; 0xB8] ++ ["A"%char]))
  = ["A"%char; backslash; dquote; backslash; backslash; backslash; "n"%char]
    ++ [backslash; "u"%char; "0"%char; "0"%char; "0"%char; "1"%char]
    ++ [backslash; "u"%char; "0"%char; "0"%char; "1"%char; "F"%char]
    ++ map byte_of_val [0x7F; 0xC3; 0xA9]
    ++ replacement ++ replacement ++ replacement ++ ["A"%char].
Proof. vm_compute. reflexivity. Qed.

(** *** The JSON line *)

Lemma safeAddString_append (s : string) (enc : jsonEncoder) :
  safeAddString s enc = appendBytes (escape s) enc.
Proof. now destruct (safeAddString_run s) as [-> _]. Qed.

Lemma addKey_append (key : string) (enc : jsonEncoder) :
  left enc = false ->
  addKey key enc
  = appendBytes (bytes_of "," ++ [dquote] ++ escape key ++ [dquote] ++ bytes_of ": ") enc.
Proof.
  intros Hl. unfold addKey, AppendLeft. rewrite Hl, safeAddString_append.
  rewrite !appendBytes_appendBytes. f_equal.
Qed.

Lemma wrap_signed_range (w : Z) (z : Z) :
  0 < w -> - 2 ^ (w - 1) <= wrap_signed w z < 2 ^ (w - 1).
Proof.
  intros Hw. unfold wrap_signed.
  assert (H2 : 2 ^ w = 2 * 2 ^ (w - 1)).
  { replace w with (1 + (w - 1)) at 1 by lia. rewrite Z.pow_add_r by lia. reflexivity. }
  assert (Hp : 0 < 2 ^ (w - 1)) by (apply Z.pow_pos_nonneg; lia).
  pose proof (Z.mod_pos_bound (z + 2 ^ (w - 1)) (2 ^ w) ltac:(lia)). lia.
Qed.

Lemma wrap_signed_64_narrow (w : Z) (z : Z) :
  0 < w <= 64 -> wrap_signed 64 (wrap_signed w z) = wrap_signed w z.
Proof.
  intros Hw. apply wrap_signed_64_id.
  pose proof (wrap_signed_range w z ltac:(lia)) as Hr.
  assert (Hm : 2 ^ (w - 1) <= 2 ^ 63) by (apply Z.pow_le_mono_r; lia).
  lia.
Qed.

Lemma wrap_unsigned_64_narrow (z : Z) :
  wrap_unsigned 64 (wrap_unsigned 32 z) = wrap_unsigned 32 z.
Proof.
  unfold wrap_unsigned. apply Z.mod_small.
  pose proof (Z.mod_pos_bound z (2 ^ 32) ltac:(lia)). lia.
Qed.

Lemma addKey_buf (key : string) (value : list ascii) (enc : jsonEncoder) :
  left enc = false ->
  appendBytes value (addKey key enc) = appendBytes (pair_text key value) enc.
Proof.
  intros Hl. rewrite addKey_append by exact Hl. rewrite appendBytes_appendBytes.
  unfold pair_text. now rewrite <- !app_assoc.
Qed.

Lemma AddString_buf (key value : string) (enc : jsonEncoder) :
  left enc = false ->
  AddString key value enc = appendBytes (pair_text key (quoted_escaped value)) enc.
Proof.
  intros Hl. unfold AddString, AppendLeft. rewrite Hl.
  rewrite !safeAddString_append, appendByte_appendBytes, !appendBytes_appendBytes.
  unfold pair_text, quoted_escaped, bytes_of.
  cbn [list_ascii_of_string]. f_equal.
Qed.

Lemma AddTo_pair (FormatFloat : Z -> Z -> list ascii)
    (AddInterface : string -> any -> jsonEncoder -> option jsonEncoder)
    (f : Field) (enc : jsonEncoder) :
  left enc = false -> f_Type f <> UnknownType -> typed f ->
  AddTo FormatFloat AddInterface f enc
  = (fun p => appendBytes p enc) <$> appended_pair FormatFloat f.
Proof.
  intros Hl Hk Ht. unfold typed in Ht. unfold AddTo, appended_pair, appended_value.
  destruct (f_Type f); try congruence; cbn [mbind option_bind];
    try (destruct (f_Interface f); cbn [mbind option_bind fmap option_fmap option_map];
         try reflexivity);
    unfold AddBool, AddInt, AddInt32, AddUint32, AddInt64, AddUint64, AddInt8, AddUint8,
      AddFloat32, AddFloat64;
    rewrite ?AddString_buf by exact Hl; rewrite ?addKey_buf by exact Hl;
    rewrite ?wrap_signed_64_narrow by lia; rewrite ?wrap_unsigned_64_narrow;
    reflexivity.
Qed.

Lemma addFields_pairs (FormatFloat : Z -> Z -> list ascii)
    (AddInterface : string -> any -> jsonEncoder -> option jsonEncoder)
    (fs : list Field) :
  Forall typed fs ->
  forall enc : jsonEncoder,
    left enc = false ->
    addFields FormatFloat AddInterface fs enc
    = (fun ps => appendBytes (concat ps) enc)
        <$> mapM (appended_pair FormatFloat) (known fs).
Proof.
  induction 1 as [|f fs Hf _ IH]; intros enc Hl.
  - simpl. now rewrite appendBytes_nil.
  - simpl. unfold known. rewrite filter_cons. fold (known fs).
    destruct (decide (f_Type f = UnknownType)) as [Hu|Hk].
    + rewrite decide_False by tauto. now apply IH.
    + rewrite decide_True by exact Hk.
      rewrite AddTo_pair by assumption.
      simpl. destruct (appended_pair FormatFloat f) as [p|]; simpl; [|reflexivity].
      rewrite IH by exact Hl.
      destruct (mapM (appended_pair FormatFloat) (known fs)) as [ps|]; simpl;
        [|reflexivity].
      now rewrite appendBytes_appendBytes.
Qed.

Lemma EncodeJson_general (FormatFloat : Z -> Z -> list ascii)
    (AddInterface : string -> any -> jsonEncoder -> option jsonEncoder)
    (record : LogRecord) (enc : jsonEncoder) :
  left enc = false ->
  Forall typed (rec_Fields record) ->
  EncodeJson FormatFloat AddInterface record enc
  = lvl ← Level.String (rec_Level record);
    pairs ← mapM (appended_pair FormatFloat) (known (rec_Fields record));
    Some (string_of_list_ascii (buf enc ++ json_line record lvl pairs)).
Proof.
  intros Hl Ht. unfold EncodeJson.
  destruct (Level.String (rec_Level record)) as [lvl|]; cbn [mbind option_bind];
    [|reflexivity].
  rewrite !appendByte_appendBytes, !appendBytes_appendBytes.
  rewrite addFields_pairs by assumption.
  destruct (mapM (appended_pair FormatFloat) (known (rec_Fields record))) as [ps|];
    cbn [fmap option_fmap option_map mbind option_bind]; [|reflexivity].
  rewrite !appendByte_appendBytes, !appendBytes_appendBytes.
  unfold appendBytes. cbn [buf].
  do 3 f_equal. unfold json_line, bytes_of. cbn [list_ascii_of_string].
  repeat rewrite <- app_assoc. reflexivity.
Qed.

(** *** The JSON line of a message that holds a quote *)

(** C3 (failing input).  For the message made of the three bytes a,
    double quote, b, the line carries the message between quotes byte for
    byte, [json_line] being built from [quoted (rec_Message record)]; the
    escaping routine would have written a backslash before the inner
    quote.  A JSON reader sees the text a and then stray input. *)
Theorem EncodeJson_message_raw (FormatFloat : Z -> Z -> list ascii)
    (AddInterface : string -> any -> jsonEncoder -> option jsonEncoder)
    (created : Time) :
  let msg := string_of_list_ascii ["a"%char; dquote; "b"%char] in
  let record := mkRecord Level.INFO created "main.go:7" msg true [] in
  EncodeJson FormatFloat AddInterface record newJsonEncoder
  = Some (string_of_list_ascii (json_line record "INFO" []))
  /\ quoted (rec_Message record) = [dquote; "a"%char; dquote; "b"%char; dquote]
  /\ escape msg = ["a"%char; backslash; dquote; "b"%char].
Proof.
  intros msg record. split; [|split; reflexivity].
  unfold EncodeJson.
  change (Level.String (rec_Level record)) with (Some "INFO").
  cbn [mbind option_bind rec_Fields record addFields].
  rewrite !appendByte_appendBytes, !appendBytes_appendBytes.
  unfold appendBytes, newJsonEncoder. cbn [buf app].
  reflexivity.
Qed.

(** *** The JSON line of a uint8 field *)

(** C5 (failing input).  The field [Uint8] builds for the key u and the
    value 200 has the uint8 kind and holds 200, whose decimal numeral is
    200.  The JSON line of a record with that one field has the four
    leading keys in their order with their values, and then the pair of
    the field with the value 18446744073709551560, not 200: [AddTo]
    hands the stored integer to [AddUint8] as an [int8], which turns 200
    into -56, and [AddUint8] converts that to [uint64]. *)
Theorem Uint8_field_json_line (FormatFloat : Z -> Z -> list ascii)
    (AddInterface : string -> any -> jsonEncoder -> option jsonEncoder) :
  field.Uint8 "u" 200 = mkField "u" Uint8Type 200 "" ANil
  /\ FormatUint 200 = bytes_of "200"
  /\ EncodeJson FormatFloat AddInterface uint8_record newJsonEncoder
     = Some (string_of_list_ascii
               (bytes_of "{" ++ quoted "time" ++ bytes_of ":"
                ++ quoted "2024-03-07 09:05:00.00000"
                ++ bytes_of "," ++ quoted "message" ++ bytes_of ":" ++ quoted "start"
                ++ bytes_of "," ++ quoted "level" ++ bytes_of ":" ++ quoted "INFO"
                ++ bytes_of "," ++ quoted "file" ++ bytes_of ":" ++ quoted "main.go:12"
                ++ bytes_of "," ++ quoted "u" ++ bytes_of ": 18446744073709551560"
                ++ bytes_of "}" ++ [newline])).
Proof.
  split; [vm_compute; reflexivity|]. split; [vm_compute; reflexivity|].
  vm_compute. reflexivity.
Qed.

(** *** The text line *)

Ltac percent_out :=
  unfold bytes_of; cbn [list_ascii_of_string];
  repeat (apply not_elem_of_cons; split; [discriminate|]); apply not_elem_of_nil.

Lemma Sprintf_plain (fmtV : any -> list ascii) (lit rest : list ascii) (args : list any) :
  "%"%char ∉ lit ->
  Sprintf fmtV (lit ++ rest) args = (lit ++.) <$> Sprintf fmtV rest args.
Proof.
  induction lit as [|c lit IH]; intros Hfree.
  - simpl. now destruct (Sprintf fmtV rest args).
  - apply not_elem_of_cons in Hfree as [Hc Hlit].
    simpl. rewrite decide_False by congruence.
    rewrite IH by exact Hlit.
    now destruct (Sprintf fmtV rest args).
Qed.

Lemma Sprintf_verb (fmtV : any -> list ascii) (verb : ascii) (rest : list ascii)
    (a : any) (args : list any) :
  verb <> "%"%char ->
  Sprintf fmtV ("%"%char :: verb :: rest) (a :: args)
  = out ← format_verb fmtV verb a; tail ← Sprintf fmtV rest args; Some (out ++ tail).
Proof.
  intros Hv. cbn [Sprintf].
  destruct (decide ("%"%char = "%"%char)) as [_|Hne]; [|congruence].
  destruct (decide (verb = "%"%char)) as [He|_]; [congruence|reflexivity].
Qed.

Lemma format_text_verb (fmtV : any -> list ascii) (f : Field) :
  bool_stored f ->
  text_verb f <> "%"%char
  /\ format_verb fmtV (text_verb f) (text_arg f) = Some (text_value fmtV f).
Proof.
  intros Hb. unfold text_verb, text_arg, text_value, bool_stored in *.
  destruct (f_Type f); (split; [discriminate|]); try reflexivity.
  destruct Hb as [b ->]; reflexivity.
Qed.

Lemma Sprintf_placeholders (fmtV : any -> list ascii) (fs : list Field) :
  Forall (fun f => percent_free (f_Key f)) fs ->
  Forall bool_stored fs ->
  Sprintf fmtV (concat (map placeholder fs)) (map text_arg fs)
  = Some (concat (map (fun f => bytes_of (f_Key f) ++ bytes_of ":" ++ text_value fmtV f
                                ++ bytes_of " ") fs)).
Proof.
  induction fs as [|f fs IH]; intros Hk Hb; [reflexivity|].
  apply Forall_cons in Hk as [Hkf Hk]. apply Forall_cons in Hb as [Hbf Hb].
  destruct (format_text_verb fmtV f Hbf) as [Hne Hfmt].
  cbn [map concat]. unfold placeholder at 1.
  rewrite <- !app_assoc.
  rewrite Sprintf_plain by exact Hkf.
  rewrite (Sprintf_plain fmtV (bytes_of ":")) by percent_out.
  cbn [app]. rewrite Sprintf_verb by exact Hne.
  rewrite Hfmt. cbn [mbind option_bind].
  change (" "%char :: concat (map placeholder fs))
    with (bytes_of " " ++ concat (map placeholder fs)).
  rewrite (Sprintf_plain fmtV (bytes_of " ")) by percent_out.
  rewrite IH by assumption.
  cbn [fmap option_fmap option_map mbind option_bind].
  f_equal.
Qed.

Lemma placeholders_spec (fs : list Field) :
  forall (enc : jsonEncoder) (args : list any),
    placeholders fs enc args
    = (appendBytes (concat (map placeholder (known fs))) enc,
       args ++ map text_arg (known fs)).
Proof.
  induction fs as [|f fs IH]; intros enc args.
  - simpl. now rewrite appendBytes_nil, app_nil_r.
  - cbn [placeholders]. unfold known. rewrite filter_cons. fold (known fs).
    destruct (decide (f_Type f = UnknownType)) as [Hu|Hk].
    + rewrite decide_False by tauto. apply IH.
    + rewrite decide_True by exact Hk.
      cbn [map concat].
      assert (Hstep :
        (let '(enc0, args0) :=
           match f_Type f with
           | Int32Type | Uint32Type | Int8Type | Uint8Type
           | Int64Type | Uint64Type | IntType =>
             (appendString "%d" (appendBytes (bytes_of (f_Key f) ++ bytes_of ":") enc),
              args ++ [AInt64 (f_Integer f)])
           | StringType =>
             (appendString "%s" (appendBytes (bytes_of (f_Key f) ++ bytes_of ":") enc),
              args ++ [AString (f_String f)])
           | BoolType =>
             (appendString "%t" (appendBytes (bytes_of (f_Key f) ++ bytes_of ":") enc),
              args ++ [f_Interface f])
           | _ =>
             (appendString "%v" (appendBytes (bytes_of (f_Key f) ++ bytes_of ":") enc),
              args ++ [f_Interface f])
           end in
         placeholders fs (appendByte " " enc0) args0)
        = placeholders fs (appendBytes (placeholder f) enc) (args ++ [text_arg f])).
      { unfold placeholder, text_verb, text_arg, appendString.
        destruct (f_Type f); try congruence;
          rewrite appendByte_appendBytes, !appendBytes_appendBytes;
          rewrite <- !app_assoc; reflexivity. }
      rewrite Hstep, IH, appendBytes_appendBytes, <- app_assoc. reflexivity.
Qed.

Lemma format_text_verb_v1 (fmtV : any -> list ascii) (f : Field) :
  text_verb_v1 f <> "%"%char
  /\ format_verb fmtV (text_verb_v1 f) (text_arg_v1 f) = Some (text_value_v1 fmtV f).
Proof.
  unfold text_verb_v1, text_arg_v1, text_value_v1.
  destruct (f_Type f); (split; [discriminate|]); reflexivity.
Qed.

Lemma Sprintf_placeholders_v1 (fmtV : any -> list ascii) (fs : list Field) :
  Forall (fun f => percent_free (f_Key f)) fs ->
  Sprintf fmtV (concat (map placeholder_v1 fs)) (map text_arg_v1 fs)
  = Some (concat (map (fun f => bytes_of (f_Key f) ++ bytes_of ":" ++ text_value_v1 fmtV f
                                ++ bytes_of " ") fs)).
Proof.
  induction fs as [|f fs IH]; intros Hk; [reflexivity|].
  apply Forall_cons in Hk as [Hkf Hk].
  destruct (format_text_verb_v1 fmtV f) as [Hne Hfmt].
  cbn [map concat]. unfold placeholder_v1 at 1.
  rewrite <- !app_assoc.
  rewrite Sprintf_plain by exact Hkf.
  rewrite (Sprintf_plain fmtV (bytes_of ":")) by percent_out.
  cbn [app]. rewrite Sprintf_verb by exact Hne.
  rewrite Hfmt. cbn [mbind option_bind].
  change (" "%char :: concat (map placeholder_v1 fs))
    with (bytes_of " " ++ concat (map placeholder_v1 fs)).
  rewrite (Sprintf_plain fmtV (bytes_of " ")) by percent_out.
  rewrite IH by assumption.
  cbn [fmap option_fmap option_map mbind option_bind].
  f_equal.
Qed.

Lemma placeholders_v1_spec (fs : list Field) :
  forall (enc : jsonEncoder) (args : list any),
    placeholders_v1 fs enc args
    = (appendBytes (concat (map placeholder_v1 fs)) enc, args ++ map text_arg_v1 fs).
Proof.
  induction fs as [|f fs IH]; intros enc args.
  - simpl. now rewrite appendBytes_nil, app_nil_r.
  - cbn [placeholders_v1 map concat].
    assert (Hstep :
      (let '(enc0, args0) :=
         match f_Type f with
         | Int32Type =>
           (appendString "%d" (appendBytes (bytes_of (f_Key f) ++ bytes_of ":") enc),
            args ++ [AInt64 (f_Integer f)])
         | StringType =>
           (appendString "%s" (appendBytes (bytes_of (f_Key f) ++ bytes_of ":") enc),
            args ++ [AString (f_String f)])
         | _ =>
           (appendString "%v" (appendBytes (bytes_of (f_Key f) ++ bytes_of ":") enc),
            args ++ [f_Interface f])
         end in
       placeholders_v1 fs (appendByte " " enc0) args0)
      = placeholders_v1 fs (appendBytes (placeholder_v1 f) enc) (args ++ [text_arg_v1 f])).
    { unfold placeholder_v1, text_verb_v1, text_arg_v1, appendString.
      destruct (f_Type f);
        rewrite appendByte_appendBytes, !appendBytes_appendBytes;
        rewrite <- !app_assoc; reflexivity. }
    rewrite Hstep, IH, appendBytes_appendBytes, <- app_assoc. reflexivity.
Qed.

(** The text line of both forms of [EncodeString], from the format each
    builds; shared by the theorems on text mode. *)
Lemma EncodeString_with_fields (fmtV : any -> list ascii) (record : LogRecord)
    (enc : jsonEncoder) :
  rec_Fields record <> [] ->
  "%"%char ∉ buf enc ->
  percent_free (rec_Message record) ->
  (Forall (fun f => percent_free (f_Key f)) (known (rec_Fields record)) ->
   Forall bool_stored (known (rec_Fields record)) ->
   EncodeString fmtV record enc
   = Some (string_of_list_ascii (buf enc ++ text_line fmtV record)))
  /\ (Forall (fun f => percent_free (f_Key f)) (rec_Fields record) ->
      EncodeString_v1 fmtV record enc
      = Some (string_of_list_ascii (buf enc ++ text_line_v1 fmtV record))).
Proof.
  intros Hne Hbuf Hmsg.
  destruct (rec_Fields record) as [|f fs] eqn:Hfs; [congruence|].
  split.
  - intros Hkeys Hbool. unfold EncodeString. rewrite Hfs.
    change (Z.of_nat (length (f :: fs)) <=? 0) with false. cbv iota.
    rewrite placeholders_spec.
    unfold appendString. rewrite appendByte_appendBytes, !appendBytes_appendBytes.
    unfold appendBytes. cbn [buf]. rewrite <- ?app_assoc.
    rewrite Sprintf_plain by exact Hbuf.
    rewrite Sprintf_plain by exact Hmsg.
    rewrite (Sprintf_plain fmtV [" "%char]) by percent_out.
    rewrite Sprintf_placeholders by assumption.
    cbn [fmap option_fmap option_map]. unfold text_line. rewrite Hfs. reflexivity.
  - intros Hkeys. unfold EncodeString_v1. rewrite Hfs.
    change (Z.of_nat (length (f :: fs)) <=? 0) with false. cbv iota.
    rewrite placeholders_v1_spec.
    unfold appendString. rewrite !appendBytes_appendBytes.
    unfold appendBytes. cbn [buf]. rewrite <- ?app_assoc.
    rewrite Sprintf_plain by exact Hbuf.
    rewrite Sprintf_plain by exact Hmsg.
    rewrite Sprintf_placeholders_v1 by assumption.
    cbn [fmap option_fmap option_map]. unfold text_line_v1. rewrite Hfs. reflexivity.
Qed.

(** C6 (as amended).  In text mode both forms of [EncodeString] render a
    record without fields as its message, verbatim.  For a record with
    fields, a message and keys that contain no percent sign and a buffer
    that holds none (the empty buffer of an encoder fresh from the pool
    in particular), the output is what the buffer held and then:
    - in the present form of the method, with boolean fields that store
      booleans: the message, one space, and for each field of a known
      kind in sequence order [key:value] followed by one space, the
      integer kinds in decimal, the text kind as it is, booleans as true
      or false, every other kind through the generic rendering;
    - in the earlier form ([json_encoder.go]): the message and, with no
      space after it, for each field in sequence order, the unknown kind
      included, [key:value] followed by one space, the int32 kind in
      decimal, the text kind as it is, every other kind through the
      generic rendering.
    Either way the line ends in a space. *)
Theorem EncodeString_line (fmtV : any -> list ascii) (record : LogRecord)
    (enc : jsonEncoder) :
  (rec_Fields record = [] ->
   EncodeString fmtV record enc = Some (rec_Message record)
   /\ EncodeString_v1 fmtV record enc = Some (rec_Message record))
  /\ (rec_Fields record <> [] ->
      "%"%char ∉ buf enc ->
      percent_free (rec_Message record) ->
      (Forall (fun f => percent_free (f_Key f)) (known (rec_Fields record)) ->
       Forall bool_stored (known (rec_Fields record)) ->
       EncodeString fmtV record enc
       = Some (string_of_list_ascii (buf enc ++ text_line fmtV record)))
      /\ (Forall (fun f => percent_free (f_Key f)) (rec_Fields record) ->
          EncodeString_v1 fmtV record enc
          = Some (string_of_list_ascii (buf enc ++ text_line_v1 fmtV record)))).
Proof.
  split.
  - intros Hnil. unfold EncodeString, EncodeString_v1. now rewrite Hnil.
  - apply EncodeString_with_fields.
Qed.

(** *** Dispatch: what each loop does *)

Lemma skipCheck_admitted (lvl : Z) (fs : list (string * Filter)) :
  skipCheck lvl fs = true <-> admitted lvl fs = [].
Proof.
  unfold admitted. induction fs as [|[name filt] fs IH]; [easy|].
  simpl. rewrite filter_cons.
  destruct (decide (admits lvl (name, filt))) as [Hle|Hgt]; unfold admits in *; simpl in *.
  - rewrite (proj2 (Z.leb_le _ _) Hle). easy.
  - rewrite (proj2 (Z.leb_gt _ _)) by lia. exact IH.
Qed.

Lemma skipCheck_false (lvl : Z) (fs : list (string * Filter)) (b : string * Filter) :
  b ∈ fs -> admits lvl b -> skipCheck lvl fs = false.
Proof.
  intros Hin Hadm. destruct (skipCheck lvl fs) eqn:Hs; [|reflexivity].
  apply skipCheck_admitted in Hs.
  assert (Hb : b ∈ admitted lvl fs) by (apply list_elem_of_filter; tauto).
  rewrite Hs in Hb. inversion Hb.
Qed.

Lemma fanOut_run (lvl : Z) (rec : nat) (fs : list (string * Filter)) (w : World) :
  fanOut lvl rec fs w = (tt, w, map (write_event rec) (admitted lvl fs)).
Proof.
  unfold admitted. induction fs as [|[name filt] fs IH]; [reflexivity|].
  simpl. rewrite filter_cons.
  destruct (decide (admits lvl (name, filt))) as [Hle|Hgt]; unfold admits in *; simpl in *.
  - rewrite (proj2 (Z.ltb_ge _ _) Hle). unfold bind, LogWrite, emit. rewrite IH.
    reflexivity.
  - rewrite (proj2 (Z.ltb_lt _ _)) by lia. exact IH.
Qed.

Lemma fanOutJson_run (lvl : Z) (now : Time) (src message : string) (filed : list Field)
    (fs : list (string * Filter)) :
  forall w : World,
    fanOutJson lvl now src message filed fs w
    = (tt,
       mkWorld (w_ticks w) (w_ranges w)
         (w_heap w ++ replicate (length (admitted lvl fs))
                        (mkRecord lvl now src message true filed)),
       imap (fun i b => write_event (length (w_heap w) + i) b) (admitted lvl fs)).
Proof.
  unfold admitted. induction fs as [|[name filt] fs IH]; intros w.
  - simpl. rewrite app_nil_r. now destruct w.
  - simpl. rewrite !filter_cons.
    destruct (decide (admits lvl (name, filt))) as [Hle|Hgt];
      [unfold admits in Hle; simpl in Hle|unfold admits in Hgt; simpl in Hgt].
    2:{ rewrite (proj2 (Z.ltb_lt _ _)) by lia. apply IH. }
    + rewrite (proj2 (Z.ltb_ge _ _) Hle). unfold bind, alloc, LogWrite, emit.
      rewrite IH. cbn [w_heap w_ticks w_ranges length replicate imap app].
      rewrite <- app_assoc, Nat.add_0_r. simpl app.
      do 2 f_equal. apply imap_ext. intros i b _. simpl.
      rewrite length_app. simpl. f_equal. lia.
Qed.

(** *** Dispatch: a call as a whole *)

Section DispatchFacts.

Variable fmt_Sprintf : string -> list any -> string.
Variable clock : nat -> Time.
Variable callsite : option (string * Z).
Variable iteration : nat -> list (string * Filter) -> list (string * Filter).

Lemma dispatch_run (log : Logger) (c : Call) (w : World) :
  dispatch fmt_Sprintf clock callsite iteration log c w
  = if skipCheck (severity c) (first_pass iteration log w)
    then (tt, mkWorld (w_ticks w) (S (w_ranges w)) (w_heap w), eager_format c)
    else
      let adm := admitted (severity c) (second_pass iteration log w) in
      let r := record_of fmt_Sprintf clock callsite c w in
      (tt,
       mkWorld (S (w_ticks w)) (S (S (w_ranges w)))
         (w_heap w ++ replicate (if structured c then length adm else 1%nat) r),
       eager_format c ++ prelude c
       ++ (if structured c
           then imap (fun i b => write_event (length (w_heap w) + i) b) adm
           else map (write_event (length (w_heap w))) adm)).
Proof.
  unfold first_pass, second_pass.
  destruct c; cbn [dispatch severity structured eager_format prelude record_of];
    cbv beta iota zeta delta
      [Log Logf Logc Finestf Finef Debugf Tracef Infof Warnf Errorf Criticalf
       Debug Info Warn Error intLogf intLogc intLogJson range Sprintf_call
       callerSource call_closure Now alloc bind emit ret
       w_ranges w_ticks w_heap];
    cbn [length]; change (0 <? Z.of_nat 0) with false;
    match goal with
    | |- context [skipCheck ?l ?fs] => destruct (skipCheck l fs)
    end;
    cbv beta iota zeta;
    try reflexivity;
    try (destruct (0 <? Z.of_nat (length args)); cbv beta iota zeta);
    rewrite ?fanOut_run, ?fanOutJson_run;
    cbv beta iota zeta; cbn [w_ranges w_ticks w_heap];
    reflexivity.
Qed.

Lemma writes_app (t1 t2 : list Effect) : writes (t1 ++ t2) = writes t1 ++ writes t2.
Proof. apply omap_app. Qed.

Lemma written_app (t1 t2 : list Effect) : written (t1 ++ t2) = written t1 ++ written t2.
Proof. apply omap_app. Qed.

Lemma writes_eager_prelude (c : Call) : writes (eager_format c) = [] /\ writes (prelude c) = [].
Proof.
  destruct c; split; try reflexivity;
    cbn [prelude]; destruct (0 <? Z.of_nat (length args)); reflexivity.
Qed.

Lemma written_eager_prelude (c : Call) :
  written (eager_format c) = [] /\ written (prelude c) = [].
Proof.
  destruct c; split; try reflexivity;
    cbn [prelude]; destruct (0 <? Z.of_nat (length args)); reflexivity.
Qed.

Lemma writes_map (rec : nat) (l : list (string * Filter)) :
  writes (map (write_event rec) l) = map target l.
Proof. induction l as [|b l IH]; [reflexivity|]. simpl. now rewrite <- IH. Qed.

Lemma writes_imap (n : nat) (l : list (string * Filter)) :
  writes (imap (fun i b => write_event (n + i) b) l) = map target l.
Proof.
  revert n. induction l as [|b l IH]; intros n; [reflexivity|].
  cbn [imap map].
  rewrite (imap_ext _ (fun i b => write_event (S n + i) b))
    by (intros; simpl; f_equal; lia).
  change (target b :: writes (imap (fun i b => write_event (S n + i) b) l)
          = target b :: map target l).
  now rewrite IH.
Qed.

Lemma written_map (rec : nat) (l : list (string * Filter)) :
  written (map (write_event rec) l) = replicate (length l) rec.
Proof. induction l as [|b l IH]; [reflexivity|]. simpl. now rewrite <- IH. Qed.

Lemma written_imap (n : nat) (l : list (string * Filter)) :
  written (imap (fun i b => write_event (n + i) b) l) = seq n (length l).
Proof.
  revert n. induction l as [|b l IH]; intros n; [reflexivity|].
  cbn [imap length seq].
  rewrite (imap_ext _ (fun i b => write_event (S n + i) b))
    by (intros; simpl; f_equal; lia).
  change ((n + 0)%nat :: written (imap (fun i b => write_event (S n + i) b) l)
          = n :: seq (S n) (length l)).
  now rewrite IH, Nat.add_0_r.
Qed.

Lemma dispatch_writes (log : Logger) (c : Call) (w : World) :
  writes (effects (dispatch fmt_Sprintf clock callsite iteration log c) w)
  = if skipCheck (severity c) (first_pass iteration log w) then []
    else map target (admitted (severity c) (second_pass iteration log w)).
Proof.
  unfold effects. rewrite dispatch_run.
  destruct (writes_eager_prelude c) as [He Hp].
  destruct (skipCheck (severity c) (first_pass iteration log w)); cbn [snd]; [exact He|].
  rewrite !writes_app, He, Hp. cbn [app].
  destruct (structured c); [apply writes_imap|apply writes_map].
Qed.

Lemma dispatch_skipped (log : Logger) (c : Call) (w : World) :
  skipCheck (severity c) (first_pass iteration log w) = true ->
  effects (dispatch fmt_Sprintf clock callsite iteration log c) w = eager_format c
  /\ final (dispatch fmt_Sprintf clock callsite iteration log c) w
     = mkWorld (w_ticks w) (S (w_ranges w)) (w_heap w).
Proof.
  intros Hs. unfold effects, final. rewrite dispatch_run, Hs. split; reflexivity.
Qed.

Lemma dispatch_records (log : Logger) (c : Call) (w : World) (p : nat) :
  p ∈ written (effects (dispatch fmt_Sprintf clock callsite iteration log c) w) ->
  w_heap (final (dispatch fmt_Sprintf clock callsite iteration log c) w) !! p
  = Some (record_of fmt_Sprintf clock callsite c w).
Proof.
  unfold effects, final. rewrite dispatch_run.
  destruct (written_eager_prelude c) as [He Hp].
  destruct (skipCheck (severity c) (first_pass iteration log w)); cbn [fst snd].
  - rewrite He. intros Hin. inversion Hin.
  - cbv zeta. rewrite !written_app, He, Hp. cbn [app w_heap].
    destruct (structured c).
    + rewrite written_imap. intros Hin. apply elem_of_seq in Hin.
      rewrite lookup_app_r by lia. apply lookup_replicate_2. lia.
    + rewrite written_map. intros Hin. apply elem_of_replicate in Hin as [-> _].
      rewrite lookup_app_r by lia. now rewrite Nat.sub_diag.
Qed.

Lemma written_elem (name : string) (writer p : nat) (t : list Effect) :
  ELogWrite name writer p ∈ t -> p ∈ written t.
Proof.
  intros Hin. unfold written. apply list_elem_of_omap.
  exists (ELogWrite name writer p). split; [exact Hin|reflexivity].
Qed.

End DispatchFacts.

(** *** Dispatch: who is written to *)

Lemma filter_name_absent (name : string) (lvl : Z) (fs : list (string * Filter)) :
  name ∉ fs.*1 ->
  filter (fun x : string * nat => x.1 = name) (map target (admitted lvl fs)) = [].
Proof.
  unfold admitted. induction fs as [|[n f] fs IH]; intros Hname; [reflexivity|].
  cbn [fmap list_fmap fst] in Hname. apply not_elem_of_cons in Hname as [Hne Hrest].
  rewrite filter_cons.
  destruct (decide (admits lvl (n, f))); [|now apply IH].
  cbn [map]. rewrite filter_cons.
  destruct (decide ((target (n, f)).1 = name)) as [Hn|_];
    [unfold target in Hn; simpl in Hn; congruence|].
  now apply IH.
Qed.

Lemma filter_name_present (name : string) (filt : Filter) (lvl : Z)
    (fs : list (string * Filter)) :
  NoDup fs.*1 -> (name, filt) ∈ fs ->
  filter (fun x : string * nat => x.1 = name) (map target (admitted lvl fs))
  = if decide (filt_Level filt <= lvl) then [(name, filt_LogWriter filt)] else [].
Proof.
  unfold admitted. induction fs as [|[n f] fs IH]; intros Hnd Hin; [inversion Hin|].
  cbn [fmap list_fmap fst] in Hnd. apply NoDup_cons in Hnd as [Hfresh Hnd].
  apply elem_of_cons in Hin as [Heq|Hin].
  - injection Heq as <- <-. clear IH.
    pose proof (filter_name_absent name lvl fs Hfresh) as Hrest. unfold admitted in Hrest.
    rewrite filter_cons. unfold admits at 1. cbn [snd].
    destruct (decide (filt_Level filt <= lvl)); [|exact Hrest].
    cbn [map]. rewrite filter_cons.
    destruct (decide ((target (name, filt)).1 = name)) as [_|Hn];
      [|unfold target in Hn; simpl in Hn; congruence].
    rewrite Hrest. reflexivity.
  - assert (Hne : n <> name).
    { intros ->. apply Hfresh. apply list_elem_of_fmap. now exists (name, filt). }
    rewrite filter_cons.
    destruct (decide (admits lvl (n, f))); [|now apply IH].
    cbn [map]. rewrite filter_cons.
    destruct (decide ((target (n, f)).1 = name)) as [Hn|_];
      [unfold target in Hn; simpl in Hn; congruence|].
    now apply IH.
Qed.

Section DispatchTheorems.

Variable fmt_Sprintf : string -> list any -> string.
Variable clock : nat -> Time.
Variable callsite : option (string * Z).
Variable iteration : nat -> list (string * Filter) -> list (string * Filter).

(** A [range] loop visits every entry of the map once, in some order. *)
Hypothesis iteration_perm : forall n l, iteration n l ≡ₚ l.

Lemma pass_elem (log : Logger) (n : nat) (name : string) (filt : Filter) :
  (name, filt) ∈ iteration n (map_to_list log) <-> log !! name = Some filt.
Proof. rewrite (iteration_perm n). apply elem_of_map_to_list. Qed.

Lemma pass_NoDup (log : Logger) (n : nat) : NoDup (iteration n (map_to_list log)).*1.
Proof. rewrite (iteration_perm n). apply NoDup_fst_map_to_list. Qed.

Lemma below_all_skips (log : Logger) (lvl : Z) (n : nat) :
  (forall name filt, log !! name = Some filt -> lvl < filt_Level filt) ->
  skipCheck lvl (iteration n (map_to_list log)) = true.
Proof.
  intros Hall. destruct (skipCheck lvl (iteration n (map_to_list log))) eqn:Hs;
    [reflexivity|].
  assert (Hne : admitted lvl (iteration n (map_to_list log)) <> []).
  { intros Hnil. apply skipCheck_admitted in Hnil. congruence. }
  destruct (admitted lvl (iteration n (map_to_list log))) as [|[name filt] rest] eqn:Ha;
    [congruence|].
  assert (Hin : (name, filt) ∈ admitted lvl (iteration n (map_to_list log)))
    by (rewrite Ha; left).
  apply list_elem_of_filter in Hin as [Hadm Hin%pass_elem].
  specialize (Hall _ _ Hin). unfold admits in Hadm. simpl in Hadm. lia.
Qed.

(** C1.  For every logger, every registered binding (with its threshold
    and its writer) and every dispatch call: the Writer invocations the
    call makes for that binding are exactly one, to the binding's
    writer, when the call's severity is at or above the threshold, and
    none when it is below; and when the severity is below the threshold
    of every registered binding the call makes no Writer invocation at
    all.  This holds whatever order the [range] loops visit the map
    in. *)
Theorem dispatch_reaches_iff_admitted (log : Logger) (c : Call) (w : World)
    (name : string) (filt : Filter) :
  log !! name = Some filt ->
  let t := effects (dispatch fmt_Sprintf clock callsite iteration log c) w in
  filter (fun x : string * nat => x.1 = name) (writes t)
  = (if decide (filt_Level filt <= severity c) then [(name, filt_LogWriter filt)] else [])
  /\ ((forall n f, log !! n = Some f -> severity c < filt_Level f) -> writes t = []).
Proof.
  intros Hlk t. subst t. rewrite dispatch_writes. split.
  - destruct (skipCheck (severity c) (first_pass iteration log w)) eqn:Hs.
    + destruct (decide (filt_Level filt <= severity c)) as [Hadm|_]; [|reflexivity].
      rewrite (skipCheck_false (severity c) (first_pass iteration log w) (name, filt))
        in Hs; [discriminate| |exact Hadm].
      now apply pass_elem.
    + apply filter_name_present; [apply pass_NoDup|now apply pass_elem].
  - intros Hall. unfold first_pass. now rewrite below_all_skips.
Qed.

(** C2 (as amended).  For every dispatch call at a severity that no
    registered binding admits: no closure is invoked, no call-site
    resolution is executed, no Writer is invoked, no record is allocated
    and the clock is not read; and no argument formatting is performed,
    except by the warning-, error- and critical-level format-style
    entries, which format their arguments exactly once, on entry, before
    the skip check. *)
Theorem skipped_call_effects (log : Logger) (c : Call) (w : World) :
  (forall n f, log !! n = Some f -> severity c < filt_Level f) ->
  let t := effects (dispatch fmt_Sprintf clock callsite iteration log c) w in
  let w' := final (dispatch fmt_Sprintf clock callsite iteration log c) w in
  count is_closure t = 0%nat /\ count is_caller t = 0%nat /\ count is_write t = 0%nat
  /\ count is_format t = (if formats_eagerly c then 1 else 0)%nat
  /\ w_heap w' = w_heap w /\ w_ticks w' = w_ticks w.
Proof.
  intros Hall t w'. subst t w'.
  destruct (dispatch_skipped fmt_Sprintf clock callsite iteration log c w) as [-> ->].
  { unfold first_pass. now apply below_all_skips. }
  destruct c; repeat split; reflexivity.
Qed.

Lemma record_of_fields (c : Call) (w : World) :
  rec_Level (record_of fmt_Sprintf clock callsite c w) = severity c
  /\ rec_Json (record_of fmt_Sprintf clock callsite c w) = structured c
  /\ rec_Created (record_of fmt_Sprintf clock callsite c w) = clock (w_ticks w).
Proof. destruct c; repeat split; reflexivity. Qed.

(** C9 (as amended).  Within one dispatch call, every Writer invocation
    receives a record with the same contents: the severity of the call,
    the one reading of the clock, the same source, message, structured
    flag and field sequence.  For the format-style, closure-style and
    manual shapes it is the same record instance for all of them.  For
    the structured shape every admitting binding receives a record
    instance of its own, freshly allocated for it. *)
Theorem writers_observe_equal_records (log : Logger) (c : Call) (w : World) :
  let t := effects (dispatch fmt_Sprintf clock callsite iteration log c) w in
  let h := w_heap (final (dispatch fmt_Sprintf clock callsite iteration log c) w) in
  (exists r, rec_Level r = severity c /\ rec_Json r = structured c
             /\ rec_Created r = clock (w_ticks w)
             /\ forall p, p ∈ written t -> h !! p = Some r)
  /\ (structured c = false -> forall p q, p ∈ written t -> q ∈ written t -> p = q)
  /\ (structured c = true ->
      NoDup (written t) /\ forall p, p ∈ written t -> (length (w_heap w) <= p)%nat).
Proof.
  intros t h. subst t h. unfold effects, final. rewrite dispatch_run.
  destruct (written_eager_prelude c) as [He Hp].
  destruct (record_of_fields c w) as (Hlvl & Hjson & Hnow).
  destruct (skipCheck (severity c) (first_pass iteration log w)); cbn [fst snd].
  - rewrite He. split; [|split].
    + exists (record_of fmt_Sprintf clock callsite c w).
      repeat split; try assumption. intros p Hin. inversion Hin.
    + intros _ p q Hin. inversion Hin.
    + intros _. split; [constructor|]. intros p Hin. inversion Hin.
  - cbv zeta. rewrite !written_app, He, Hp. cbn [app w_heap].
    set (adm := admitted (severity c) (second_pass iteration log w)).
    set (r := record_of fmt_Sprintf clock callsite c w) in *.
    destruct (structured c).
    + rewrite written_imap. split; [|split].
      * exists r. repeat split; try assumption. intros p Hin.
        apply elem_of_seq in Hin.
        rewrite lookup_app_r by lia. apply lookup_replicate_2. lia.
      * discriminate.
      * intros _. split; [apply NoDup_seq|]. intros p Hin. apply elem_of_seq in Hin. lia.
    + rewrite written_map. split; [|split].
      * exists r. repeat split; try assumption. intros p Hin.
        apply elem_of_replicate in Hin as [-> _].
        rewrite lookup_app_r by lia. now rewrite Nat.sub_diag.
      * intros _ p q Hp' Hq'.
        apply elem_of_replicate in Hp' as [-> _].
        now apply elem_of_replicate in Hq' as [-> _].
      * discriminate.
Qed.

End DispatchTheorems.

(** *** The scenarios of the specification, run *)

Lemma demo_iteration_perm (n : nat) (l : list (string * Filter)) : demo_iteration n l ≡ₚ l.
Proof.
  unfold demo_iteration. destruct (Nat.even n); [reflexivity|apply reverse_Permutation].
Defined.

Lemma quiet_log_above_warning (n : string) (f : Filter) :
  quiet_log !! n = Some f -> Level.WARNING < filt_Level f.
Proof.
  unfold quiet_log, AddFilter. intros H.
  apply lookup_insert_Some in H as [[_ <-]|[_ H]]; [reflexivity|].
  rewrite lookup_empty in H. discriminate.
Defined.

Lemma dispatch_reaches_iff_admitted_witness :
  demo_log !! "out" = Some (mkFilter Level.WARNING 0)
  /\ filter (fun x : string * nat => x.1 = "out")
       (writes (effects (dispatch demo_Sprintf demo_clock None demo_iteration demo_log
                           (CWarn "low disk" [])) demo_world))
     = [("out", 0%nat)].
Proof.
  assert (H : demo_log !! "out" = Some (mkFilter Level.WARNING 0))
    by (vm_compute; reflexivity).
  split; [exact H|].
  pose proof (dispatch_reaches_iff_admitted demo_Sprintf demo_clock None demo_iteration
                demo_iteration_perm demo_log (CWarn "low disk" []) demo_world
                "out" (mkFilter Level.WARNING 0) H) as Hthm.
  cbv zeta in Hthm. destruct Hthm as [Hthm _]. rewrite Hthm. reflexivity.
Defined.

Lemma skipped_call_effects_witness :
  (forall n f, quiet_log !! n = Some f -> Level.WARNING < filt_Level f)
  /\ count is_caller
       (effects (dispatch demo_Sprintf demo_clock None demo_iteration quiet_log
                   (CWarnf "disk %s" [AString "full"])) demo_world) = 0%nat
  /\ count is_format
       (effects (dispatch demo_Sprintf demo_clock None demo_iteration quiet_log
                   (CWarnf "disk %s" [AString "full"])) demo_world) = 1%nat.
Proof.
  split; [exact quiet_log_above_warning|].
  pose proof (skipped_call_effects demo_Sprintf demo_clock None demo_iteration
                demo_iteration_perm quiet_log (CWarnf "disk %s" [AString "full"])
                demo_world quiet_log_above_warning) as H.
  cbv zeta in H. destruct H as (_ & Hcaller & _ & Hformat & _).
  split; [exact Hcaller|exact Hformat].
Defined.

(** C2 (counterexample).  With one binding at error, [Warnf] is skipped,
    and yet it has formatted its arguments. *)
Lemma Warnf_formats_when_skipped :
  (forall n f, quiet_log !! n = Some f ->
               severity (CWarnf "disk %s" [AString "full"]) < filt_Level f)
  /\ ~ skip_fast (effects (dispatch demo_Sprintf demo_clock None demo_iteration quiet_log
                             (CWarnf "disk %s" [AString "full"])) demo_world).
Proof.
  split; [exact quiet_log_above_warning|].
  intros [Hformat _]. vm_compute in Hformat. discriminate.
Qed.

Lemma writers_observe_equal_records_witness :
  NoDup (written (effects (dispatch demo_Sprintf demo_clock None demo_iteration demo_log
                             (CError "start" [field.Int32 "port" 8080; field.Bool "ok" true]))
                    demo_world)).
Proof.
  exact (proj1 (proj2 (proj2 (writers_observe_equal_records demo_Sprintf demo_clock None
                                demo_iteration demo_log
                                (CError "start" [field.Int32 "port" 8080; field.Bool "ok" true])
                                demo_world)) eq_refl)).
Defined.

(** C9 (counterexample).  A structured call at error reaches both
    bindings of the logger of Scenario C, and the two writers are handed
    two different record instances. *)
Lemma structured_records_differ :
  written (effects (dispatch demo_Sprintf demo_clock None demo_iteration demo_log
                      (CError "start" [field.Int32 "port" 8080; field.Bool "ok" true]))
             demo_world) = [0%nat; 1%nat]
  /\ ~ same_instance
         (effects (dispatch demo_Sprintf demo_clock None demo_iteration demo_log
                     (CError "start" [field.Int32 "port" 8080; field.Bool "ok" true]))
            demo_world).
Proof.
  assert (H : written (effects (dispatch demo_Sprintf demo_clock None demo_iteration demo_log
                      (CError "start" [field.Int32 "port" 8080; field.Bool "ok" true]))
             demo_world) = [0%nat; 1%nat]) by (vm_compute; reflexivity).
  split; [exact H|].
  intros Hsame. unfold same_instance in Hsame. rewrite H in Hsame.
  assert (Heq : 0%nat = 1%nat) by (apply Hsame; [left|right; left]).
  discriminate Heq.
Qed.

(** Scenario A: one binding at info, a call at debug, no write. *)
Example scenario_A :
  writes (effects (dispatch demo_Sprintf demo_clock None demo_iteration
                     (AddFilter "out" Level.INFO 0 ∅) (CDebugf "state %d" [AInt 3]))
            demo_world)
  = [].
Proof. vm_compute. reflexivity. Qed.

(** Scenario B: a call at error with the format disk-percent-s and the
    argument full reaches the one binding once, with the message
    rendered. *)
Example scenario_B :
  let call := dispatch demo_Sprintf demo_clock None demo_iteration quiet_log
                (CLogf Level.ERROR "disk %s" [AString "full"]) in
  writes (effects call demo_world) = [("out", 0%nat)]
  /\ rec_Message <$> w_heap (final call demo_world) = ["disk full"].
Proof. vm_compute. split; reflexivity. Qed.

(** Scenario C at error: both bindings are written to, once each. *)
Example scenario_C_error :
  writes (effects (dispatch demo_Sprintf demo_clock None demo_iteration demo_log
                     (CError "disk full" [])) demo_world)
  ≡ₚ [("out", 0%nat); ("file", 1%nat)].
Proof. vm_compute. apply perm_swap. Qed.

(** Scenario C at warning: only the binding at warning is written to. *)
Example scenario_C_warning :
  writes (effects (dispatch demo_Sprintf demo_clock None demo_iteration demo_log
                     (CWarn "low disk" [])) demo_world)
  = [("out", 0%nat)].
Proof. vm_compute. reflexivity. Qed.

(** Scenario D, evaluated: the bytes of the line, the double quotes
    written as [dquote]. *)
Example scenario_D_line :
  EncodeJson (fun _ _ => []) (fun _ _ _ => None) scenario_D_record newJsonEncoder
  = Some (string_of_list_ascii
            (bytes_of "{" ++ quoted "time" ++ bytes_of ":" ++ quoted "2024-03-07 09:05:00.00000"
             ++ bytes_of "," ++ quoted "message" ++ bytes_of ":" ++ quoted "start"
             ++ bytes_of "," ++ quoted "level" ++ bytes_of ":" ++ quoted "INFO"
             ++ bytes_of "," ++ quoted "file" ++ bytes_of ":" ++ quoted "main.go:12"
             ++ bytes_of "," ++ quoted "port" ++ bytes_of ": 8080"
             ++ bytes_of "," ++ quoted "ok" ++ bytes_of ": true"
             ++ bytes_of "}" ++ [newline])).
Proof. vm_compute. reflexivity. Qed.

Lemma scenario_D_keys :
  Forall (fun f => percent_free (f_Key f)) (rec_Fields scenario_D_record).
Proof. repeat constructor; unfold percent_free; simpl; percent_out. Defined.

Lemma scenario_D_known : known (rec_Fields scenario_D_record) = rec_Fields scenario_D_record.
Proof.
  unfold scenario_D_record, known, field.Int32, field.Bool. cbn [rec_Fields].
  rewrite !filter_cons, filter_nil, !decide_True by discriminate. reflexivity.
Defined.

Lemma EncodeString_line_witness :
  rec_Fields scenario_D_record <> []
  /\ ("%"%char ∉ buf newJsonEncoder)
  /\ percent_free (rec_Message scenario_D_record)
  /\ EncodeString (fun _ => []) scenario_D_record newJsonEncoder
     = Some (string_of_list_ascii
               (buf newJsonEncoder ++ text_line (fun _ => []) scenario_D_record))
  /\ EncodeString_v1 (fun _ => []) scenario_D_record newJsonEncoder
     = Some (string_of_list_ascii
               (buf newJsonEncoder ++ text_line_v1 (fun _ => []) scenario_D_record)).
Proof.
  assert (Hne : rec_Fields scenario_D_record <> []) by discriminate.
  assert (Hbuf : "%"%char ∉ buf newJsonEncoder) by apply not_elem_of_nil.
  assert (Hmsg : percent_free (rec_Message scenario_D_record))
    by (unfold percent_free; simpl; percent_out).
  split; [exact Hne|]. split; [exact Hbuf|]. split; [exact Hmsg|].
  destruct (proj2 (EncodeString_line (fun _ => []) scenario_D_record newJsonEncoder)
              Hne Hbuf Hmsg) as [Hnow Hthen].
  split.
  - apply Hnow.
    + rewrite scenario_D_known. exact scenario_D_keys.
    + rewrite scenario_D_known.
      repeat constructor; unfold bool_stored; simpl; try discriminate.
      intros _. now exists true.
  - apply Hthen. exact scenario_D_keys.
Defined.

(** Scenario D in text mode, evaluated: the line ends in a space. *)
Example scenario_D_text :
  EncodeString (fun _ => []) scenario_D_record newJsonEncoder
  = Some "start port:8080 ok:true ".
Proof. vm_compute. reflexivity. Qed.

(** C6 (counterexample).  For the message m and the one field k, an
    int32 of value 1, the specified line is the five bytes of m, space,
    k, colon, 1; the encoder returns those five bytes and a space. *)
Lemma EncodeString_trailing_space :
  string_of_list_ascii (text_line_as_specified (fun _ => []) one_field_record) = "m k:1"
  /\ EncodeString (fun _ => []) one_field_record newJsonEncoder = Some "m k:1 "
  /\ EncodeString (fun _ => []) one_field_record newJsonEncoder
     <> Some (string_of_list_ascii (text_line_as_specified (fun _ => []) one_field_record)).
Proof.
  assert (H1 : string_of_list_ascii (text_line_as_specified (fun _ => []) one_field_record)
               = "m k:1") by (vm_compute; reflexivity).
  assert (H2 : EncodeString (fun _ => []) one_field_record newJsonEncoder = Some "m k:1 ")
    by (vm_compute; reflexivity).
  split; [exact H1|]. split; [exact H2|].
  rewrite H1, H2. discriminate.
Qed.

(** The earlier form of [EncodeString] on the same record: the key
    follows the message without a space, and the line ends in a space
    as well. *)
Example EncodeString_v1_line :
  EncodeString_v1 (fun _ => []) one_field_record newJsonEncoder = Some "mk:1 ".
Proof. vm_compute. reflexivity. Qed.

(** *** The escaped text *)

Lemma WellFormed_high (w : list ascii) :
  WellFormed w -> Forall (fun b => 0x80 <= byte_val b) w.
Proof. intros H. destruct H; repeat constructor; lia. Qed.

Lemma hex_digit_facts (n : Z) :
  0 <= n < 16 -> is_hex (hex_digit n) = true /\ hex_val (hex_digit n) = n.
Proof.
  intros Hn.
  assert (Hall : forallb (fun k => is_hex (hex_digit (Z.of_nat k))
                                   && (hex_val (hex_digit (Z.of_nat k)) =? Z.of_nat k))
                   (seq 0 16) = true) by (vm_compute; reflexivity).
  rewrite forallb_forall in Hall.
  assert (Hin : In (Z.to_nat n) (seq 0 16)) by (apply in_seq; lia).
  specialize (Hall _ Hin). rewrite Z2Nat.id in Hall by lia.
  apply andb_true_iff in Hall as [H1 H2]. apply Z.eqb_eq in H2. auto.
Qed.

Lemma byte_of_val_byte_val (b : ascii) : byte_of_val (byte_val b) = b.
Proof. unfold byte_of_val, byte_val. rewrite N2Z.id. apply ascii_N_embedding. Qed.

Lemma high_bytes_body (w out : list ascii) :
  Forall (fun b => 0x80 <= byte_val b) w ->
  json_string_body (w ++ out) = json_string_body out.
Proof.
  induction 1 as [|b w Hb _ IH]; [reflexivity|].
  cbn [app json_string_body].
  destruct (decide (b = backslash)) as [->|_]; [exfalso; norm_bytes; lia|].
  destruct (decide (b = dquote)) as [->|_]; [exfalso; norm_bytes; lia|].
  rewrite IH. destruct (Z.leb_spec 0x20 (byte_val b)); [reflexivity|lia].
Qed.

Lemma Escaped_body (s out : list ascii) : Escaped s out -> json_string_body out = true.
Proof.
  induction 1 as [|b rest out Hb Hnb Hnq H1 IH|rest out H1 IH|rest out H1 IH
                  |rest out H1 IH|rest out H1 IH|rest out H1 IH
                  |b rest out Hb Hn Hr Ht H1 IH|w rest out Hw H1 IH
                  |b rest out Hb Hnone H1 IH]; try exact IH; try reflexivity.
  - cbn [json_string_body].
    rewrite decide_False by exact Hnb. rewrite decide_False by exact Hnq.
    rewrite IH. destruct (Z.leb_spec 0x20 (byte_val b)); [reflexivity|lia].
  - pose proof (byte_val_range b) as Rb.
    destruct (hex_digit_facts (byte_val b / 16)) as [H16 _].
    { split; [apply Z.div_pos; lia|apply Z.div_lt_upper_bound; lia]. }
    destruct (hex_digit_facts (byte_val b mod 16)) as [Hm _].
    { apply Z.mod_pos_bound. lia. }
    cbn [app json_string_body]. rewrite H16, Hm, IH. reflexivity.
  - rewrite high_bytes_body; [exact IH|now apply WellFormed_high].
Qed.

(** X3.  Whatever the string and whatever the buffer already holds,
    what [safeAddString] appends is the body of a JSON string: it holds
    no control byte, no quote and no backslash other than in an escape,
    and every escape is complete.  Appended between two quotes, as
    [AddString] and the key of every pair are, it cannot end the string
    early. *)
Theorem safeAddString_json_string_body (s : string) (enc : jsonEncoder) :
  exists out, buf (safeAddString s enc) = buf enc ++ out
              /\ json_string_body out = true.
Proof.
  destruct (safeAddString_run s) as [Hrun Hesc].
  exists (escape s). split; [now rewrite Hrun|].
  exact (Escaped_body _ _ Hesc).
Qed.

Lemma plain_Escaped (l : list ascii) : Forall plain_byte l -> Escaped l l.
Proof.
  induction 1 as [|b l (Hr & Hb & Hq) _ IH]; [constructor|].
  now apply Esc_plain.
Qed.

(** X4.  A text made of ASCII bytes from 0x20 on other than the quote and
    the backslash is appended to the buffer byte for byte. *)
Theorem safeAddString_plain_unchanged (s : string) (enc : jsonEncoder) :
  Forall plain_byte (bytes_of s) ->
  buf (safeAddString s enc) = buf enc ++ bytes_of s.
Proof.
  intros Hp. destruct (safeAddString_run s) as [Hrun Hesc].
  rewrite Hrun. cbn [appendBytes buf]. f_equal.
  exact (Escaped_functional _ _ Hesc _ (plain_Escaped _ Hp)).
Qed.

Lemma safeAddString_plain_unchanged_witness :
  buf (safeAddString "port" newJsonEncoder) = bytes_of "port".
Proof.
  apply (safeAddString_plain_unchanged "port" newJsonEncoder).
  repeat constructor; try (vm_compute; discriminate); discriminate.
Defined.

Lemma ValidUTF8_ascii_tail (b : ascii) (rest : list ascii) :
  byte_val b < 0x80 -> ValidUTF8 (b :: rest) -> ValidUTF8 rest.
Proof.
  intros Hb Hv. inversion Hv as [|b' rest' _ Hrest|w rest' Hw Hrest Heq]; subst; [exact Hrest|].
  destruct (WellFormed_first w Hw) as (b0 & b1 & t & -> & Hr).
  simpl in Heq. simplify_eq. lia.
Qed.

Lemma ValidUTF8_multi_tail (w rest : list ascii) :
  WellFormed w -> ValidUTF8 (w ++ rest) -> ValidUTF8 rest.
Proof.
  intros Hw Hv.
  destruct (WellFormed_first w Hw) as (b0 & b1 & t & Hshape & Hr).
  inversion Hv as [Heq|b' rest' Hb' Hrest Heq|w' rest' Hw' Hrest Heq].
  - rewrite Hshape in Heq. discriminate.
  - rewrite Hshape in Heq. simpl in Heq. simplify_eq. lia.
  - now destruct (WellFormed_prefix_unique _ _ _ _ Hw' Hw Heq) as [_ <-].
Qed.

Lemma ValidUTF8_high_head (b : ascii) (rest : list ascii) :
  0x80 <= byte_val b -> ValidUTF8 (b :: rest) ->
  exists w t, b :: rest = w ++ t /\ WellFormed w.
Proof.
  intros Hb Hv. inversion Hv as [|b' rest' Hb' _|w rest' Hw _ Heq]; subst; [lia|].
  now exists w, rest'.
Qed.

Lemma high_bytes_unescape (w out : list ascii) :
  Forall (fun b => 0x80 <= byte_val b) w -> unescape (w ++ out) = w ++ unescape out.
Proof.
  induction 1 as [|b w Hb _ IH]; [reflexivity|].
  cbn [app unescape].
  destruct (decide (b = backslash)) as [->|_]; [exfalso; norm_bytes; lia|].
  now rewrite IH.
Qed.

Lemma Escaped_unescape (s out : list ascii) :
  Escaped s out -> ValidUTF8 s -> unescape out = s.
Proof.
  induction 1 as [|b rest out Hb Hnb Hnq H1 IH|rest out H1 IH|rest out H1 IH
                  |rest out H1 IH|rest out H1 IH|rest out H1 IH
                  |b rest out Hb Hn Hr Ht H1 IH|w rest out Hw H1 IH
                  |b rest out Hb Hnone H1 IH]; intros Hv.
  - reflexivity.
  - apply ValidUTF8_ascii_tail in Hv; [|lia].
    cbn [unescape]. rewrite decide_False by exact Hnb. now rewrite IH.
  - apply ValidUTF8_ascii_tail in Hv; [|norm_bytes; lia].
    change (unescape (backslash :: backslash :: out)) with (backslash :: unescape out).
    now rewrite IH.
  - apply ValidUTF8_ascii_tail in Hv; [|norm_bytes; lia].
    change (unescape (backslash :: dquote :: out)) with (dquote :: unescape out).
    now rewrite IH.
  - apply ValidUTF8_ascii_tail in Hv; [|norm_bytes; lia].
    change (unescape (backslash :: "n"%char :: out)) with (newline :: unescape out).
    now rewrite IH.
  - apply ValidUTF8_ascii_tail in Hv; [|norm_bytes; lia].
    change (unescape (backslash :: "r"%char :: out)) with (creturn :: unescape out).
    now rewrite IH.
  - apply ValidUTF8_ascii_tail in Hv; [|norm_bytes; lia].
    change (unescape (backslash :: "t"%char :: out)) with (tab :: unescape out).
    now rewrite IH.
  - apply ValidUTF8_ascii_tail in Hv; [|lia].
    pose proof (byte_val_range b) as Rb.
    destruct (hex_digit_facts (byte_val b / 16)) as [_ H16].
    { split; [apply Z.div_pos; lia|apply Z.div_lt_upper_bound; lia]. }
    destruct (hex_digit_facts (byte_val b mod 16)) as [_ Hm].
    { apply Z.mod_pos_bound. lia. }
    change (unescape ([backslash; "u"%char; "0"%char; "0"%char;
                       hex_digit (byte_val b / 16); hex_digit (byte_val b mod 16)] ++ out))
      with (byte_of_val (16 * hex_val (hex_digit (byte_val b / 16))
                         + hex_val (hex_digit (byte_val b mod 16))) :: unescape out).
    rewrite H16, Hm, IH by exact Hv.
    rewrite <- Z.div_mod by lia. now rewrite byte_of_val_byte_val.
  - rewrite high_bytes_unescape by now apply WellFormed_high.
    rewrite IH; [reflexivity|]. now apply (ValidUTF8_multi_tail w).
  - exfalso. destruct (ValidUTF8_high_head b rest Hb Hv) as (w & t & Heq & Hw).
    exact (Hnone w t Heq Hw).
Qed.

Lemma bytes_of_inj (s1 s2 : string) : bytes_of s1 = bytes_of s2 -> s1 = s2.
Proof.
  unfold bytes_of. intros H.
  rewrite <- (string_of_list_ascii_of_string s1), <- (string_of_list_ascii_of_string s2).
  now rewrite H.
Qed.

(** X5.  On valid UTF-8 the escaping loses nothing: two different
    valid texts leave different bytes in the buffer.  (Texts that are
    not valid UTF-8 can collide: every undecodable byte becomes the same
    escape.) *)
Theorem safeAddString_injective_on_valid (s1 s2 : string) (enc : jsonEncoder) :
  ValidUTF8 (bytes_of s1) -> ValidUTF8 (bytes_of s2) -> s1 <> s2 ->
  buf (safeAddString s1 enc) <> buf (safeAddString s2 enc).
Proof.
  intros H1 H2 Hne Heq. apply Hne.
  destruct (safeAddString_run s1) as [Hrun1 Hesc1].
  destruct (safeAddString_run s2) as [Hrun2 Hesc2].
  rewrite Hrun1, Hrun2 in Heq. cbn [appendBytes buf] in Heq.
  apply app_inv_head in Heq.
  apply bytes_of_inj.
  rewrite <- (Escaped_unescape _ _ Hesc1 H1), <- (Escaped_unescape _ _ Hesc2 H2).
  now rewrite Heq.
Qed.

Lemma Escaped_length (s out : list ascii) :
  Escaped s out -> (length s <= length out <= 6 * length s)%nat.
Proof.
  induction 1 as [|b rest out Hb Hnb Hnq H1 IH|rest out H1 IH|rest out H1 IH
                  |rest out H1 IH|rest out H1 IH|rest out H1 IH
                  |b rest out Hb Hn Hr Ht H1 IH|w rest out Hw H1 IH
                  |b rest out Hb Hnone H1 IH];
    unfold replacement; rewrite ?length_app; cbn [length] in *; lia.
Qed.

(** X6.  [safeAddString] appends at least one byte for every byte of the
    text and at most six. *)
Theorem safeAddString_length (s : string) (enc : jsonEncoder) :
  (length (buf enc) + length (bytes_of s) <= length (buf (safeAddString s enc))
   <= length (buf enc) + 6 * length (bytes_of s))%nat.
Proof.
  destruct (safeAddString_run s) as [Hrun Hesc]. rewrite Hrun.
  cbn [appendBytes buf]. rewrite length_app.
  pose proof (Escaped_length _ _ Hesc). lia.
Qed.

Lemma Escaped_app (s1 o1 : list ascii) :
  Escaped s1 o1 -> ValidUTF8 s1 ->
  forall s2 o2, Escaped s2 o2 -> Escaped (s1 ++ s2) (o1 ++ o2).
Proof.
  induction 1 as [|b rest out Hb Hnb Hnq H1 IH|rest out H1 IH|rest out H1 IH
                  |rest out H1 IH|rest out H1 IH|rest out H1 IH
                  |b rest out Hb Hn Hr Ht H1 IH|w rest out Hw H1 IH
                  |b rest out Hb Hnone H1 IH]; intros Hv s2 o2 H2.
  - exact H2.
  - apply ValidUTF8_ascii_tail in Hv; [|lia]. cbn [app]. apply Esc_plain; auto.
  - apply ValidUTF8_ascii_tail in Hv; [|norm_bytes; lia]. cbn [app]. apply Esc_backslash; auto.
  - apply ValidUTF8_ascii_tail in Hv; [|norm_bytes; lia]. cbn [app]. apply Esc_quote; auto.
  - apply ValidUTF8_ascii_tail in Hv; [|norm_bytes; lia]. cbn [app]. apply Esc_newline; auto.
  - apply ValidUTF8_ascii_tail in Hv; [|norm_bytes; lia]. cbn [app]. apply Esc_return; auto.
  - apply ValidUTF8_ascii_tail in Hv; [|norm_bytes; lia]. cbn [app]. apply Esc_tab; auto.
  - apply ValidUTF8_ascii_tail in Hv; [|lia].
    rewrite <- app_assoc. cbn [app].
    apply (Esc_control b (rest ++ s2) (out ++ o2)); auto.
  - rewrite <- !app_assoc. apply Esc_multi; [exact Hw|].
    apply IH; [now apply (ValidUTF8_multi_tail w)|exact H2].
  - exfalso. destruct (ValidUTF8_high_head b rest Hb Hv) as (w & t & Heq & Hw).
    exact (Hnone w t Heq Hw).
Qed.

Lemma bytes_of_app (s1 s2 : string) : bytes_of (s1 +:+ s2) = bytes_of s1 ++ bytes_of s2.
Proof.
  unfold bytes_of. induction s1 as [|c s1 IH]; [reflexivity|].
  simpl. now rewrite <- IH.
Qed.

(** X7.  Escaping a concatenation whose first part is valid UTF-8 is
    escaping the first part and then the second. *)
Theorem safeAddString_concat (s1 s2 : string) (enc : jsonEncoder) :
  ValidUTF8 (bytes_of s1) ->
  safeAddString (s1 +:+ s2) enc = safeAddString s2 (safeAddString s1 enc).
Proof.
  intros Hv.
  destruct (safeAddString_run s1) as [Hrun1 Hesc1].
  destruct (safeAddString_run s2) as [Hrun2 Hesc2].
  destruct (safeAddString_run (s1 +:+ s2)) as [Hrun Hesc].
  rewrite Hrun, Hrun1, Hrun2, appendBytes_appendBytes. f_equal.
  rewrite bytes_of_app in Hesc.
  exact (Escaped_functional _ _ Hesc _ (Escaped_app _ _ Hesc1 Hv _ _ Hesc2)).
Qed.

(** *** Fields in JSON mode *)

Lemma wrap_signed_small (w v : Z) :
  0 < w -> - 2 ^ (w - 1) <= v < 2 ^ (w - 1) -> wrap_signed w v = v.
Proof.
  intros Hw Hv. unfold wrap_signed.
  assert (H2 : 2 ^ w = 2 * 2 ^ (w - 1)).
  { replace w with (1 + (w - 1)) at 1 by lia. rewrite Z.pow_add_r by lia. reflexivity. }
  rewrite Z.mod_small; lia.
Qed.

Lemma wrap_signed_8_id (v : Z) : - 2 ^ 7 <= v < 2 ^ 7 -> wrap_signed 8 v = v.
Proof. intros Hv. apply wrap_signed_small; [lia|]. change (8 - 1) with 7. lia. Qed.

Lemma wrap_signed_32_id (v : Z) : - 2 ^ 31 <= v < 2 ^ 31 -> wrap_signed 32 v = v.
Proof. intros Hv. apply wrap_signed_small; [lia|]. change (32 - 1) with 31. lia. Qed.

Lemma wrap_unsigned_small (w v : Z) : 0 <= v < 2 ^ w -> wrap_unsigned w v = v.
Proof. intros Hv. unfold wrap_unsigned. now apply Z.mod_small. Qed.

Lemma Uint8_stored (v : Z) :
  0 <= v < 2 ^ 8 ->
  wrap_unsigned 64 (wrap_signed 8 (wrap_signed 64 v))
  = if v <? 2 ^ 7 then v else 2 ^ 64 - 2 ^ 8 + v.
Proof.
  intros Hv. rewrite (wrap_signed_64_id v) by lia.
  unfold wrap_signed, wrap_unsigned.
  change (2 ^ (8 - 1)) with 128. change (2 ^ 8) with 256 in *.
  change (2 ^ 7) with 128. change (2 ^ 64) with 18446744073709551616.
  destruct (Z.ltb_spec v 128).
  - rewrite (Z.mod_small (v + 128)) by lia. rewrite Z.mod_small; lia.
  - replace (v + 128) with (v - 128 + 1 * 256) by lia.
    rewrite Z.mod_add by lia. rewrite (Z.mod_small (v - 128)) by lia.
    replace (v - 128 - 128) with (18446744073709551616 - 256 + v + (-1) * 18446744073709551616)
      by lia.
    rewrite Z.mod_add by lia. rewrite Z.mod_small; lia.
Qed.

(** X8.  In JSON mode the pair of a field built by [Uint8] carries the
    value only when it is below 128: [AddTo] passes the stored integer
    as an [int8] and [AddUint8] converts that to [uint64], so a value
    from 128 to 255 is written as the value plus 2^64 - 256. *)
Theorem Uint8_renders_through_int8 (FormatFloat : Z -> Z -> list ascii)
    (AddInterface : string -> any -> jsonEncoder -> option jsonEncoder)
    (key : string) (v : Z) (enc : jsonEncoder) :
  left enc = false -> 0 <= v < 2 ^ 8 ->
  rendered FormatFloat AddInterface (field.Uint8 key v) enc
  = Some (buf enc ++ pair_text key
                       (FormatUint (if v <? 2 ^ 7 then v else 2 ^ 64 - 2 ^ 8 + v))).
Proof.
  intros Hl Hv. unfold rendered, AddTo, field.Uint8.
  cbn [f_Type f_Key f_Integer fmap option_fmap option_map]. unfold AddUint8.
  rewrite addKey_buf by exact Hl. cbn [appendBytes buf]. now rewrite Uint8_stored.
Qed.

Lemma Uint8_renders_through_int8_witness :
  rendered (fun _ _ => []) (fun _ _ _ => None) (field.Uint8 "n" 200) newJsonEncoder
  = Some (bytes_of "," ++ [dquote] ++ bytes_of "n" ++ [dquote]
          ++ bytes_of ": 18446744073709551560").
Proof.
  rewrite (Uint8_renders_through_int8 (fun _ _ => []) (fun _ _ _ => None) "n" 200
             newJsonEncoder eq_refl ltac:(lia)).
  vm_compute. reflexivity.
Defined.

(** X9.  What [AddTo] writes for the field [Any] builds: for a value of
    one of the integer types int, int8, uint8, int32, uint32, int64, the
    pair with the decimal numeral of the value; for a uint64, the pair
    with the numeral of the value converted to int64 (negative above
    2^63 - 1); for a text, the pair with the escaped text between
    quotes; for every other value, whatever the encoder's
    [AddInterface] does. *)
Theorem Any_renders (FormatFloat : Z -> Z -> list ascii)
    (AddInterface : string -> any -> jsonEncoder -> option jsonEncoder)
    (key : string) (value : any) (enc : jsonEncoder) :
  left enc = false -> any_wf value ->
  match value with
  | AInt v | AInt8 v | AUint8 v | AInt32 v | AUint32 v | AInt64 v =>
    rendered FormatFloat AddInterface (field.Any key value) enc
    = Some (buf enc ++ pair_text key (FormatInt v))
  | AUint64 v =>
    rendered FormatFloat AddInterface (field.Any key value) enc
    = Some (buf enc ++ pair_text key (FormatInt (int64_of_uint64 v)))
  | AString s =>
    rendered FormatFloat AddInterface (field.Any key value) enc
    = Some (buf enc ++ pair_text key (quoted_escaped s))
  | _ =>
    AddTo FormatFloat AddInterface (field.Any key value) enc = AddInterface key value enc
  end.
Proof.
  intros Hl Hwf. unfold rendered.
  destruct value; cbn [any_wf] in Hwf; try reflexivity;
    unfold AddTo, field.Any;
    cbn [f_Type f_Key f_Integer f_String f_Interface fmap option_fmap option_map];
    unfold AddInt; rewrite ?AddString_buf by exact Hl; rewrite ?addKey_buf by exact Hl; cbn [appendBytes buf];
    try reflexivity.
  all: try (rewrite !(wrap_signed_64_id v) by lia; reflexivity).
  rewrite (wrap_signed_64_uint64 v) by exact Hwf.
  assert (Hr : - 2 ^ 63 <= int64_of_uint64 v < 2 ^ 63).
  { unfold int64_of_uint64. destruct (Z.ltb_spec v (2 ^ 63)); lia. }
  rewrite !(wrap_signed_64_id (int64_of_uint64 v)) by exact Hr. reflexivity.
Qed.

Lemma Any_renders_witness :
  rendered (fun _ _ => []) (fun _ _ _ => None) (field.Any "n" (AUint64 (2 ^ 64 - 1)))
    newJsonEncoder
  = Some (bytes_of "," ++ [dquote] ++ bytes_of "n" ++ [dquote] ++ bytes_of ": -1").
Proof.
  rewrite (Any_renders (fun _ _ => []) (fun _ _ _ => None) "n" (AUint64 (2 ^ 64 - 1))
             newJsonEncoder eq_refl ltac:(simpl; lia)).
  vm_compute. reflexivity.
Defined.

(** *** Fields in text mode *)

Lemma one_field_text (fmtV : any -> list ascii) (lvl : Z) (created : Time)
    (src msg : string) (json : bool) (f : Field) :
  percent_free msg -> percent_free (f_Key f) ->
  f_Type f <> UnknownType -> bool_stored f ->
  EncodeString fmtV (mkRecord lvl created src msg json [f]) newJsonEncoder
  = Some (string_of_list_ascii
            (bytes_of msg ++ bytes_of " " ++ bytes_of (f_Key f) ++ bytes_of ":"
             ++ text_value fmtV f ++ bytes_of " ")).
Proof.
  intros Hmsg Hkey Hk Hb.
  assert (Hkn : known [f] = [f]).
  { unfold known. rewrite filter_cons, filter_nil. now rewrite decide_True by exact Hk. }
  destruct (EncodeString_with_fields fmtV (mkRecord lvl created src msg json [f])
              newJsonEncoder) as [Hnow _];
    [discriminate|apply not_elem_of_nil|exact Hmsg|].
  rewrite Hnow; cbn [rec_Fields rec_Message];
    rewrite ?Hkn; try (repeat constructor; assumption).
  unfold text_line. cbn [rec_Fields rec_Message buf newJsonEncoder app]. rewrite Hkn.
  cbn [map concat]. now rewrite app_nil_r.
Qed.

(** X10.  Text mode, for a record with one field built by a
    constructor, a message and a key without a percent sign, on an
    encoder with an empty buffer: the line is the message, a space, the
    key, a colon, the value and a space, where the value is the decimal
    numeral of the number given to the constructor for the kinds int,
    int8, int32, int64, uint8 and uint32, the numeral of the value
    converted to int64 for the kind uint64 (negative above 2^63 - 1),
    true or false for a boolean, the text as it is for a text, and the
    generic rendering for a float. *)
Theorem constructed_fields_in_text_mode (fmtV : any -> list ascii) (lvl : Z)
    (created : Time) (src msg : string) (json : bool) (key : string) :
  percent_free msg -> percent_free key ->
  let shows f value :=
    EncodeString fmtV (mkRecord lvl created src msg json [f]) newJsonEncoder
    = Some (string_of_list_ascii
              (bytes_of msg ++ bytes_of " " ++ bytes_of key ++ bytes_of ":"
               ++ value ++ bytes_of " ")) in
  (forall v, - 2 ^ 63 <= v < 2 ^ 63 -> shows (field.Int key v) (FormatInt v))
  /\ (forall v, - 2 ^ 7 <= v < 2 ^ 7 -> shows (field.Int8 key v) (FormatInt v))
  /\ (forall v, - 2 ^ 31 <= v < 2 ^ 31 -> shows (field.Int32 key v) (FormatInt v))
  /\ (forall v, - 2 ^ 63 <= v < 2 ^ 63 -> shows (field.Int64 key v) (FormatInt v))
  /\ (forall v, 0 <= v < 2 ^ 8 -> shows (field.Uint8 key v) (FormatInt v))
  /\ (forall v, 0 <= v < 2 ^ 32 -> shows (field.Uint32 key v) (FormatInt v))
  /\ (forall v, 0 <= v < 2 ^ 64 ->
        shows (field.Uint64 key v) (FormatInt (int64_of_uint64 v)))
  /\ (forall b, shows (field.Bool key b) (FormatBool b))
  /\ (forall s, shows (field.String key s) (bytes_of s))
  /\ (forall bits, shows (field.Float32 key bits) (fmtV (AFloat32 bits)))
  /\ (forall bits, shows (field.Float64 key bits) (fmtV (AFloat64 bits))).
Proof.
  intros Hmsg Hkey shows. subst shows. cbv beta.
  repeat split; intros;
    match goal with
    | |- EncodeString _ (mkRecord _ _ _ _ _ [?f]) _ = _ =>
      rewrite (one_field_text fmtV lvl created src msg json f Hmsg Hkey);
        [|discriminate|unfold bool_stored; cbn; first [discriminate|eauto]]
    end;
    cbn [f_Key text_value f_Type f_Integer f_String f_Interface field.Int field.Int8
         field.Int32 field.Int64 field.Uint8 field.Uint32 field.Uint64 field.Bool
         field.String field.Float32 field.Float64];
    rewrite ?(wrap_signed_64_id v) by lia; try reflexivity.
  now rewrite wrap_signed_64_uint64.
Qed.

Lemma Sprintf_percent (fmtV : any -> list ascii) (rest : list ascii) (args : list any) :
  Sprintf fmtV ("%"%char :: "%"%char :: rest) args = ("%"%char ::.) <$> Sprintf fmtV rest args.
Proof.
  cbn [Sprintf].
  destruct (decide ("%"%char = "%"%char)) as [_|Hne]; [reflexivity|congruence].
Qed.

(** X11.  When a record has fields, [EncodeString] hands the message
    to [fmt.Sprintf] as part of the format: a doubled percent sign in
    the message comes out as a single one.  (Without fields the message
    is returned as it is.) *)
Theorem EncodeString_message_is_a_format (fmtV : any -> list ascii) (record : LogRecord)
    (enc : jsonEncoder) (m1 m2 : list ascii) :
  rec_Fields record <> [] ->
  buf enc = [] ->
  bytes_of (rec_Message record) = m1 ++ ["%"%char; "%"%char] ++ m2 ->
  "%"%char ∉ m1 -> "%"%char ∉ m2 ->
  Forall (fun f => percent_free (f_Key f)) (known (rec_Fields record)) ->
  Forall bool_stored (known (rec_Fields record)) ->
  EncodeString fmtV record enc
  = Some (string_of_list_ascii
            (m1 ++ ["%"%char] ++ m2 ++ bytes_of " "
             ++ concat (map (fun f => bytes_of (f_Key f) ++ bytes_of ":"
                                      ++ text_value fmtV f ++ bytes_of " ")
                          (known (rec_Fields record))))).
Proof.
  intros Hne Hbuf Hmsg H1 H2 Hkeys Hbool. unfold EncodeString.
  destruct (rec_Fields record) as [|f fs] eqn:Hfs; [congruence|].
  change (Z.of_nat (length (f :: fs)) <=? 0) with false. cbv iota.
  rewrite placeholders_spec.
  unfold appendString. rewrite appendByte_appendBytes, !appendBytes_appendBytes.
  unfold appendBytes. cbn [buf]. rewrite Hbuf, app_nil_l, app_nil_l, Hmsg.
  rewrite <- !app_assoc.
  rewrite Sprintf_plain by exact H1.
  cbn [app]. rewrite Sprintf_percent.
  rewrite Sprintf_plain by exact H2.
  match goal with
  | |- context [Sprintf fmtV (" "%char :: ?r) ?a] =>
    change (Sprintf fmtV (" "%char :: r) a) with (Sprintf fmtV ([" "%char] ++ r) a)
  end.
  rewrite (Sprintf_plain fmtV [" "%char]) by percent_out.
  rewrite Sprintf_placeholders by assumption.
  cbn [fmap option_fmap option_map]. reflexivity.
Qed.

Lemma EncodeString_message_is_a_format_witness :
  EncodeString (fun _ => []) (mkRecord Level.INFO (demo_clock 0) "main.go:12" "100%% done" true
                                [field.Int32 "k" 1]) newJsonEncoder
  = Some "100% done k:1 ".
Proof.
  rewrite (EncodeString_message_is_a_format (fun _ => []) _ newJsonEncoder
             (bytes_of "100") (bytes_of " done")).
  - vm_compute. reflexivity.
  - discriminate.
  - reflexivity.
  - reflexivity.
  - percent_out.
  - percent_out.
  - unfold known, field.Int32. cbn [rec_Fields].
    rewrite !filter_cons, filter_nil, !decide_True by discriminate.
    repeat constructor; unfold percent_free; simpl; percent_out.
  - unfold known, field.Int32. cbn [rec_Fields].
    rewrite !filter_cons, filter_nil, !decide_True by discriminate.
    repeat constructor; unfold bool_stored; simpl; discriminate.
Defined.

(** *** The JSON line holds no control byte *)

Ltac printable_bytes := repeat constructor; vm_compute; discriminate.

Lemma FormatInt_printable (v : Z) : Forall printable (FormatInt v).
Proof.
  assert (H : forall d, Forall printable (bytes_of (NilEmpty.string_of_uint d))).
  { induction d; cbn; constructor; try exact IHd; vm_compute; discriminate. }
  assert (H0 : forall d, Forall printable (bytes_of (NilZero.string_of_uint d))).
  { destruct d; try apply H. printable_bytes. }
  unfold FormatInt. destruct (Z.to_int v) as [d|d]; cbn [NilZero.string_of_int].
  - apply H0.
  - unfold bytes_of. cbn [list_ascii_of_string]. constructor; [vm_compute; discriminate|].
    apply H0.
Qed.

Lemma FormatUint_printable (v : Z) : Forall printable (FormatUint v).
Proof. apply FormatInt_printable. Qed.

Lemma FormatBool_printable (b : bool) : Forall printable (FormatBool b).
Proof. destruct b; printable_bytes. Qed.

Lemma pad0_printable (w : nat) (v : Z) : Forall printable (pad0 w v).
Proof.
  unfold pad0. cbv zeta. repeat apply Forall_app_2.
  - destruct (v <? 0); printable_bytes.
  - apply Forall_replicate. vm_compute. discriminate.
  - apply FormatInt_printable.
Qed.

Lemma formatCreated_printable (t : Time) : Forall printable (formatCreated t).
Proof.
  unfold formatCreated.
  repeat first [apply pad0_printable | printable_bytes | apply Forall_app_2].
Qed.

Lemma quoted_printable (s : string) :
  Forall printable (bytes_of s) -> Forall printable (quoted s).
Proof.
  intros H. unfold quoted. repeat apply Forall_app_2; [printable_bytes|exact H|printable_bytes].
Qed.

Lemma Level_String_printable (l : Z) (lvl : string) :
  Level.String l = Some lvl -> Forall printable (bytes_of lvl).
Proof.
  unfold Level.String.
  destruct ((l <? 0) || (Z.of_nat (length Level.levelStrings) <? l)).
  - intros [= <-]. printable_bytes.
  - intros Hlk. apply list_elem_of_lookup_2 in Hlk.
    unfold Level.levelStrings in Hlk.
    repeat (apply elem_of_cons in Hlk as [->|Hlk]; [printable_bytes|]).
    inversion Hlk.
Qed.

Lemma Escaped_printable (s out : list ascii) : Escaped s out -> Forall printable out.
Proof.
  induction 1 as [|b rest out Hb Hnb Hnq H1 IH|rest out H1 IH|rest out H1 IH
                  |rest out H1 IH|rest out H1 IH|rest out H1 IH
                  |b rest out Hb Hn Hr Ht H1 IH|w rest out Hw H1 IH
                  |b rest out Hb Hnone H1 IH];
    try (repeat (constructor; [vm_compute; discriminate|]); exact IH).
  - constructor.
  - constructor; [unfold printable; lia|exact IH].
  - pose proof (byte_val_range b) as Rb.
    assert (Hd : forall n, 0 <= n < 16 -> printable (hex_digit n)).
    { intros n Hrange. destruct (hex_digit_facts n Hrange) as [Hh _].
      unfold is_hex in Hh. unfold printable. cbv zeta in Hh.
      repeat match type of Hh with
      | (_ || _) = true => apply orb_true_iff in Hh as [Hh|Hh]
      | (_ && _) = true => apply andb_true_iff in Hh as [Hh ?]
      end; apply Z.leb_le in Hh; lia. }
    cbn [app]. repeat (constructor; [vm_compute; discriminate|]).
    constructor; [apply Hd; split; [apply Z.div_pos; lia|apply Z.div_lt_upper_bound; lia]|].
    constructor; [apply Hd; apply Z.mod_pos_bound; lia|exact IH].
  - apply Forall_app_2; [|exact IH].
    eapply Forall_impl; [now apply WellFormed_high|]. intros b Hb. cbv beta in Hb. unfold printable. lia.
Qed.

Lemma escape_printable (s : string) : Forall printable (escape s).
Proof. destruct (safeAddString_run s) as [_ H]. exact (Escaped_printable _ _ H). Qed.

Lemma appended_pair_printable (FormatFloat : Z -> Z -> list ascii)
    (f : Field) (p : list ascii) :
  (forall w x, Forall printable (FormatFloat w x)) ->
  appended_pair FormatFloat f = Some p -> Forall printable p.
Proof.
  intros HF. unfold appended_pair. intros Hp.
  destruct (appended_value FormatFloat f) as [v|] eqn:Hv; [|discriminate].
  cbn [mbind option_bind] in Hp. injection Hp as <-.
  assert (Hval : Forall printable v).
  { unfold appended_value in Hv.
    destruct (f_Type f); try discriminate Hv;
      try (destruct (f_Interface f); try discriminate Hv);
      injection Hv as <-;
      first [ apply FormatInt_printable | apply FormatUint_printable
            | apply FormatBool_printable | apply HF | idtac ].
    all: unfold quoted_escaped; apply Forall_app_2; [printable_bytes|].
    all: apply Forall_app_2; [apply escape_printable|printable_bytes]. }
  unfold pair_text.
  apply Forall_app_2; [printable_bytes|].
  apply Forall_app_2; [printable_bytes|].
  apply Forall_app_2; [apply escape_printable|].
  apply Forall_app_2; [printable_bytes|].
  apply Forall_app_2; [printable_bytes|exact Hval].
Qed.

(** X12.  For a record whose message and source hold no control byte
    and whose fields are all of typed kinds, the line [EncodeJson]
    returns on an empty buffer ends in a newline and holds no other
    control byte: keys and text values are escaped and numbers are
    numerals, so no field can break the line.  ([strconv.AppendFloat] is
    taken to write no control byte.) *)
Theorem EncodeJson_one_line (FormatFloat : Z -> Z -> list ascii)
    (AddInterface : string -> any -> jsonEncoder -> option jsonEncoder)
    (record : LogRecord) (enc : jsonEncoder) (line : string) :
  (forall w x, Forall printable (FormatFloat w x)) ->
  left enc = false -> buf enc = [] ->
  Forall printable (bytes_of (rec_Message record)) ->
  Forall printable (bytes_of (rec_Source record)) ->
  Forall typed (rec_Fields record) ->
  EncodeJson FormatFloat AddInterface record enc = Some line ->
  exists body, bytes_of line = body ++ [newline] /\ Forall printable body.
Proof.
  intros HF Hl Hbuf Hmsg Hsrc Ht Henc.
  rewrite EncodeJson_general in Henc by assumption.
  destruct (Level.String (rec_Level record)) as [lvl|] eqn:Hlvl;
    cbn [mbind option_bind] in Henc; [|discriminate].
  destruct (mapM (appended_pair FormatFloat) (known (rec_Fields record)))
    as [pairs|] eqn:Hpairs; cbn [mbind option_bind] in Henc; [|discriminate].
  injection Henc as <-. unfold bytes_of at 1. rewrite list_ascii_of_string_of_list_ascii.
  rewrite Hbuf, app_nil_l. unfold json_line.
  apply mapM_Some in Hpairs.
  assert (Hps : Forall (Forall printable) pairs).
  { clear -Hpairs HF.
    induction Hpairs as [|f p fs ps Hp _ IH]; [constructor|].
    constructor; [|exact IH].
    exact (appended_pair_printable FormatFloat f p HF Hp). }
  pose proof (Level_String_printable _ _ Hlvl) as Hcode.
  eexists. split.
  { rewrite !app_assoc. reflexivity. }
  rewrite <- !app_assoc.
  apply Forall_app_2; [printable_bytes|].
  apply Forall_app_2; [printable_bytes|].
  apply Forall_app_2; [printable_bytes|].
  apply Forall_app_2; [apply formatCreated_printable|].
  apply Forall_app_2; [printable_bytes|].
  apply Forall_app_2; [printable_bytes|].
  apply Forall_app_2; [printable_bytes|].
  apply Forall_app_2; [now apply quoted_printable|].
  apply Forall_app_2; [printable_bytes|].
  apply Forall_app_2; [printable_bytes|].
  apply Forall_app_2; [printable_bytes|].
  apply Forall_app_2; [now apply quoted_printable|].
  apply Forall_app_2; [printable_bytes|].
  apply Forall_app_2; [printable_bytes|].
  apply Forall_app_2; [printable_bytes|].
  apply Forall_app_2; [now apply quoted_printable|].
  apply Forall_app_2; [now apply Forall_concat|].
  printable_bytes.
Qed.

(** *** The JSON line of constructed fields, and the level codes *)

Lemma Holds_appended (FormatFloat : Z -> Z -> list ascii) (f : Field) (key : string)
    (value : list ascii) :
  Holds FormatFloat f key value ->
  (f_Type f = Uint8Type -> f_Integer f < 2 ^ 7) ->
  f_Type f <> UnknownType /\ typed f
  /\ appended_pair FormatFloat f = Some (pair_text key value).
Proof.
  intros H Hu.
  destruct H; (split; [discriminate|]); (split; [unfold typed; discriminate|]);
    unfold appended_pair, appended_value;
    cbn [field.Bool field.Int field.Int8 field.Int32 field.Int64 field.Uint8 field.Uint32
         field.Uint64 field.Float32 field.Float64 field.String field.Err
         f_Type f_Key f_Integer f_String f_Interface mbind option_bind];
    try reflexivity.
  - rewrite !(wrap_signed_64_id v) by lia. reflexivity.
  - rewrite (wrap_signed_64_id v) by lia. now rewrite (wrap_signed_8_id v) by lia.
  - rewrite (wrap_signed_64_id v) by lia. now rewrite (wrap_signed_32_id v) by lia.
  - specialize (Hu eq_refl). cbn [field.Uint8 f_Integer] in Hu.
    rewrite (wrap_signed_64_id v) in * by lia.
    rewrite (wrap_signed_8_id v) by lia. now rewrite (wrap_unsigned_small 64) by lia.
  - rewrite (wrap_signed_64_id v) by lia. now rewrite (wrap_unsigned_small 32) by lia.
  - rewrite wrap_signed_64_uint64 by assumption.
    now rewrite wrap_unsigned_64_int64_of_uint64.
Qed.

Lemma constructed_pairs (FormatFloat : Z -> Z -> list ascii) (fs : list Field)
    (kvs : list (string * list ascii)) :
  Forall2 (fun f kv => Holds FormatFloat f kv.1 kv.2) fs kvs ->
  Forall (fun f => f_Type f = Uint8Type -> f_Integer f < 2 ^ 7) fs ->
  Forall typed fs
  /\ mapM (appended_pair FormatFloat) (known fs)
     = Some (map (fun kv => pair_text kv.1 kv.2) kvs).
Proof.
  induction 1 as [|f kv fs kvs Hf _ IH]; intros Hu.
  - split; [constructor|reflexivity].
  - apply Forall_cons in Hu as [Hu0 Hu].
    destruct (Holds_appended FormatFloat f kv.1 kv.2 Hf Hu0) as (Hk & Ht & Hp).
    destruct (IH Hu) as [Hts Hps].
    split; [now constructor|].
    unfold known. rewrite filter_cons, decide_True by exact Hk. fold (known fs).
    cbn [mapM mbind option_bind]. rewrite Hp. cbn [mbind option_bind].
    rewrite Hps. reflexivity.
Qed.

(** X13.  The JSON line of a record whose fields were built by the
    constructors of the package, none of them a uint8 above 127: after
    what the buffer held, the four leading keys in their order, then for
    every field, in sequence order, the pair of its key and of the value
    the constructor was given, then the closing brace and a newline.
    The call panics only where [Level.String] does. *)
Theorem EncodeJson_line_of_constructed_fields (FormatFloat : Z -> Z -> list ascii)
    (AddInterface : string -> any -> jsonEncoder -> option jsonEncoder)
    (record : LogRecord) (enc : jsonEncoder) (kvs : list (string * list ascii)) :
  left enc = false ->
  Forall2 (fun f kv => Holds FormatFloat f kv.1 kv.2) (rec_Fields record) kvs ->
  Forall (fun f => f_Type f = Uint8Type -> f_Integer f < 2 ^ 7) (rec_Fields record) ->
  EncodeJson FormatFloat AddInterface record enc
  = code ← Level.String (rec_Level record);
    Some (string_of_list_ascii
            (buf enc ++ json_line record code (map (fun kv => pair_text kv.1 kv.2) kvs))).
Proof.
  intros Hl Hh Hu. destruct (constructed_pairs FormatFloat _ _ Hh Hu) as [Ht Hp].
  rewrite EncodeJson_general by assumption. rewrite Hp. reflexivity.
Qed.

Lemma Level_String_some (l : Z) : l <> 8 -> is_Some (Level.String l).
Proof.
  intros Hl. destruct (Z.lt_ge_cases l 0) as [Hn|Hn].
  - rewrite Level_String_unknown by lia. eauto.
  - destruct (Z.le_gt_cases l 7).
    + now destruct (Level_String_defined l ltac:(lia)).
    + rewrite Level_String_unknown by lia. eauto.
Qed.

(** X1.  [Level.String] returns a text for every rank but one: the call
    panics exactly at rank 8, the length of the table. *)
Theorem Level_String_panics_only_at_8 (l : Z) : Level.String l = None <-> l = 8.
Proof.
  split.
  - intros H. destruct (decide (l = 8)) as [->|Hne]; [reflexivity|].
    destruct (Level_String_some l Hne) as [x Hx]. congruence.
  - intros ->. reflexivity.
Qed.

(** X2.  For the ranks 0 to 7, [Level.String] returns codes that differ
    from rank to rank: two ranks with the same code are the same rank.
    Every code is four bytes long and none of them is the text returned
    for a rank out of range. *)
Theorem Level_codes_are_distinct (l1 l2 : Z) (code : string) :
  0 <= l1 <= 7 -> 0 <= l2 <= 7 ->
  Level.String l1 = Some code -> Level.String l2 = Some code ->
  l1 = l2 /\ String.length code = 4%nat /\ code <> "UNKNOWN".
Proof.
  intros H1 H2 E1 E2.
  assert (Hcases : forall l, 0 <= l <= 7 ->
            l = 0 \/ l = 1 \/ l = 2 \/ l = 3 \/ l = 4 \/ l = 5 \/ l = 6 \/ l = 7) by (intros; lia).
  destruct (Hcases l1 H1) as [->|[->|[->|[->|[->|[->|[->| ->]]]]]]];
    injection E1 as <-;
    destruct (Hcases l2 H2) as [->|[->|[->|[->|[->|[->|[->| ->]]]]]]];
    try discriminate E2; repeat split; discriminate.
Qed.

(** *** Dispatch: the effects of a logged call *)

Section DispatchMore.

Variable fmt_Sprintf : string -> list any -> string.
Variable clock : nat -> Time.
Variable callsite : option (string * Z).
Variable iteration : nat -> list (string * Filter) -> list (string * Filter).

Hypothesis iteration_perm : forall n l, iteration n l ≡ₚ l.

Lemma admitted_perm (lvl : Z) (n : nat) (log : Logger) :
  admitted lvl (iteration n (map_to_list log)) ≡ₚ admitted lvl (map_to_list log).
Proof. unfold admitted. now rewrite (iteration_perm n). Qed.

Lemma admitting_not_skipped (log : Logger) (lvl : Z) (n : nat) (name : string)
    (filt : Filter) :
  log !! name = Some filt -> filt_Level filt <= lvl ->
  skipCheck lvl (iteration n (map_to_list log)) = false.
Proof.
  intros Hlk Hle. apply (skipCheck_false lvl _ (name, filt)); [|exact Hle].
  rewrite (iteration_perm n). now apply elem_of_map_to_list.
Qed.

Lemma dispatch_writes_perm (log : Logger) (c : Call) (w : World) :
  writes (effects (dispatch fmt_Sprintf clock callsite iteration log c) w)
  ≡ₚ map target (admitted (severity c) (map_to_list log)).
Proof.
  rewrite dispatch_writes. unfold first_pass, second_pass.
  destruct (skipCheck (severity c) (iteration (w_ranges w) (map_to_list log))) eqn:Hs.
  - apply skipCheck_admitted in Hs.
    rewrite <- (admitted_perm (severity c) (w_ranges w) log), Hs. reflexivity.
  - now rewrite admitted_perm.
Qed.

(** X14.  The Writer invocations of a call are, up to their order,
    the bindings of the logger whose threshold is at or below the
    severity of the call, one invocation for each: the order in which
    the two loops visit the map changes nothing else. *)
Theorem deliveries_are_the_admitting_bindings (log : Logger) (c : Call) (w : World) :
  writes (effects (dispatch fmt_Sprintf clock callsite iteration log c) w)
  ≡ₚ map target (admitted (severity c) (map_to_list log)).
Proof. apply dispatch_writes_perm. Qed.

(** X15.  A call that some binding admits reads the clock exactly
    once; resolves the call site once, except [Log], which is given its
    source; runs the closure exactly once when it is [Logc] and has no
    closure to run otherwise; and formats at most once: [Logf] and the
    entries from [Finestf] to [Infof] when they have at least one
    argument, [Warnf], [Errorf] and [Criticalf] always, the others
    never. *)
Theorem logged_call_effects (log : Logger) (c : Call) (w : World)
    (name : string) (filt : Filter) :
  log !! name = Some filt -> filt_Level filt <= severity c ->
  let t := effects (dispatch fmt_Sprintf clock callsite iteration log c) w in
  let w' := final (dispatch fmt_Sprintf clock callsite iteration log c) w in
  count is_closure t = closure_count c
  /\ count is_caller t = caller_count c
  /\ count is_format t = format_count c
  /\ count is_now t = 1%nat
  /\ w_ticks w' = S (w_ticks w).
Proof.
  intros Hlk Hle t w'. subst t w'. unfold effects, final.
  rewrite dispatch_run. unfold first_pass.
  rewrite (admitting_not_skipped log (severity c) (w_ranges w) name filt Hlk Hle).
  cbv zeta. cbn [fst snd w_ticks].
  set (adm := admitted (severity c) (second_pass iteration log w)).
  assert (Hfan : forall p, (p = is_closure \/ p = is_caller \/ p = is_format \/ p = is_now) ->
            count p (if structured c
                     then imap (fun i b => write_event (length (w_heap w) + i) b) adm
                     else map (write_event (length (w_heap w))) adm) = 0%nat).
  { intros p Hp. unfold count.
    assert (Hnone : forall l : list Effect,
               Forall (fun e => exists n wr r, e = ELogWrite n wr r) l ->
               filter (fun e => p e = true) l = []).
    { induction 1 as [|e l He _ IH]; [reflexivity|].
      destruct He as (n & wr & r & ->).
      rewrite filter_cons. destruct Hp as [-> | [-> | [-> | ->]]]; cbn;
        (destruct (decide (false = true)) as [Hd|_]; [discriminate Hd|exact IH]). }
    rewrite Hnone; [reflexivity|].
    destruct (structured c).
    - apply Forall_forall. intros e He. apply elem_of_lookup_imap in He as (i & b & -> & _).
      unfold write_event. eauto.
    - apply Forall_forall. intros e He. apply list_elem_of_fmap in He as (b & -> & _).
      unfold write_event. eauto. }
  assert (Happ : forall p t1 t2, count p (t1 ++ t2) = (count p t1 + count p t2)%nat).
  { intros p t1 t2. unfold count. now rewrite filter_app, length_app. }
  rewrite !Happ, !Hfan by tauto.
  repeat split; destruct c; cbn [eager_format prelude closure_count caller_count format_count];
    try reflexivity;
    destruct (0 <? Z.of_nat (length args)); reflexivity.
Qed.

(** X16.  Every Writer invocation of a call is made on behalf of a
    binding of the logger that admits the call, and the record it is
    handed is the record of the call: its level, the reading of the
    clock, the source, the message (the format itself when a format
    entry has no arguments), the structured flag and the fields. *)
Theorem writer_receives_the_record (log : Logger) (c : Call) (w : World)
    (name : string) (writer p : nat) :
  ELogWrite name writer p ∈ effects (dispatch fmt_Sprintf clock callsite iteration log c) w ->
  w_heap (final (dispatch fmt_Sprintf clock callsite iteration log c) w) !! p
  = Some (record_of fmt_Sprintf clock callsite c w)
  /\ exists filt, log !! name = Some filt /\ filt_LogWriter filt = writer
                  /\ filt_Level filt <= severity c.
Proof.
  intros Hin. split.
  - apply (dispatch_records fmt_Sprintf clock callsite iteration log c w p).
    exact (written_elem name writer p _ Hin).
  - assert (Hw : (name, writer)
                 ∈ writes (effects (dispatch fmt_Sprintf clock callsite iteration log c) w)).
    { unfold writes. apply list_elem_of_omap.
      exists (ELogWrite name writer p). split; [exact Hin|reflexivity]. }
    rewrite dispatch_writes_perm in Hw.
    apply list_elem_of_fmap in Hw as ([n f] & Heq & Hadm).
    unfold target in Heq. cbn in Heq. injection Heq as -> ->.
    apply list_elem_of_filter in Hadm as [Hle Hlk].
    apply elem_of_map_to_list in Hlk. exists f. auto.
Qed.

End DispatchMore.

(** *** Closing and rebinding *)

Lemma closeLoop_run (fs : list (string * Filter)) :
  forall (log : Logger) (closed : list (string * nat)),
    closeLoop fs log closed
    = (foldl (fun m b => delete b.1 m) log fs, closed ++ map target fs).
Proof.
  induction fs as [|[name filt] fs IH]; intros log closed.
  - simpl. now rewrite app_nil_r.
  - cbn [closeLoop foldl map]. rewrite IH, <- app_assoc. reflexivity.
Qed.

Lemma lookup_foldl_delete (fs : list (string * Filter)) :
  forall (log : Logger) (k : string),
    foldl (fun m b => delete b.1 m) log fs !! k
    = if decide (k ∈ fs.*1) then None else log !! k.
Proof.
  induction fs as [|[name filt] fs IH]; intros log k.
  - simpl. destruct (decide (k ∈ [])) as [Hin|_]; [inversion Hin|reflexivity].
  - cbn [foldl fmap list_fmap fst]. rewrite IH.
    destruct (decide (k ∈ fs.*1)) as [Hin|Hnin].
    + rewrite decide_True by (right; exact Hin). reflexivity.
    + destruct (decide (k = name)) as [->|Hne].
      * rewrite decide_True by left. apply lookup_delete_eq.
      * rewrite decide_False by (intros Hc; apply elem_of_cons in Hc as [?|?]; tauto).
        now apply lookup_delete_ne.
Qed.

Section CloseFacts.

Variable fmt_Sprintf : string -> list any -> string.
Variable clock : nat -> Time.
Variable callsite : option (string * Z).
Variable iteration : nat -> list (string * Filter) -> list (string * Filter).

Hypothesis iteration_perm : forall n l, iteration n l ≡ₚ l.

Lemma empty_logger_skips (c : Call) (w : World) :
  effects (dispatch fmt_Sprintf clock callsite iteration ∅ c) w = eager_format c.
Proof.
  apply dispatch_skipped. unfold first_pass.
  rewrite map_to_list_empty.
  assert (H : iteration (w_ranges w) [] = []).
  { apply Permutation_nil. symmetry. apply iteration_perm. }
  now rewrite H.
Qed.

Lemma Close_closes_every_writer_once_aux (log : Logger) (w : World) :
  let '(log1, w1, closed) := Close iteration log w in
  log1 = ∅
  /\ w1 = mkWorld (w_ticks w) (S (w_ranges w)) (w_heap w)
  /\ closed ≡ₚ map target (map_to_list log).
Proof.
  unfold Close, range. rewrite closeLoop_run. cbn [app].
  assert (Hempty : foldl (fun m b => delete b.1 m) log
                     (iteration (w_ranges w) (map_to_list log)) = ∅).
  { apply map_eq. intros k. rewrite lookup_foldl_delete, lookup_empty.
    destruct (decide (k ∈ (iteration (w_ranges w) (map_to_list log)).*1)) as [_|Hnin];
      [reflexivity|].
    destruct (log !! k) as [f|] eqn:Hk; [|reflexivity].
    exfalso. apply Hnin. apply list_elem_of_fmap. exists (k, f). split; [reflexivity|].
    rewrite (iteration_perm (w_ranges w)). now apply elem_of_map_to_list. }
  rewrite Hempty. split; [reflexivity|]. split; [reflexivity|].
  now rewrite (iteration_perm (w_ranges w)).
Qed.

(** X17.  [Close] closes the writer of every binding exactly once
    and leaves the logger empty; every call made on it afterwards is
    dropped. *)
Theorem Close_closes_every_writer_once (log : Logger) (w : World) :
  let '(log1, w1, closed) := Close iteration log w in
  log1 = ∅
  /\ closed ≡ₚ map target (map_to_list log)
  /\ forall c w2, effects (dispatch fmt_Sprintf clock callsite iteration log1 c) w2
                  = eager_format c.
Proof.
  pose proof (Close_closes_every_writer_once_aux log w) as H.
  destruct (Close iteration log w) as [[log1 w1] closed].
  destruct H as (-> & _ & Hperm).
  split; [reflexivity|]. split; [exact Hperm|].
  intros c w2. apply empty_logger_skips.
Qed.

Lemma writes_of_name (log : Logger) (c : Call) (w : World) (name : string) :
  filter (fun x : string * nat => x.1 = name)
    (writes (effects (dispatch fmt_Sprintf clock callsite iteration log c) w))
  = match log !! name with
    | Some filt =>
      if decide (filt_Level filt <= severity c) then [(name, filt_LogWriter filt)] else []
    | None => []
    end.
Proof.
  rewrite dispatch_writes. unfold first_pass, second_pass.
  destruct (log !! name) as [filt|] eqn:Hlk.
  - destruct (skipCheck (severity c) (iteration (w_ranges w) (map_to_list log))) eqn:Hs.
    + destruct (decide (filt_Level filt <= severity c)) as [Hadm|_]; [|reflexivity].
      rewrite (admitting_not_skipped iteration iteration_perm log (severity c)
                 (w_ranges w) name filt Hlk Hadm) in Hs. discriminate.
    + apply filter_name_present.
      * rewrite (iteration_perm (S (w_ranges w))). apply NoDup_fst_map_to_list.
      * rewrite (iteration_perm (S (w_ranges w))). now apply elem_of_map_to_list.
  - destruct (skipCheck (severity c) (iteration (w_ranges w) (map_to_list log)));
      [reflexivity|].
    apply filter_name_absent. intros Hin.
    apply list_elem_of_fmap in Hin as ([n f] & Heq & Hin). cbn in Heq. subst n.
    rewrite (iteration_perm (S (w_ranges w))) in Hin.
    apply elem_of_map_to_list in Hin. congruence.
Qed.

(** X18.  After [AddFilter], a call reaches the writer just bound
    under the name exactly when its severity is at or above the new
    threshold, whatever was bound under the name before, and the
    deliveries under every other name are what they were. *)
Theorem AddFilter_rebinds (log : Logger) (name : string) (lvl : Z) (writer : nat)
    (c : Call) (w : World) :
  let deliveries l n :=
    filter (fun x : string * nat => x.1 = n)
      (writes (effects (dispatch fmt_Sprintf clock callsite iteration l c) w)) in
  deliveries (AddFilter name lvl writer log) name
  = (if decide (lvl <= severity c) then [(name, writer)] else [])
  /\ forall other, other <> name ->
       deliveries (AddFilter name lvl writer log) other = deliveries log other.
Proof.
  intros deliveries. subst deliveries. cbv beta. split.
  - rewrite writes_of_name. unfold AddFilter. now rewrite lookup_insert_eq.
  - intros other Hne. rewrite !writes_of_name. unfold AddFilter.
    now rewrite lookup_insert_ne by congruence.
Qed.

(** X19.  On the logger [NewDefaultLogger] returns, a call is
    delivered once, to the console writer bound as stdout, when its
    severity is at or above the level given, and not at all otherwise;
    [Global] starts as that logger at the debug level. *)
Theorem NewDefaultLogger_delivers_from_its_level (console : nat) (lvl : Z) (c : Call)
    (w : World) :
  writes (effects (dispatch fmt_Sprintf clock callsite iteration
                     (NewDefaultLogger console lvl) c) w)
  = (if decide (lvl <= severity c) then [("stdout", console)] else [])
  /\ pkg.init console = NewDefaultLogger console Level.DEBUG.
Proof.
  split; [|reflexivity].
  pose proof (dispatch_writes_perm fmt_Sprintf clock callsite iteration iteration_perm
                (NewDefaultLogger console lvl) c w) as Hperm.
  unfold NewDefaultLogger in Hperm at 2. rewrite map_to_list_singleton in Hperm.
  unfold admitted in Hperm. rewrite filter_cons, filter_nil in Hperm.
  unfold admits at 1 in Hperm. cbn [snd filt_Level] in Hperm.
  destruct (decide (lvl <= severity c)).
  - apply Permutation_singleton_r in Hperm. exact Hperm.
  - apply Permutation_nil_r in Hperm. exact Hperm.
Qed.

End CloseFacts.

(** *** The package-level functions *)

Lemma Repeat_slice (n : nat) :
  slice_from_1 (Repeat " %v" (S n)) = Some ("%v" +:+ Repeat " %v" n).
Proof. reflexivity. Qed.

Lemma Sprintf_spaced_tail (fmtV : any -> list ascii) (args : list any) :
  Sprintf fmtV (bytes_of (Repeat " %v" (length args))) args
  = Some (concat (map (fun x => " "%char :: fmtV x) args)).
Proof.
  induction args as [|a args IH]; [reflexivity|].
  cbn [length Repeat]. rewrite bytes_of_app.
  change (bytes_of " %v") with ([" "%char] ++ ["%"%char; "v"%char]).
  rewrite <- app_assoc. rewrite Sprintf_plain by percent_out.
  cbn [app]. rewrite Sprintf_verb by discriminate.
  change (format_verb fmtV "v" a) with (Some (fmtV a)).
  cbn [mbind option_bind]. rewrite IH.
  cbn [mbind option_bind fmap option_fmap option_map map concat]. reflexivity.
Qed.

Lemma Sprintf_spaced (fmtV : any -> list ascii) (a : any) (rest : list any) :
  Sprintf fmtV (bytes_of ("%v" +:+ Repeat " %v" (length rest))) (a :: rest)
  = Some (spaced fmtV (a :: rest)).
Proof.
  rewrite bytes_of_app. change (bytes_of "%v") with ["%"%char; "v"%char].
  cbn [app]. rewrite Sprintf_verb by discriminate.
  change (format_verb fmtV "v" a) with (Some (fmtV a)).
  cbn [mbind option_bind]. rewrite Sprintf_spaced_tail. reflexivity.
Qed.

Section PackageFacts.

Variable fmt_Sprintf : string -> list any -> string.
Variable clock : nat -> Time.
Variable callsite : option (string * Z).
Variable iteration : nat -> list (string * Filter) -> list (string * Filter).

Lemma log_args_some (lvl : Z) (a : any) (rest : list any) (G : Logger) (w : World) :
  pkg.log_args fmt_Sprintf clock callsite iteration lvl (a :: rest) G w
  = Some (pkg.on_Global
            (intLogf fmt_Sprintf clock callsite iteration G lvl
               ("%v" +:+ Repeat " %v" (length rest)) (a :: rest)) w).
Proof.
  unfold pkg.log_args. cbn [length].
  destruct (Z.ltb_spec 0 (Z.of_nat (S (length rest)))) as [_|Hc]; [|lia].
  now rewrite Repeat_slice.
Qed.

(** X20.  [Stdout] and [Stderr] with at least one argument are
    [Logf] at the info and at the error level with a format of one
    [%v] per argument, single spaces between them, which renders the
    arguments with single spaces between them; without arguments they
    do nothing. *)
Theorem Stdout_joins_with_spaces (fmtV : any -> list ascii) (a : any) (rest : list any)
    (G : Logger) (w : World) :
  let format := "%v" +:+ Repeat " %v" (length rest) in
  pkg.Stdout fmt_Sprintf clock callsite iteration (a :: rest) G w
  = pkg.Logf fmt_Sprintf clock callsite iteration Level.INFO format (a :: rest) G w
  /\ pkg.Stderr fmt_Sprintf clock callsite iteration (a :: rest) G w
     = pkg.Logf fmt_Sprintf clock callsite iteration Level.ERROR format (a :: rest) G w
  /\ Sprintf fmtV (bytes_of format) (a :: rest) = Some (spaced fmtV (a :: rest))
  /\ pkg.Stdout fmt_Sprintf clock callsite iteration [] G w = mkRun Returns G w []
  /\ pkg.Stderr fmt_Sprintf clock callsite iteration [] G w = mkRun Returns G w [].
Proof.
  intros format. subst format.
  split; [|split; [|split; [apply Sprintf_spaced|split; reflexivity]]].
  - unfold pkg.Stdout, pkg.Logf. now rewrite log_args_some.
  - unfold pkg.Stderr, pkg.Logf. now rewrite log_args_some.
Qed.

Lemma pkg_dispatch_method (c : Call) (G : Logger) (w : World) :
  pkg.dispatch fmt_Sprintf clock callsite iteration c G w
  = pkg.returning G
      (pkg.on_Global (dispatch fmt_Sprintf clock callsite iteration G (method_called c)) w).
Proof. destruct c; reflexivity. Qed.

Lemma method_called_facts (c : Call) :
  severity (method_called c) = severity c /\ eager_format (method_called c) = [].
Proof. destruct c; split; reflexivity. Qed.

Hypothesis iteration_perm : forall n l, iteration n l ≡ₚ l.

(** X21.  A package-level entry called at a severity no binding of
    [Global] admits has no effect at all: unlike the methods of the
    same name, the package-level [Warnf], [Errorf] and [Criticalf] hand
    their arguments to [intLogf] unformatted. *)
Theorem package_entries_skip_fast (c : Call) (G : Logger) (w : World) :
  (forall n f, G !! n = Some f -> severity c < filt_Level f) ->
  let r := pkg.dispatch fmt_Sprintf clock callsite iteration c G w in
  run_events r = [] /\ run_outcome r = Returns /\ run_Global r = G
  /\ w_heap (run_world r) = w_heap w /\ w_ticks (run_world r) = w_ticks w.
Proof.
  intros Hall r. subst r. rewrite pkg_dispatch_method.
  destruct (method_called_facts c) as [Hsev Heager].
  destruct (dispatch_skipped fmt_Sprintf clock callsite iteration G (method_called c) w)
    as [Heff Hfin].
  { rewrite Hsev. unfold first_pass.
    exact (below_all_skips iteration iteration_perm G (severity c) (w_ranges w) Hall). }
  unfold effects, final in Heff, Hfin. rewrite Heager in Heff.
  unfold pkg.returning, pkg.on_Global.
  destruct (dispatch fmt_Sprintf clock callsite iteration G (method_called c) w)
    as [[u w1] t]. cbn [fst snd] in *. subst t w1.
  cbn [run_events run_outcome run_Global run_world fst snd map w_heap w_ticks].
  repeat split; reflexivity.
Qed.

Lemma close_Global_run (G : Logger) (w : World) :
  exists closed,
    pkg.close_Global iteration G w
    = (∅, mkWorld (w_ticks w) (S (w_ranges w)) (w_heap w),
       map (fun b : string * nat => Closed b.1 b.2) closed)
    /\ closed ≡ₚ map target (map_to_list G).
Proof.
  pose proof (Close_closes_every_writer_once_aux iteration iteration_perm G w) as H.
  unfold pkg.close_Global.
  destruct (Close iteration G w) as [[G1 w1] closed] eqn:Hc.
  destruct H as (-> & Hw & Hperm). subst w1.
  exists closed. split; [reflexivity|exact Hperm].
Qed.

Lemma closings_Dispatched (t : list Effect) : closings (map Dispatched t) = [].
Proof. induction t as [|e t IH]; [reflexivity|exact IH]. Qed.

Lemma closings_Closed (l : list (string * nat)) :
  closings (map (fun b : string * nat => Closed b.1 b.2) l) = l.
Proof.
  induction l as [|[n wr] l IH]; [reflexivity|].
  change ((n, wr) :: closings (map (fun b : string * nat => Closed b.1 b.2) l)
          = (n, wr) :: l).
  now rewrite IH.
Qed.

Lemma closings_app (t1 t2 : list Event) : closings (t1 ++ t2) = closings t1 ++ closings t2.
Proof. apply omap_app. Qed.

(** X22.  [Exit] and [Exitf] end the process with status 0, after
    logging, and then closing the writer of every binding of [Global]
    exactly once; [Global] is left empty. *)
Theorem Exit_closes_and_leaves_with_zero (format : string) (args : list any)
    (G : Logger) (w : World) :
  let ends_closed r :=
    run_outcome r = Exits 0 /\ run_Global r = ∅
    /\ closings (run_events r) ≡ₚ map target (map_to_list G)
    /\ exists t closed,
         run_events r = map Dispatched t
                        ++ map (fun b : string * nat => Closed b.1 b.2) closed in
  ends_closed (pkg.Exit fmt_Sprintf clock callsite iteration args G w)
  /\ ends_closed (pkg.Exitf fmt_Sprintf clock callsite iteration format args G w).
Proof.
  intros ends_closed. subst ends_closed. cbv beta. split.
  - unfold pkg.Exit.
    assert (Hlog : exists w1 t1,
               pkg.log_args fmt_Sprintf clock callsite iteration Level.ERROR args G w
               = Some (w1, map Dispatched t1)).
    { destruct args as [|a rest]; [exists w, []; reflexivity|].
      rewrite log_args_some. unfold pkg.on_Global.
      destruct (intLogf _ _ _ _ _ _ _ _ w) as [[u w1] t1]. now exists w1, t1. }
    destruct Hlog as (w1 & t1 & ->).
    destruct (close_Global_run G w1) as (closed & -> & Hperm).
    cbn [run_outcome run_Global run_events].
    rewrite closings_app, closings_Dispatched, closings_Closed.
    repeat split; try reflexivity; [exact Hperm|now exists t1, closed].
  - unfold pkg.Exitf, pkg.on_Global.
    destruct (intLogf _ _ _ _ _ _ _ _ w) as [[u w1] t1].
    destruct (close_Global_run G w1) as (closed & -> & Hperm).
    cbn [run_outcome run_Global run_events].
    rewrite closings_app, closings_Dispatched, closings_Closed.
    repeat split; try reflexivity; [exact Hperm|now exists t1, closed].
Qed.

(** X23.  [Crash] panics with its arguments, with or without
    arguments, and leaves [Global] and its writers as they are;
    [Crashf] closes every writer of [Global] and then panics with the
    formatted message. *)
Theorem Crash_panics_without_closing (format : string) (args : list any)
    (G : Logger) (w : World) :
  let crash := pkg.Crash fmt_Sprintf clock callsite iteration args G w in
  let crashf := pkg.Crashf fmt_Sprintf clock callsite iteration format args G w in
  run_outcome crash = Panics (PanicArgs args)
  /\ run_Global crash = G
  /\ closings (run_events crash) = []
  /\ run_outcome crashf = Panics (PanicText (fmt_Sprintf format args))
  /\ run_Global crashf = ∅
  /\ closings (run_events crashf) ≡ₚ map target (map_to_list G).
Proof.
  intros crash crashf. subst crash crashf.
  assert (Hlog : exists w1 t1,
             pkg.log_args fmt_Sprintf clock callsite iteration Level.CRITICAL args G w
             = Some (w1, map Dispatched t1)).
  { destruct args as [|a rest]; [exists w, []; reflexivity|].
    rewrite log_args_some. unfold pkg.on_Global.
    destruct (intLogf _ _ _ _ _ _ _ _ w) as [[u w1] t1]. now exists w1, t1. }
  destruct Hlog as (w1 & t1 & Hlog).
  unfold pkg.Crash. rewrite Hlog.
  cbn [run_outcome run_Global run_events]. rewrite closings_Dispatched.
  split; [reflexivity|]. split; [reflexivity|]. split; [reflexivity|].
  unfold pkg.Crashf, pkg.on_Global.
  destruct (intLogf _ _ _ _ _ _ _ _ w) as [[u w2] t2].
  destruct (close_Global_run G w2) as (closed & -> & Hperm).
  unfold Sprintf_call, bind, emit, ret.
  cbn [run_outcome run_Global run_events].
  rewrite !closings_app, closings_Dispatched, closings_Closed.
  cbn [map closings omap app]. rewrite app_nil_r.
  repeat split; try reflexivity. exact Hperm.
Qed.

End PackageFacts.

(** *** The pool of records *)

Lemma assign_all (rec : nat) (lv : Z) (created : Time) (src msg : string) (json : bool)
    (fs : list Field) (h : list LogRecord) :
  alter (set_Fields fs) rec
    (alter (set_Json json) rec
       (alter (set_Message msg) rec
          (alter (set_Source src) rec
             (alter (set_Created created) rec (alter (set_Level lv) rec h)))))
  = alter (fun _ => mkRecord lv created src msg json fs) rec h.
Proof.
  rewrite !list_alter_alter_eq. apply list_eq. intros j. rewrite !list_lookup_alter.
  destruct (decide (rec = j)); [|reflexivity].
  destruct (h !! rec) as [r|]; reflexivity.
Qed.

Lemma GetLogRecord_run (clock : nat -> Time) (pick : list nat -> option nat)
    (lv : Z) (score message : string) (json : bool) (field : list Field)
    (pool : list nat) (w : World) :
  GetLogRecord clock pick lv score message json field pool w
  = let '(got, w0, _) := Pool_Get pick pool w in
    (got,
     mkWorld (S (w_ticks w0)) (w_ranges w0)
       (alter (fun _ => mkRecord lv (clock (w_ticks w0)) score message json field)
          got.1 (w_heap w0)),
     [ENow]).
Proof.
  unfold GetLogRecord, bind.
  destruct (Pool_Get pick pool w) as [[got w0] t0] eqn:Hget.
  assert (Ht0 : t0 = []).
  { unfold Pool_Get in Hget.
    destruct (pick pool) as [i|]; [destruct (pool !! i)|];
      unfold ret, bind, newLogRecord, alloc in Hget; now injection Hget. }
  subst t0. unfold assign, Now, ret. cbn [w_ticks w_ranges w_heap app].
  now rewrite assign_all.
Qed.

(** X24.  The record [GetLogRecord] returns holds exactly what the
    call was given, and the reading of the clock, whether the pool
    handed out a used record or a new one; no other record changes, and
    the pointer returned is a new one or one taken out of the pool. *)
Theorem GetLogRecord_overwrites_every_field (clock : nat -> Time)
    (pick : list nat -> option nat) (lv : Z) (score message : string) (json : bool)
    (field : list Field) (pool : list nat) (w : World) :
  Forall (fun p => (p < length (w_heap w))%nat) pool ->
  let '(got, w1, _) := GetLogRecord clock pick lv score message json field pool w in
  w_heap w1 !! got.1 = Some (mkRecord lv (clock (w_ticks w)) score message json field)
  /\ (forall q, q <> got.1 -> (q < length (w_heap w))%nat ->
                w_heap w1 !! q = w_heap w !! q)
  /\ ((got.1 = length (w_heap w) /\ got.2 = pool)
      \/ exists i, pool !! i = Some got.1 /\ got.2 = delete i pool).
Proof.
  intros Hpool. rewrite GetLogRecord_run.
  assert (Hfresh :
    Pool_Get pick pool w
    = (length (w_heap w), pool,
       mkWorld (w_ticks w) (w_ranges w) (w_heap w ++ [zero_LogRecord]), [])
    \/ exists i rec, pool !! i = Some rec
                     /\ Pool_Get pick pool w = (rec, delete i pool, w, [])).
  { unfold Pool_Get. destruct (pick pool) as [i|]; [destruct (pool !! i) as [rec|] eqn:Hi|].
    - right. exists i, rec. split; [exact Hi|reflexivity].
    - left. reflexivity.
    - left. reflexivity. }
  destruct Hfresh as [->|(i & rec & Hi & ->)]; cbn [fst snd w_heap w_ticks].
  - split; [|split].
    + rewrite list_lookup_alter_eq, lookup_app_r by lia.
      now rewrite Nat.sub_diag.
    + intros q Hne Hq. rewrite list_lookup_alter_ne by congruence.
      now rewrite lookup_app_l by exact Hq.
    + left. split; reflexivity.
  - assert (Hlt : (rec < length (w_heap w))%nat).
    { rewrite Forall_forall in Hpool. apply Hpool. eapply list_elem_of_lookup_2, Hi. }
    destruct (lookup_lt_is_Some_2 (w_heap w) rec Hlt) as [r Hr].
    split; [|split].
    + rewrite list_lookup_alter_eq, Hr. reflexivity.
    + intros q Hne _. now rewrite list_lookup_alter_ne by congruence.
    + right. now exists i.
Qed.

Lemma PutLogRecord_run (rec : nat) (pool : list nat) (w : World) :
  PutLogRecord rec pool w
  = (pool ++ [rec],
     mkWorld (w_ticks w) (w_ranges w) (alter (fun _ => zero_LogRecord) rec (w_heap w)),
     []).
Proof.
  unfold PutLogRecord, bind, assign, ret. cbn [w_ticks w_ranges w_heap app].
  now rewrite assign_all.
Qed.

Section PoolAndDispatch.

Variable fmt_Sprintf : string -> list any -> string.
Variable clock : nat -> Time.
Variable callsite : option (string * Z).
Variable iteration : nat -> list (string * Filter) -> list (string * Filter).

Lemma written_unstructured (log : Logger) (c : Call) (w : World) (p : nat) :
  structured c = false ->
  p ∈ written (effects (dispatch fmt_Sprintf clock callsite iteration log c) w) ->
  p = length (w_heap w).
Proof.
  intros Hs. unfold effects. rewrite dispatch_run.
  destruct (written_eager_prelude c) as [He Hp].
  destruct (skipCheck (severity c) (first_pass iteration log w)); cbn [snd].
  - rewrite He. intros Hin. inversion Hin.
  - cbv zeta. rewrite !written_app, He, Hp, Hs. cbn [app].
    rewrite written_map. intros Hin. now apply elem_of_replicate in Hin as [-> _].
Qed.

(** X25.  [PutLogRecord] on a record a call has delivered resets
    it in place: after a call of the format, closure or manual shape,
    every writer of that call is left with the emptied record; after a
    structured call the records of the other writers are untouched. *)
Theorem PutLogRecord_clears_for_every_holder (log : Logger) (c : Call) (w : World)
    (p : nat) (pool : list nat) :
  let call := dispatch fmt_Sprintf clock callsite iteration log c in
  p ∈ written (effects call w) ->
  let h := w_heap (final (PutLogRecord p pool) (final call w)) in
  h !! p = Some zero_LogRecord
  /\ (structured c = false ->
      forall q, q ∈ written (effects call w) -> h !! q = Some zero_LogRecord)
  /\ (structured c = true ->
      forall q, q ∈ written (effects call w) -> q <> p ->
                h !! q = Some (record_of fmt_Sprintf clock callsite c w)).
Proof.
  intros call Hp h. subst call h.
  assert (Hput : forall w1, w_heap (final (PutLogRecord p pool) w1)
                            = alter (fun _ => zero_LogRecord) p (w_heap w1)).
  { intros w1. unfold final. now rewrite PutLogRecord_run. }
  rewrite Hput.
  pose proof (dispatch_records fmt_Sprintf clock callsite iteration log c w p Hp) as Hrec.
  assert (Hzero : alter (fun _ => zero_LogRecord) p
                    (w_heap (final (dispatch fmt_Sprintf clock callsite iteration log c) w))
                  !! p = Some zero_LogRecord).
  { now rewrite list_lookup_alter_eq, Hrec. }
  split; [exact Hzero|]. split.
  - intros Hs q Hq.
    rewrite (written_unstructured log c w q Hs Hq).
    rewrite <- (written_unstructured log c w p Hs Hp). exact Hzero.
  - intros _ q Hq Hne. rewrite list_lookup_alter_ne by congruence.
    now apply dispatch_records.
Qed.

End PoolAndDispatch.

(** *** The theorems above, applied *)

Lemma Level_codes_are_distinct_witness :
  Level.String 4 = Some "INFO"
  /\ 4 = 4 /\ String.length "INFO" = 4%nat /\ "INFO" <> "UNKNOWN".
Proof.
  split; [reflexivity|].
  apply (Level_codes_are_distinct 4 4 "INFO"); [lia|lia|reflexivity|reflexivity].
Defined.

Lemma valid_a : ValidUTF8 (bytes_of "a").
Proof. apply Valid_ascii; [vm_compute; reflexivity|constructor]. Defined.

Lemma valid_b : ValidUTF8 (bytes_of "b").
Proof. apply Valid_ascii; [vm_compute; reflexivity|constructor]. Defined.

Lemma safeAddString_injective_on_valid_witness :
  buf (safeAddString "a" newJsonEncoder) <> buf (safeAddString "b" newJsonEncoder).
Proof.
  apply (safeAddString_injective_on_valid "a" "b" newJsonEncoder valid_a valid_b).
  discriminate.
Defined.

Lemma safeAddString_concat_witness :
  safeAddString ("a" +:+ "b") newJsonEncoder
  = safeAddString "b" (safeAddString "a" newJsonEncoder).
Proof. exact (safeAddString_concat "a" "b" newJsonEncoder valid_a). Defined.

Lemma percent_free_m : percent_free "m".
Proof. unfold percent_free. simpl. percent_out. Defined.

Lemma percent_free_k : percent_free "k".
Proof. unfold percent_free. simpl. percent_out. Defined.

Lemma constructed_fields_in_text_mode_witness :
  EncodeString (fun _ => []) (mkRecord Level.INFO (demo_clock 0) "main.go:12" "m" true
                                [field.Uint64 "k" (2 ^ 64 - 1)]) newJsonEncoder
  = Some "m k:-1 ".
Proof.
  pose proof (constructed_fields_in_text_mode (fun _ => []) Level.INFO (demo_clock 0)
                "main.go:12" "m" true "k" percent_free_m percent_free_k) as H.
  cbv zeta in H. destruct H as (_ & _ & _ & _ & _ & _ & H & _).
  rewrite (H (2 ^ 64 - 1)) by lia. vm_compute. reflexivity.
Defined.

Lemma EncodeJson_one_line_witness :
  exists body,
    bytes_of (string_of_list_ascii
            (bytes_of "{" ++ quoted "time" ++ bytes_of ":" ++ quoted "2024-03-07 09:05:00.00000"
             ++ bytes_of "," ++ quoted "message" ++ bytes_of ":" ++ quoted "start"
             ++ bytes_of "," ++ quoted "level" ++ bytes_of ":" ++ quoted "INFO"
             ++ bytes_of "," ++ quoted "file" ++ bytes_of ":" ++ quoted "main.go:12"
             ++ bytes_of "," ++ quoted "port" ++ bytes_of ": 8080"
             ++ bytes_of "," ++ quoted "ok" ++ bytes_of ": true"
             ++ bytes_of "}" ++ [newline]))
    = body ++ [newline]
    /\ Forall printable body.
Proof.
  apply (EncodeJson_one_line (fun _ _ => []) (fun _ _ _ => None) scenario_D_record
           newJsonEncoder).
  - intros w x. constructor.
  - reflexivity.
  - reflexivity.
  - repeat constructor; vm_compute; discriminate.
  - repeat constructor; vm_compute; discriminate.
  - repeat constructor; discriminate.
  - exact scenario_D_line.
Defined.

Lemma deliveries_are_the_admitting_bindings_witness :
  writes (effects (dispatch demo_Sprintf demo_clock None demo_iteration demo_log
                     (CError "disk full" [])) demo_world)
  ≡ₚ map target (admitted Level.ERROR (map_to_list demo_log)).
Proof.
  exact (deliveries_are_the_admitting_bindings demo_Sprintf demo_clock None demo_iteration
           demo_iteration_perm demo_log (CError "disk full" []) demo_world).
Defined.

Lemma demo_log_out : demo_log !! "out" = Some (mkFilter Level.WARNING 0).
Proof. vm_compute. reflexivity. Defined.

Lemma logged_call_effects_witness :
  count is_closure
    (effects (dispatch demo_Sprintf demo_clock None demo_iteration demo_log
                (CLogc Level.ERROR (fun _ => "late"))) demo_world) = 1%nat.
Proof.
  pose proof (logged_call_effects demo_Sprintf demo_clock None demo_iteration
                demo_iteration_perm demo_log (CLogc Level.ERROR (fun _ => "late"))
                demo_world "out" (mkFilter Level.WARNING 0) demo_log_out) as H.
  cbv zeta in H. destruct H as [H _]; [change (5 <= 6); lia|exact H].
Defined.

Lemma json_log_write :
  ELogWrite "json" 2 0
  ∈ effects (dispatch demo_Sprintf demo_clock (Some ("main.go", 12)) demo_iteration json_log
               (CInfo "start" [field.Int32 "port" 8080; field.Bool "ok" true])) demo_world.
Proof. vm_compute. do 2 right. left. Defined.

Lemma writer_receives_the_record_witness :
  w_heap (final (dispatch demo_Sprintf demo_clock (Some ("main.go", 12)) demo_iteration
                   json_log
                   (CInfo "start" [field.Int32 "port" 8080; field.Bool "ok" true]))
            demo_world) !! 0%nat
  = Some (record_of demo_Sprintf demo_clock (Some ("main.go", 12))
            (CInfo "start" [field.Int32 "port" 8080; field.Bool "ok" true]) demo_world).
Proof.
  exact (proj1 (writer_receives_the_record demo_Sprintf demo_clock (Some ("main.go", 12))
                  demo_iteration demo_iteration_perm json_log
                  (CInfo "start" [field.Int32 "port" 8080; field.Bool "ok" true])
                  demo_world "json" 2%nat 0%nat json_log_write)).
Defined.

Lemma Close_closes_every_writer_once_witness :
  (Close demo_iteration demo_log demo_world).1.1 = ∅.
Proof.
  pose proof (Close_closes_every_writer_once demo_Sprintf demo_clock None demo_iteration
                demo_iteration_perm demo_log demo_world) as H.
  destruct (Close demo_iteration demo_log demo_world) as [[log1 w1] closed].
  exact (proj1 H).
Defined.

Lemma AddFilter_rebinds_witness :
  filter (fun x : string * nat => x.1 = "out")
    (writes (effects (dispatch demo_Sprintf demo_clock None demo_iteration
                        (AddFilter "out" Level.DEBUG 7 demo_log) (CInfo "up" []))
               demo_world))
  = [("out", 7%nat)].
Proof.
  pose proof (AddFilter_rebinds demo_Sprintf demo_clock None demo_iteration
                demo_iteration_perm demo_log "out" Level.DEBUG 7 (CInfo "up" [])
                demo_world) as H.
  cbv zeta in H. exact (proj1 H).
Defined.

Lemma package_entries_skip_fast_witness :
  run_events (pkg.dispatch demo_Sprintf demo_clock None demo_iteration
                (CWarnf "disk %s" [AString "full"]) quiet_log demo_world) = [].
Proof.
  pose proof (package_entries_skip_fast demo_Sprintf demo_clock None demo_iteration
                demo_iteration_perm (CWarnf "disk %s" [AString "full"]) quiet_log demo_world
                quiet_log_above_warning) as H.
  cbv zeta in H. exact (proj1 H).
Defined.

Lemma Exit_closes_and_leaves_with_zero_witness :
  run_outcome (pkg.Exit demo_Sprintf demo_clock None demo_iteration [AString "bye"]
                 demo_log demo_world) = Exits 0
  /\ run_Global (pkg.Exit demo_Sprintf demo_clock None demo_iteration [AString "bye"]
                   demo_log demo_world) = ∅.
Proof.
  pose proof (Exit_closes_and_leaves_with_zero demo_Sprintf demo_clock None demo_iteration
                demo_iteration_perm "" [AString "bye"] demo_log demo_world) as H.
  cbv zeta in H. destruct H as [(H1 & H2 & _) _]. split; [exact H1|exact H2].
Defined.

Lemma Crash_panics_without_closing_witness :
  run_outcome (pkg.Crash demo_Sprintf demo_clock None demo_iteration [AString "bye"]
                 demo_log demo_world) = Panics (PanicArgs [AString "bye"])
  /\ run_Global (pkg.Crash demo_Sprintf demo_clock None demo_iteration [AString "bye"]
                   demo_log demo_world) = demo_log.
Proof.
  pose proof (Crash_panics_without_closing demo_Sprintf demo_clock None demo_iteration
                demo_iteration_perm "" [AString "bye"] demo_log demo_world) as H.
  cbv zeta in H. destruct H as (H1 & H2 & _). split; [exact H1|exact H2].
Defined.

Lemma GetLogRecord_overwrites_every_field_witness :
  w_heap (final (GetLogRecord demo_clock (fun _ => Some 0%nat) Level.INFO "new.go:2" "new"
                   false [] [0%nat]) stale_world) !! 0%nat
  = Some (mkRecord Level.INFO (demo_clock 5) "new.go:2" "new" false []).
Proof.
  pose proof (GetLogRecord_overwrites_every_field demo_clock (fun _ => Some 0%nat)
                Level.INFO "new.go:2" "new" false [] [0%nat] stale_world) as H.
  unfold final.
  destruct (GetLogRecord demo_clock (fun _ => Some 0%nat) Level.INFO "new.go:2" "new"
              false [] [0%nat] stale_world) as [[got w1] t] eqn:Hrun.
  assert (Hgot : got.1 = 0%nat) by (vm_compute in Hrun; now injection Hrun as <- _ _).
  destruct H as [H _]; [repeat constructor|].
  rewrite Hgot in H. exact H.
Defined.

Lemma demo_written :
  0%nat ∈ written (effects (dispatch demo_Sprintf demo_clock None demo_iteration demo_log
                              (CLog Level.ERROR "main.go:3" "disk full")) demo_world).
Proof. vm_compute. left. Defined.

Lemma PutLogRecord_clears_for_every_holder_witness :
  w_heap (final (PutLogRecord 0 [])
            (final (dispatch demo_Sprintf demo_clock None demo_iteration demo_log
                      (CLog Level.ERROR "main.go:3" "disk full")) demo_world)) !! 0%nat
  = Some zero_LogRecord.
Proof.
  pose proof (PutLogRecord_clears_for_every_holder demo_Sprintf demo_clock None
                demo_iteration demo_log (CLog Level.ERROR "main.go:3" "disk full")
                demo_world 0%nat [] demo_written) as H.
  cbv zeta in H. exact (proj1 H).
Defined.

Lemma scenario_D_holds :
  Forall2 (fun f kv => Holds (fun _ _ => []) f kv.1 kv.2) (rec_Fields scenario_D_record)
    [("port", FormatInt 8080); ("ok", FormatBool true)].
Proof.
  constructor; [apply (Holds_Int32 (fun _ _ => []) "port" 8080); lia|].
  constructor; [apply (Holds_Bool (fun _ _ => []) "ok" true)|constructor].
Defined.

Lemma EncodeJson_line_of_constructed_fields_witness :
  EncodeJson (fun _ _ => []) (fun _ _ _ => None) scenario_D_record newJsonEncoder
  = Some (string_of_list_ascii
            (json_line scenario_D_record "INFO"
               [pair_text "port" (FormatInt 8080); pair_text "ok" (FormatBool true)])).
Proof.
  rewrite (EncodeJson_line_of_constructed_fields (fun _ _ => []) (fun _ _ _ => None)
             scenario_D_record newJsonEncoder
             [("port", FormatInt 8080); ("ok", FormatBool true)] eq_refl scenario_D_holds).
  - reflexivity.
  - repeat constructor; discriminate.
Defined.

Lemma NewDefaultLogger_delivers_from_its_level_witness :
  writes (effects (dispatch demo_Sprintf demo_clock None demo_iteration
                     (NewDefaultLogger 9 Level.DEBUG) (CFinef "tick" [])) demo_world)
  = [].
Proof.
  exact (proj1 (NewDefaultLogger_delivers_from_its_level demo_Sprintf demo_clock None
                  demo_iteration demo_iteration_perm 9%nat Level.DEBUG (CFinef "tick" [])
                  demo_world)).
Defined.
